(** * EasyProfiler capture decoder and analysis engine

    A shallow embedding of the Go packages [parser] (reader.go, types.go,
    options) and [analyzer] (analyzer.go), with the properties of the
    natural-language specification stated and settled against it.

    Conventions.
    - Fixed-width Go integers are [Z] with the wrap-around written out
      ([to_uint16], [to_int64], ...).
    - The byte source is the list of bytes that remain after the cursor.
      Every read of the decoder is sequential and every seek is a forward
      relative seek, so the remaining bytes are the whole reader state.
    - Go strings are byte sequences: [string] (a list of 8-bit [ascii]).
    - Go maps are [gmap]; ranging over a map visits [map_to_list].
    - A run-time panic is the outcome [Panic]; an [error] value is [Err]. *)

From Stdlib Require Import ZArith Lia List String Ascii Strings.Byte.
From Stdlib Require Import Floats.SpecFloat QArith.
From stdpp Require Import gmap strings list fin_maps sorting pretty.

Close Scope Q_scope.

Local Open Scope Z_scope.

(** ** Fixed-width integers *)

Definition to_uint16 (z : Z) : Z := z mod 2 ^ 16.
Definition to_uint32 (z : Z) : Z := z mod 2 ^ 32.
Definition to_uint64 (z : Z) : Z := z mod 2 ^ 64.
(** Two's complement reinterpretation, as in Go's [int32(x)], [int64(x)]. *)
Definition to_int32 (z : Z) : Z := (z + 2 ^ 31) mod 2 ^ 32 - 2 ^ 31.
Definition to_int64 (z : Z) : Z := (z + 2 ^ 63) mod 2 ^ 64 - 2 ^ 63.

(** ** Bytes, little-endian integers *)

Definition byte_to_Z (b : byte) : Z := Z.of_N (Byte.to_N b).

Definition byte_of_Z (z : Z) : byte :=
  match Byte.of_N (Z.to_N (z mod 256)) with
  | Some b => b
  | None => x00
  end.

(** [binary.LittleEndian.UintN]: least significant byte first. *)
Fixpoint le_uint (bs : list byte) : Z :=
  match bs with
  | [] => 0
  | b :: t => byte_to_Z b + 256 * le_uint t
  end.

(** [binary.LittleEndian.PutUintN] on the low [n] bytes of [v]. *)
Fixpoint le_bytes (n : nat) (v : Z) : list byte :=
  match n with
  | O => []
  | S k => byte_of_Z v :: le_bytes k (v / 256)
  end.

Definition string_of_bytes (bs : list byte) : string := string_of_list_byte bs.
Definition bytes_of_string (s : string) : list byte := list_byte_of_string s.

(** ** Errors, outcomes and the reader monad *)

Inductive error : Type :=
| EOF                                   (* io.EOF *)
| ErrUnexpectedEOF                      (* io.ErrUnexpectedEOF *)
| ErrFormat (msg : string) (arg : Z)    (* fmt.Errorf with a number *)
| ErrWrap (ctx : string) (e : error).   (* fmt.Errorf("ctx: %w", err) *)

Inductive result (A : Type) : Type :=
| Ok (a : A)
| Err (e : error)
| Panic.
Arguments Ok {A} a.
Arguments Err {A} e.
Arguments Panic {A}.

(** A decoding step: from the remaining bytes to a value and the bytes
    that remain after it. *)
Definition Reader (A : Type) : Type := list byte -> result (A * list byte).

Definition ret {A} (a : A) : Reader A := fun s => Ok (a, s).
Definition fail {A} (e : error) : Reader A := fun _ => Err e.
Definition panic {A} : Reader A := fun _ => Panic.
Definition bind {A B} (m : Reader A) (k : A -> Reader B) : Reader B :=
  fun s => match m s with
           | Ok (a, s') => k a s'
           | Err e => Err e
           | Panic => Panic
           end.
(** [if err != nil { return fmt.Errorf("ctx: %w", err) }] *)
Definition wrap {A} (ctx : string) (m : Reader A) : Reader A :=
  fun s => match m s with
           | Ok r => Ok r
           | Err e => Err (ErrWrap ctx e)
           | Panic => Panic
           end.

Notation "x <- m ;; k" := (bind m (fun x => k))
  (at level 100, m at next level, right associativity).

(** [io.ReadFull(r, buf)] with [len(buf) = n]: [io.EOF] when no byte could
    be read, [io.ErrUnexpectedEOF] when only a part could. *)
Definition readFull (n : nat) : Reader (list byte) := fun s =>
  match n with
  | O => Ok ([], s)
  | S _ =>
      match s with
      | [] => Err EOF
      | _ :: _ =>
          if (length s <? n)%nat then Err ErrUnexpectedEOF
          else Ok (take n s, drop n s)
      end
  end.

(** [binary.Read(r, binary.LittleEndian, &x)] for an unsigned [x] of
    [w] bytes, and for a signed one. *)
Definition readUint (w : nat) : Reader Z :=
  bs <- readFull w ;; ret (le_uint bs).
Definition readUint8 := readUint 1.
Definition readUint16 := readUint 2.
Definition readUint32 := readUint 4.
Definition readUint64 := readUint 8.
Definition readInt32 : Reader Z := v <- readUint 4 ;; ret (to_int32 v).
Definition readInt64 : Reader Z := v <- readUint 8 ;; ret (to_int64 v).

(** [r.reader.Seek(n, io.SeekCurrent)] on a file: never fails, and may
    move past the end, after which every read meets end of file. *)
Definition seekCurrent (n : Z) : Reader unit := fun s =>
  Ok (tt, drop (Z.to_nat n) s).

(** ** types.go: constants and the capture model *)

Definition EasyProfilerSignature : Z := 0x45617379.
Definition MinCompatibleVersion : Z := 0x00010000.
Definition Version100 : Z := 0x01000000.
Definition Version130 : Z := 0x01030000.
Definition Version200 : Z := 0x02000000.
Definition Version210 : Z := 0x02010000.

Record FileHeader : Type := mkFileHeader {
  Signature : Z;               (* uint32 *)
  Version : Z;                 (* uint32 *)
  PID : Z;                     (* uint64 *)
  CPUFrequency : Z;            (* int64 *)
  BeginTime : Z;               (* uint64 *)
  EndTime : Z;                 (* uint64 *)
  MemorySize : Z;              (* uint64 *)
  DescriptorsMemorySize : Z;   (* uint64 *)
  BlocksCount : Z;             (* uint32 *)
  DescriptorsCount : Z;        (* uint32 *)
  ThreadsCount : Z;            (* uint32 *)
  BookmarksCount : Z;          (* uint16 *)
  Padding : Z                  (* uint16 *)
}.

(** ** reader.go: readHeader *)

Definition readHeader : Reader FileHeader :=
  signature <- readUint32 ;;
  version <- readUint32 ;;
  pid <- (if version <? Version130 then readUint32 else readUint64) ;;
  cpuFrequency <- readInt64 ;;
  beginTime <- readUint64 ;;
  endTime <- readUint64 ;;
  if version <? Version200 then
    blocksCount <- readUint32 ;;
    memorySize <- readUint64 ;;
    descriptorsCount <- readUint32 ;;
    descriptorsMemorySize <- readUint64 ;;
    ret (mkFileHeader signature version pid cpuFrequency beginTime endTime
           memorySize descriptorsMemorySize blocksCount descriptorsCount
           0 0 0)
  else
    memorySize <- readUint64 ;;
    descriptorsMemorySize <- readUint64 ;;
    blocksCount <- readUint32 ;;
    descriptorsCount <- readUint32 ;;
    if Version210 <=? version then
      threadsCount <- readUint32 ;;
      bookmarksCount <- readUint16 ;;
      padding <- readUint16 ;;
      ret (mkFileHeader signature version pid cpuFrequency beginTime endTime
             memorySize descriptorsMemorySize blocksCount descriptorsCount
             threadsCount bookmarksCount padding)
    else
      ret (mkFileHeader signature version pid cpuFrequency beginTime endTime
             memorySize descriptorsMemorySize blocksCount descriptorsCount
             0 0 0).

(** ** types.go: descriptors, blocks, threads, bookmarks *)

Record BlockDescriptor : Type := mkBlockDescriptor {
  BlockDescriptor_ID : Z;        (* uint32 *)
  BlockDescriptor_Line : Z;      (* int32 *)
  BlockDescriptor_Color : Z;     (* uint32 *)
  BlockDescriptor_Type : Z;      (* BlockType, uint8 *)
  BlockDescriptor_Status : Z;    (* uint8 *)
  BlockDescriptor_Name : string;
  BlockDescriptor_File : string
}.

#[local] Unset Elimination Schemes.
Inductive Block : Type :=
  mkBlock (Begin End_ ID : Z) (Name : string) (Children : list Block).
#[local] Set Elimination Schemes.

Definition Block_Begin (b : Block) : Z := let 'mkBlock x _ _ _ _ := b in x.
Definition Block_End (b : Block) : Z := let 'mkBlock _ x _ _ _ := b in x.
Definition Block_ID (b : Block) : Z := let 'mkBlock _ _ x _ _ := b in x.
Definition Block_Name (b : Block) : string := let 'mkBlock _ _ _ x _ := b in x.
Definition Block_Children (b : Block) : list Block :=
  let 'mkBlock _ _ _ _ x := b in x.

(** [func (b *Block) Duration() time.Duration]: the subtraction is on
    [uint64], the conversion to [time.Duration] reinterprets it as [int64]. *)
Definition Block_Duration (b : Block) : Z :=
  to_int64 (to_uint64 (Block_End b - Block_Begin b)).

Record ContextSwitch : Type := mkContextSwitch {
  ContextSwitch_Begin : Z;
  ContextSwitch_End : Z;
  ContextSwitch_ThreadID : Z;
  ContextSwitch_Name : string
}.

Record ThreadData : Type := mkThreadData {
  ThreadData_ThreadID : Z;       (* uint64 *)
  ThreadData_ThreadName : string;
  ThreadData_ContextSwitches : list ContextSwitch;
  ThreadData_Blocks : list Block
}.

Record Bookmark : Type := mkBookmark {
  Bookmark_Position : Z;
  Bookmark_Color : Z;
  Bookmark_Text : string
}.

Record ProfileData : Type := mkProfileData {
  Header : FileHeader;
  Descriptors : gmap Z BlockDescriptor;
  Threads : gmap Z ThreadData;
  Bookmarks : list Bookmark;
  TotalBlocksCount : Z;
  MemoryUsedBytes : Z
}.

Definition GetTotalDuration (p : ProfileData) : Z :=
  to_int64 (to_uint64 (EndTime (Header p) - BeginTime (Header p))).

Fixpoint countBlock (b : Block) : Z :=
  let 'mkBlock _ _ _ _ children := b in
  1 + (fix go (bs : list Block) : Z :=
         match bs with
         | [] => 0
         | c :: cs => countBlock c + go cs
         end) children.

(** [countBlocks]: [len(blocks)] plus the count of every child list. *)
Definition countBlocks (blocks : list Block) : Z :=
  fold_right (fun b acc => countBlock b + acc) 0 blocks.

(** [GetBlocksCount]: the sum over the threads of the map. *)
Definition GetBlocksCount (threads : gmap Z ThreadData) : Z :=
  fold_right (fun kv acc => countBlocks (ThreadData_Blocks kv.2) + acc) 0
    (map_to_list threads).

(** ** options *)

Record ReadOptions : Type := mkReadOptions {
  MaxBlockDepth : Z;
  SampleBlocks : Z;
  SkipContextSwitches : bool;
  SkipBookmarks : bool;
  MaxThreads : Z
}.

Definition DefaultReadOptions : ReadOptions := mkReadOptions 0 0 false false 0.
Definition FastReadOptions : ReadOptions := mkReadOptions 5 10 true true 0.

(** ** reader.go: records *)

Definition lift {A} (r : result A) : Reader A := fun s =>
  match r with
  | Ok a => Ok (a, s)
  | Err e => Err e
  | Panic => Panic
  end.

(** The slice expression [l[:hi]] for [hi <= len(l)]: a negative bound is
    a run-time panic. *)
Definition slice_to {A} (l : list A) (hi : Z) : result (list A) :=
  if hi <? 0 then Panic else Ok (take (Z.to_nat hi) l).

(** [string(buf[:len(buf)-1])] *)
Definition strip_terminator (buf : list byte) : result string :=
  match slice_to buf (Z.of_nat (length buf) - 1) with
  | Ok bs => Ok (string_of_bytes bs)
  | Err e => Err e
  | Panic => Panic
  end.

(** A counted loop [for i := 0; i < n; i++ { x, err := m(); ...append }]. *)
Fixpoint readN {A} (n : nat) (m : Reader A) : Reader (list A) :=
  match n with
  | O => ret []
  | S k => x <- m ;; xs <- readN k m ;; ret (x :: xs)
  end.

Definition readDescriptor : Reader BlockDescriptor :=
  size <- readUint16 ;;
  id <- readUint32 ;;
  line <- readInt32 ;;
  color <- readUint32 ;;
  type <- readUint8 ;;
  status <- readUint8 ;;
  nameLength <- readUint16 ;;
  nameBytes <- readFull (Z.to_nat nameLength) ;;
  name <- lift (strip_terminator nameBytes) ;;
  let remainingSize := to_uint16 (size - to_uint16 (4 + 4 + 4 + 1 + 1 + 2 + nameLength)) in
  if 0 <? remainingSize then
    fileBytes <- readFull (Z.to_nat remainingSize) ;;
    file <- lift (strip_terminator fileBytes) ;;
    ret (mkBlockDescriptor id line color type status name file)
  else
    ret (mkBlockDescriptor id line color type status name EmptyString).

(** [readDescriptors]: the table is filled in reading order, a later
    entry with the same ID replaces the earlier one. *)
Fixpoint readDescriptors (n : nat) (descs : gmap Z BlockDescriptor)
  : Reader (gmap Z BlockDescriptor) :=
  match n with
  | O => ret descs
  | S k =>
      d <- wrap "failed to read descriptor" readDescriptor ;;
      readDescriptors k (<[BlockDescriptor_ID d := d]> descs)
  end.

Definition readContextSwitch : Reader ContextSwitch :=
  size <- readUint16 ;;
  threadID <- readUint64 ;;
  begin <- readUint64 ;;
  end_ <- readUint64 ;;
  let remainingSize := to_uint16 (size - 24) in
  if 0 <? remainingSize then
    nameBytes <- readFull (Z.to_nat remainingSize) ;;
    name <- lift (strip_terminator nameBytes) ;;
    ret (mkContextSwitch begin end_ threadID name)
  else
    ret (mkContextSwitch begin end_ threadID EmptyString).

Definition last_is_zero (buf : list byte) : bool :=
  match last buf with
  | Some b => byte_to_Z b =? 0
  | None => false
  end.

Definition readBlock : Reader Block :=
  size <- readUint16 ;;
  begin <- readUint64 ;;
  end_ <- readUint64 ;;
  id <- readUint32 ;;
  let remainingSize := to_uint16 (size - 20) in
  if 0 <? remainingSize then
    nameBytes <- readFull (Z.to_nat remainingSize) ;;
    if (0 <? Z.of_nat (length nameBytes)) && last_is_zero nameBytes then
      name <- lift (strip_terminator nameBytes) ;;
      ret (mkBlock begin end_ id name [])
    else
      ret (mkBlock begin end_ id (string_of_bytes nameBytes) [])
  else
    ret (mkBlock begin end_ id EmptyString []).

(** The skip branch of [readThread]: a size, then a relative seek. *)
Definition skipContextSwitch : Reader unit :=
  size <- readUint16 ;; seekCurrent size.

Definition readThread (options : ReadOptions) (threadID : Z)
  : Reader ThreadData :=
  nameSize <- readUint16 ;;
  threadName <- (if 0 <? nameSize
                 then nameBytes <- readFull (Z.to_nat nameSize) ;;
                      ret (string_of_bytes nameBytes)
                 else ret EmptyString) ;;
  csCount <- readUint32 ;;
  contextSwitches <-
    (if SkipContextSwitches options
     then _ <- readN (Z.to_nat csCount) skipContextSwitch ;; ret []
     else readN (Z.to_nat csCount)
            (wrap "failed to read context switch" readContextSwitch)) ;;
  blocksCount <- readUint32 ;;
  blocks <- readN (Z.to_nat blocksCount)
              (wrap "failed to read block" readBlock) ;;
  ret (mkThreadData threadID threadName contextSwitches blocks).

(** ** reader.go: the thread list *)

Definition is_EOF (e : error) : bool :=
  match e with EOF => true | _ => false end.

(** The code after the loop of [readThreads]: the end signature. *)
Definition readEndSignature (threadsRead expectedThreads : Z)
    (threads : gmap Z ThreadData) : Reader (gmap Z ThreadData) := fun s =>
  match readUint32 s with
  | Ok (signature, s') =>
      if signature =? EasyProfilerSignature then Ok (threads, s')
      else Err (ErrFormat "invalid end signature" signature)
  | Err e =>
      if is_EOF e && (threadsRead =? expectedThreads) then Ok (threads, s)
      else Err (ErrWrap "failed to read end signature" e)
  | Panic => Panic
  end.

(** The thread identifier: [uint32] before version 1.3.0, [uint64] from it. *)
Definition readThreadID (version : Z) : Reader Z :=
  if version <? Version130 then readUint32 else readUint64.

(** The loop [for threadsRead < expectedThreads] of [readThreads]; [n] is
    the number of iterations the condition still allows,
    [expectedThreads - threadsRead]. The sentinel test compares the low
    32 bits of the identifier with the signature (a 32-bit identifier is
    its own low 32 bits). End of file at the identifier is the [break]. *)
Fixpoint readThreadsLoop (options : ReadOptions) (version expectedThreads : Z)
    (n : nat) (threadsRead : Z) (threads : gmap Z ThreadData)
  : Reader (gmap Z ThreadData) := fun s =>
  match n with
  | O => readEndSignature threadsRead expectedThreads threads s
  | S n' =>
      match readThreadID version s with
      | Err EOF => readEndSignature threadsRead expectedThreads threads s
      | Err e => Err (ErrWrap "failed to read thread ID" e)
      | Panic => Panic
      | Ok (threadID, s1) =>
          if (to_uint32 threadID =? EasyProfilerSignature)
             && (expectedThreads =? 0xFFFFFFFF)
          then Ok (threads, s1)
          else
            match wrap "failed to read thread" (readThread options threadID) s1 with
            | Ok (thread, s2) =>
                readThreadsLoop options version expectedThreads n'
                  (threadsRead + 1) (<[threadID := thread]> threads) s2
            | Err e => Err e
            | Panic => Panic
            end
      end
  end.

Definition readThreads (options : ReadOptions) (header : FileHeader)
  : Reader (gmap Z ThreadData) :=
  let expectedThreads :=
    if Version header <? Version210 then 0xFFFFFFFF else ThreadsCount header in
  readThreadsLoop options (Version header) expectedThreads
    (Z.to_nat expectedThreads) 0 ∅.

(** ** reader.go: bookmarks and [Parse] *)

Definition readBookmark : Reader Bookmark :=
  size <- readUint16 ;;
  position <- readUint64 ;;
  color <- readUint32 ;;
  let remainingSize := to_uint16 (size - 12) in
  if 0 <? remainingSize then
    textBytes <- readFull (Z.to_nat remainingSize) ;;
    text <- lift (strip_terminator textBytes) ;;
    ret (mkBookmark position color text)
  else
    ret (mkBookmark position color EmptyString).

Definition readBookmarks (header : FileHeader) : Reader (list Bookmark) :=
  bookmarks <- readN (Z.to_nat (BookmarksCount header))
                 (wrap "failed to read bookmark" readBookmark) ;;
  signature <- readUint32 ;;
  if signature =? EasyProfilerSignature then ret bookmarks
  else fail (ErrFormat "invalid bookmarks end signature" signature).

Definition Parse (options : ReadOptions) (input : list byte)
  : result ProfileData :=
  match
    (header <- wrap "failed to read header" readHeader ;;
     if negb (Signature header =? EasyProfilerSignature) then
       fail (ErrFormat "invalid file signature" (Signature header))
     else if Version header <? MinCompatibleVersion then
       fail (ErrFormat "unsupported version" (Version header))
     else
       descriptors <- wrap "failed to read descriptors"
                        (readDescriptors (Z.to_nat (DescriptorsCount header)) ∅) ;;
       threads <- wrap "failed to read threads" (readThreads options header) ;;
       bookmarks <-
         (if negb (SkipBookmarks options) && (Version210 <=? Version header)
             && (0 <? BookmarksCount header)
          then wrap "failed to read bookmarks" (readBookmarks header)
          else ret []) ;;
       ret (mkProfileData header descriptors threads bookmarks
              (GetBlocksCount threads) (to_int64 (MemorySize header)))) input
  with
  | Ok (data, _) => Ok data
  | Err e => Err e
  | Panic => Panic
  end.

(** ** analyzer.go *)

(** [sort.Slice(s, less)]: a permutation of [s] in which no element is
    [less] than an earlier one. The library leaves the order of elements
    that compare equal open; the merge sort below fixes one such order, and
    the properties proved of the queries depend only on the result being a
    sorted permutation. *)
Definition sort_slice {A} (less : A -> A -> bool) (l : list A) : list A :=
  @merge_sort A (fun x y => less y x = false)
    (fun x y => decide (less y x = false)) l.

(** [float64(x)] of a 64-bit integer, and the IEEE 754 binary64 operations
    (round to nearest even). *)
Definition float64_of_int (z : Z) : spec_float := binary_normalize 53 1024 z 0 false.
Definition float64_div (x y : spec_float) : spec_float := SFdiv 53 1024 x y.
Definition float64_mul (x y : spec_float) : spec_float := SFmul 53 1024 x y.
(** [x > y] on [float64] *)
Definition float64_gt (x y : spec_float) : bool := SFltb y x.

Record BlockInfo : Type := mkBlockInfo {
  BlockInfo_Name : string;
  BlockInfo_File : string;
  BlockInfo_Line : Z;            (* int32 *)
  BlockInfo_Duration : Z;        (* time.Duration, int64 *)
  BlockInfo_CallCount : Z;       (* int *)
  BlockInfo_ThreadID : Z;
  BlockInfo_ThreadName : string;
  BlockInfo_AvgDuration : Z
}.

Record ThreadStats : Type := mkThreadStats {
  ThreadStats_ThreadID : Z;
  ThreadStats_ThreadName : string;
  ThreadStats_TotalDuration : Z;
  ThreadStats_BlockCount : Z;
  ThreadStats_ContextSwitches : Z;
  ThreadStats_AvgBlockDuration : Z;
  ThreadStats_PercentOfTotal : spec_float
}.

(** The [Description] text of an issue (durations and floats rendered by
    [fmt]) is not part of the model. *)
Record PerformanceIssue : Type := mkPerformanceIssue {
  PerformanceIssue_Type : string;
  PerformanceIssue_Severity : string;
  PerformanceIssue_Location : string;
  PerformanceIssue_Duration : Z;
  PerformanceIssue_ThreadID : Z;
  PerformanceIssue_ThreadName : string
}.

Section Analyzer.
(** [a.profile] *)
Variable profile : ProfileData.

(** [name := block.Name], replaced by [descriptor.Name] when it is empty
    and a descriptor exists. *)
Definition resolveName (bname : string) (descriptor : option BlockDescriptor) : string :=
  match descriptor with
  | Some d => if String.eqb bname EmptyString then BlockDescriptor_Name d else bname
  | None => bname
  end.

Definition descriptorFile (descriptor : option BlockDescriptor) : string :=
  match descriptor with Some d => BlockDescriptor_File d | None => EmptyString end.
Definition descriptorLine (descriptor : option BlockDescriptor) : Z :=
  match descriptor with Some d => BlockDescriptor_Line d | None => 0 end.

(** One iteration of the loop of [analyzeBlocksRecursive]: the block,
    then its children. *)
Fixpoint analyzeBlock (threadID : Z) (threadName : string) (block : Block)
  : list BlockInfo :=
  let descriptor := Descriptors profile !! Block_ID block in
  mkBlockInfo (resolveName (Block_Name block) descriptor)
    (descriptorFile descriptor) (descriptorLine descriptor)
    (Block_Duration block) 1 threadID threadName 0
  :: (let 'mkBlock _ _ _ _ children := block in
      (fix go (cs : list Block) : list BlockInfo :=
         match cs with
         | [] => []
         | c :: cs' => analyzeBlock threadID threadName c ++ go cs'
         end) children).

Definition analyzeBlocksRecursive (blocks : list Block) (threadID : Z)
    (threadName : string) : list BlockInfo :=
  flat_map (analyzeBlock threadID threadName) blocks.

Definition clamp_limit (limit len : Z) : Z :=
  if limit >? len then len else limit.

Definition GetSlowestBlocks (limit : Z) : result (list BlockInfo) :=
  let allBlocks :=
    flat_map (fun kv => analyzeBlocksRecursive (ThreadData_Blocks kv.2) kv.1
                          (ThreadData_ThreadName kv.2))
      (map_to_list (Threads profile)) in
  let sorted :=
    sort_slice (fun x y => BlockInfo_Duration x >? BlockInfo_Duration y)
      allBlocks in
  slice_to sorted (clamp_limit limit (Z.of_nat (length sorted))).

(** [total += block.Duration()] over the top-level blocks, on [int64]. *)
Definition calculateThreadDuration (blocks : list Block) : Z :=
  fold_left (fun total b => to_int64 (total + Block_Duration b)) blocks 0.

Definition threadStats (totalDuration : Z) (kv : Z * ThreadData) : ThreadStats :=
  let thread := kv.2 in
  let threadDuration := calculateThreadDuration (ThreadData_Blocks thread) in
  let blockCount := countBlocks (ThreadData_Blocks thread) in
  mkThreadStats kv.1 (ThreadData_ThreadName thread) threadDuration blockCount
    (Z.of_nat (length (ThreadData_ContextSwitches thread)))
    (if 0 <? blockCount then Z.quot threadDuration blockCount else 0)
    (if 0 <? totalDuration
     then float64_mul (float64_div (float64_of_int threadDuration)
                         (float64_of_int totalDuration))
            (float64_of_int 100)
     else S754_zero false).

Definition GetThreadStatistics : list ThreadStats :=
  sort_slice
    (fun x y => ThreadStats_TotalDuration x >? ThreadStats_TotalDuration y)
    (map (threadStats (GetTotalDuration profile))
       (map_to_list (Threads profile))).

(** [fmt.Sprintf("%s:%s:%d", name, descriptor.File, descriptor.Line)] *)
Definition hotspotKey (name : string) (descriptor : option BlockDescriptor) : string :=
  match descriptor with
  | Some d => name +:+ ":" +:+ BlockDescriptor_File d +:+ ":"
              +:+ pretty (BlockDescriptor_Line d)
  | None => name
  end.

(** One iteration of the loop of [aggregateBlocks]; the map holds
    pointers, so updating [existing] updates the entry of the map. *)
Fixpoint aggregateBlock (threadID : Z) (threadName : string) (block : Block)
    (blockMap : gmap string BlockInfo) : gmap string BlockInfo :=
  let descriptor := Descriptors profile !! Block_ID block in
  let name := resolveName (Block_Name block) descriptor in
  let key := hotspotKey name descriptor in
  let blockMap' :=
    match blockMap !! key with
    | Some existing =>
        <[key := mkBlockInfo (BlockInfo_Name existing) (BlockInfo_File existing)
                   (BlockInfo_Line existing)
                   (to_int64 (BlockInfo_Duration existing + Block_Duration block))
                   (BlockInfo_CallCount existing + 1)
                   (BlockInfo_ThreadID existing) (BlockInfo_ThreadName existing)
                   (BlockInfo_AvgDuration existing)]> blockMap
    | None =>
        <[key := mkBlockInfo name (descriptorFile descriptor)
                   (descriptorLine descriptor) (Block_Duration block) 1
                   threadID threadName 0]> blockMap
    end in
  let 'mkBlock _ _ _ _ children := block in
  (fix go (cs : list Block) (m : gmap string BlockInfo) : gmap string BlockInfo :=
     match cs with
     | [] => m
     | c :: cs' => go cs' (aggregateBlock threadID threadName c m)
     end) children blockMap'.

Definition aggregateBlocks (blocks : list Block) (threadID : Z)
    (threadName : string) (blockMap : gmap string BlockInfo)
  : gmap string BlockInfo :=
  fold_left (fun m b => aggregateBlock threadID threadName b m) blocks blockMap.

(** [info.AvgDuration = info.Duration / time.Duration(info.CallCount)] *)
Definition withAverage (info : BlockInfo) : BlockInfo :=
  if 0 <? BlockInfo_CallCount info then
    mkBlockInfo (BlockInfo_Name info) (BlockInfo_File info) (BlockInfo_Line info)
      (BlockInfo_Duration info) (BlockInfo_CallCount info)
      (BlockInfo_ThreadID info) (BlockInfo_ThreadName info)
      (Z.quot (BlockInfo_Duration info) (BlockInfo_CallCount info))
  else info.

Definition hotspotMap : gmap string BlockInfo :=
  fold_left (fun m kv => aggregateBlocks (ThreadData_Blocks kv.2) kv.1
                           (ThreadData_ThreadName kv.2) m)
    (map_to_list (Threads profile)) ∅.

Definition GetHotspots (limit : Z) : result (list BlockInfo) :=
  let hotspots := map (fun kv => withAverage kv.2) (map_to_list hotspotMap) in
  let sorted :=
    sort_slice (fun x y => BlockInfo_Duration x >? BlockInfo_Duration y)
      hotspots in
  slice_to sorted (clamp_limit limit (Z.of_nat (length sorted))).

Definition detectThreadImbalance : list PerformanceIssue :=
  let stats := GetThreadStatistics in
  match stats with
  | first :: _ :: _ =>
      let maxDuration := ThreadStats_TotalDuration first in
      let minDuration := ThreadStats_TotalDuration (List.last stats first) in
      if (0 <? minDuration)
         && float64_gt (float64_div (float64_of_int maxDuration)
                          (float64_of_int minDuration))
              (float64_of_int 2)
      then [mkPerformanceIssue "Thread Imbalance" "medium" "across all threads"
              (to_int64 (maxDuration - minDuration)) 0 EmptyString]
      else []
  | _ => []
  end.
End Analyzer.

(** ** Specification side: synthetic captures *)

(** The four header layouts of the format, selected by version. *)
Inductive HeaderFamily : Type := Oldest | Mid | Newer | Newest.

Definition family_of_version (v : Z) : HeaderFamily :=
  if v <? Version130 then Oldest
  else if v <? Version200 then Mid
  else if v <? Version210 then Newer
  else Newest.

(** A synthetic header: signature and version, then the fields of [h] in
    the order and widths that the format gives for the family [fam]. *)
Definition header_bytes (fam : HeaderFamily) (h : FileHeader) : list byte :=
  le_bytes 4 (Signature h) ++ le_bytes 4 (Version h) ++
  match fam with
  | Oldest =>
      le_bytes 4 (PID h) ++ le_bytes 8 (to_uint64 (CPUFrequency h)) ++
      le_bytes 8 (BeginTime h) ++ le_bytes 8 (EndTime h) ++
      le_bytes 4 (BlocksCount h) ++ le_bytes 8 (MemorySize h) ++
      le_bytes 4 (DescriptorsCount h) ++ le_bytes 8 (DescriptorsMemorySize h)
  | Mid =>
      le_bytes 8 (PID h) ++ le_bytes 8 (to_uint64 (CPUFrequency h)) ++
      le_bytes 8 (BeginTime h) ++ le_bytes 8 (EndTime h) ++
      le_bytes 4 (BlocksCount h) ++ le_bytes 8 (MemorySize h) ++
      le_bytes 4 (DescriptorsCount h) ++ le_bytes 8 (DescriptorsMemorySize h)
  | Newer =>
      le_bytes 8 (PID h) ++ le_bytes 8 (to_uint64 (CPUFrequency h)) ++
      le_bytes 8 (BeginTime h) ++ le_bytes 8 (EndTime h) ++
      le_bytes 8 (MemorySize h) ++ le_bytes 8 (DescriptorsMemorySize h) ++
      le_bytes 4 (BlocksCount h) ++ le_bytes 4 (DescriptorsCount h)
  | Newest =>
      le_bytes 8 (PID h) ++ le_bytes 8 (to_uint64 (CPUFrequency h)) ++
      le_bytes 8 (BeginTime h) ++ le_bytes 8 (EndTime h) ++
      le_bytes 8 (MemorySize h) ++ le_bytes 8 (DescriptorsMemorySize h) ++
      le_bytes 4 (BlocksCount h) ++ le_bytes 4 (DescriptorsCount h) ++
      le_bytes 4 (ThreadsCount h) ++ le_bytes 2 (BookmarksCount h) ++
      le_bytes 2 (Padding h)
  end.

Definition fits (bits : Z) (v : Z) : Prop := 0 <= v < 2 ^ bits.

(** The field values of [h] are values of the Go field types, and a field
    that the family [fam] does not store has its zero value. *)
Definition header_fits (fam : HeaderFamily) (h : FileHeader) : Prop :=
  fits 32 (Signature h) /\ fits 32 (Version h) /\
  fits (match fam with Oldest => 32 | _ => 64 end) (PID h) /\
  - 2 ^ 63 <= CPUFrequency h < 2 ^ 63 /\
  fits 64 (BeginTime h) /\ fits 64 (EndTime h) /\
  fits 64 (MemorySize h) /\ fits 64 (DescriptorsMemorySize h) /\
  fits 32 (BlocksCount h) /\ fits 32 (DescriptorsCount h) /\
  match fam with
  | Newest =>
      fits 32 (ThreadsCount h) /\ fits 16 (BookmarksCount h) /\
      fits 16 (Padding h)
  | _ => ThreadsCount h = 0 /\ BookmarksCount h = 0 /\ Padding h = 0
  end.

(** A synthetic descriptor record with the declared total size [size]:
    the fixed part, the name length, the name bytes and the bytes [file]
    that follow them. *)
Definition descriptor_bytes (size id line color type status : Z)
    (name file : list byte) : list byte :=
  le_bytes 2 size ++ le_bytes 4 id ++ le_bytes 4 (to_uint32 line) ++
  le_bytes 4 color ++ le_bytes 1 type ++ le_bytes 1 status ++
  le_bytes 2 (Z.of_nat (length name)) ++ name ++ file.

(** The errors of the byte cursor: a short read. *)
Definition short_read (e : error) : Prop := e = EOF \/ e = ErrUnexpectedEOF.

(** A decoding step that fails only with a short read. *)
Definition only_short_reads {A} (m : Reader A) : Prop :=
  forall s, match m s with Err e => short_read e | _ => True end.

(** A synthetic block record and a synthetic thread record; [idw] is the
    width of the thread identifier in bytes. *)
Definition block_bytes (begin end_ id : Z) (name : list byte) : list byte :=
  le_bytes 2 (20 + Z.of_nat (length name)) ++ le_bytes 8 begin ++
  le_bytes 8 end_ ++ le_bytes 4 id ++ name.

Definition thread_bytes (idw : nat) (threadID : Z) (name : list byte)
    (contextSwitches blocks : list (list byte)) : list byte :=
  le_bytes idw threadID ++ le_bytes 2 (Z.of_nat (length name)) ++ name ++
  le_bytes 4 (Z.of_nat (length contextSwitches)) ++ concat contextSwitches ++
  le_bytes 4 (Z.of_nat (length blocks)) ++ concat blocks.

(** [threads_read options version k threads s threads' s']: starting with
    the map [threads] and the input [s], the loop of [readThreads] reads
    [k] thread records, none of whose identifiers is the end sentinel, and
    reaches the map [threads'] and the input [s']. *)
Inductive threads_read (options : ReadOptions) (version : Z)
  : nat -> gmap Z ThreadData -> list byte
    -> gmap Z ThreadData -> list byte -> Prop :=
| threads_read_done threads s :
    threads_read options version 0 threads s threads s
| threads_read_step k threads s threadID s1 thread s2 threads' s' :
    readThreadID version s = Ok (threadID, s1) ->
    to_uint32 threadID <> EasyProfilerSignature ->
    readThread options threadID s1 = Ok (thread, s2) ->
    threads_read options version k (<[threadID := thread]> threads) s2 threads' s' ->
    threads_read options version (S k) threads s threads' s'.

(** The options with the three knobs [MaxBlockDepth], [SampleBlocks] and
    [MaxThreads] at their defaults and the two skip flags kept. *)
Definition without_knobs (options : ReadOptions) : ReadOptions :=
  mkReadOptions 0 0 (SkipContextSwitches options) (SkipBookmarks options) 0.

(** A version 2.1.0 capture with no descriptor and two threads of two
    top-level blocks each, followed by the end signature. *)
Definition two_thread_capture : list byte :=
  header_bytes Newest
    (mkFileHeader EasyProfilerSignature Version210 1234 0 16 32 0 0 4 0 2 0 0) ++
  thread_bytes 8 1 [] [] [block_bytes 0 10 1 []; block_bytes 10 20 1 []] ++
  thread_bytes 8 2 [] [] [block_bytes 0 30 1 []; block_bytes 30 40 1 []] ++
  le_bytes 4 EasyProfilerSignature.

(** A version 1.0.0 header with no descriptor, and one thread record with
    a single block: a capture of the oldest family that stops after its
    thread list, with no end signature. *)
Definition v100_header : FileHeader :=
  mkFileHeader EasyProfilerSignature Version100 1234 0 16 32 0 0 1 0 0 0 0.
Definition v100_thread : list byte :=
  thread_bytes 4 7 [] [] [block_bytes 0 10 1 []].

(** The same thread list in a version 2.1.0 capture, whose header declares
    one thread: the identifier is 64 bits wide, and the input stops after
    the thread record. *)
Definition v210_header : FileHeader :=
  mkFileHeader EasyProfilerSignature Version210 1234 0 16 32 0 0 1 0 1 0 0.
Definition v210_thread : list byte :=
  thread_bytes 8 7 [] [] [block_bytes 0 10 1 []].

(** Non-increasing order of a list by an integer key. *)
Definition desc_by {A} (key : A -> Z) : relation A := fun x y => key y <= key x.

(** The relation between count, average and total of a hotspot bucket
    under the truncating integer division of Go. *)
Definition average_of_total (info : BlockInfo) : Prop :=
  BlockInfo_CallCount info * BlockInfo_AvgDuration info
  = BlockInfo_Duration info
    - Z.rem (BlockInfo_Duration info) (BlockInfo_CallCount info)
  /\ Z.abs (Z.rem (BlockInfo_Duration info) (BlockInfo_CallCount info))
     < BlockInfo_CallCount info.

(** A model with one thread and two events of the same name, of durations
    1 and 2, and no descriptor. *)
Definition two_calls_profile : ProfileData :=
  mkProfileData
    (mkFileHeader EasyProfilerSignature Version210 1234 0 0 10 0 0 2 0 1 0 0)
    ∅
    {[ 1 := mkThreadData 1 "main" []
              [mkBlock 0 1 5 "f" []; mkBlock 1 3 5 "f" []] ]}
    [] 2 0.

(** Every bucket of a hotspot map has been hit at least once. *)
Definition positive_counts (m : gmap string BlockInfo) : Prop :=
  map_Forall (fun _ info => 1 <= BlockInfo_CallCount info) m.

(** The per-thread total durations of a model, and their extremes. *)
Definition thread_totals (p : ProfileData) : list Z :=
  map (fun kv => calculateThreadDuration (ThreadData_Blocks kv.2))
    (map_to_list (Threads p)).

Definition max_of (l : list Z) : Z :=
  match l with [] => 0 | x :: t => fold_right Z.max x t end.
Definition min_of (l : list Z) : Z :=
  match l with [] => 0 | x :: t => fold_right Z.min x t end.

(** The ratio of the rule, as the analyzer computes it: the binary64
    quotient of the two extremes converted to binary64. *)
Definition imbalance_ratio (p : ProfileData) : spec_float :=
  float64_div (float64_of_int (max_of (thread_totals p)))
    (float64_of_int (min_of (thread_totals p))).

(** The total duration of a thread in the words of the specification: the
    sum of the durations of its top-level events, nested events left out. *)
Definition top_level_total (blocks : list Block) : Z :=
  foldr (fun b acc => Block_Duration b + acc) 0 blocks.

Definition per_thread_totals (p : ProfileData) : list Z :=
  map (fun kv => top_level_total (ThreadData_Blocks kv.2))
    (map_to_list (Threads p)).

(** The ratio of the maximum to the minimum per-thread total, as a
    rational number. *)
Definition totals_ratio (p : ProfileData) : Q :=
  (inject_Z (max_of (per_thread_totals p))
   / inject_Z (min_of (per_thread_totals p)))%Q.

(** Two threads with the given top-level events. *)
Definition two_thread_blocks_profile (blocks1 blocks2 : list Block) : ProfileData :=
  mkProfileData
    (mkFileHeader EasyProfilerSignature Version210 1234 0 0 1000000000
       0 0 2 0 2 0 0)
    ∅
    {[ 1 := mkThreadData 1 "main" [] blocks1;
       2 := mkThreadData 2 "worker" [] blocks2 ]}
    [] 2 0.

(** A thread of 100 ms in two top-level events, the first with a nested
    event, and threads of 300 ms and of 150 ms in two events each. *)
Definition blocks_100ms : list Block :=
  [mkBlock 0 60000000 1 EmptyString [mkBlock 0 50000000 2 EmptyString []];
   mkBlock 60000000 100000000 1 EmptyString []].
Definition blocks_300ms : list Block :=
  [mkBlock 0 100000000 1 EmptyString [];
   mkBlock 100000000 300000000 3 EmptyString []].
Definition blocks_150ms : list Block :=
  [mkBlock 0 100000000 1 EmptyString [];
   mkBlock 100000000 150000000 3 EmptyString []].

(** Two threads with one top-level event each, of the given durations. *)
Definition two_thread_profile (d1 d2 : Z) : ProfileData :=
  mkProfileData
    (mkFileHeader EasyProfilerSignature Version210 1234 0 0 1000000000
       0 0 2 0 2 0 0)
    ∅
    {[ 1 := mkThreadData 1 "main" [] [mkBlock 0 d1 1 EmptyString []];
       2 := mkThreadData 2 "worker" [] [mkBlock 0 d2 1 EmptyString []] ]}
    [] 2 0.

(** ** types.go: the remaining accessors *)

(** [GetThreadCount]: [len(p.Threads)]. *)
Definition GetThreadCount (p : ProfileData) : Z := Z.of_nat (size (Threads p)).

(** One iteration of the loop of [flattenBlocks]: the block, then the
    flattened children. *)
Fixpoint flattenBlock (b : Block) : list Block :=
  b :: (let 'mkBlock _ _ _ _ children := b in
        (fix go (cs : list Block) : list Block :=
           match cs with
           | [] => []
           | c :: cs' => flattenBlock c ++ go cs'
           end) children).

Definition flattenBlocks (blocks : list Block) : list Block :=
  flat_map flattenBlock blocks.

(** [GetAllBlocks]: the flattened blocks of every thread of the map. *)
Definition GetAllBlocks (p : ProfileData) : list Block :=
  flat_map (fun kv => flattenBlocks (ThreadData_Blocks kv.2))
    (map_to_list (Threads p)).

(** ** analyzer.go: the issue detectors *)

(** [time.Millisecond], in nanoseconds. *)
Definition Millisecond : Z := 1000000.

(** One iteration of the loop of [findLongBlocks]: the block when its
    duration exceeds the threshold, then the long blocks of its children. *)
Fixpoint findLongBlock (threshold : Z) (block : Block) : list Block :=
  (if Block_Duration block >? threshold then [block] else [])
  ++ (let 'mkBlock _ _ _ _ children := block in
      (fix go (cs : list Block) : list Block :=
         match cs with
         | [] => []
         | c :: cs' => findLongBlock threshold c ++ go cs'
         end) children).

Definition findLongBlocks (blocks : list Block) (threshold : Z) : list Block :=
  flat_map (findLongBlock threshold) blocks.

(** The [float64] constants [0.10], [0.2] and [0.3]: the binary64 numbers
    nearest to the decimal literals. *)
Definition float64_0_10 : spec_float := S754_finite false 7205759403792794 (-56).
Definition float64_0_2 : spec_float := S754_finite false 7205759403792794 (-55).
Definition float64_0_3 : spec_float := S754_finite false 5404319552844595 (-54).


Section Issues.
(** [a.profile] *)
Variable profile : ProfileData.

(** The issue that [detectLongBlocks] appends for one long block. *)
Definition longBlockIssue (threadID : Z) (thread : ThreadData) (block : Block)
  : PerformanceIssue :=
  let descriptor := Descriptors profile !! Block_ID block in
  let location :=
    match descriptor with
    | Some d => BlockDescriptor_File d +:+ ":" +:+ pretty (BlockDescriptor_Line d)
    | None => "unknown"
    end in
  let severity :=
    if Block_Duration block >? 500 * Millisecond then "high" else "medium" in
  mkPerformanceIssue "Long Blocking Operation" severity location
    (Block_Duration block) threadID (ThreadData_ThreadName thread).

Definition detectLongBlocks : list PerformanceIssue :=
  let threshold := 100 * Millisecond in
  flat_map (fun kv => map (longBlockIssue kv.1 kv.2)
                        (findLongBlocks (ThreadData_Blocks kv.2) threshold))
    (map_to_list (Threads profile)).


(** [percent := float64(hotspot.Duration) / float64(totalDuration)] *)
Definition hotPercent (totalDuration : Z) (hotspot : BlockInfo) : spec_float :=
  float64_div (float64_of_int (BlockInfo_Duration hotspot))
    (float64_of_int totalDuration).

(** The body of the loop of [detectHotFunctions] for one hotspot. *)
Definition hotFunctionIssue (totalDuration : Z) (hotspot : BlockInfo)
  : list PerformanceIssue :=
  let percent := hotPercent totalDuration hotspot in
  if float64_gt percent float64_0_10 then
    let severity :=
      if float64_gt percent float64_0_3 then "high"
      else if float64_gt percent float64_0_2 then "medium"
      else "low" in
    let location :=
      if negb (String.eqb (BlockInfo_File hotspot) EmptyString)
      then BlockInfo_Name hotspot +:+ " (" +:+ BlockInfo_File hotspot +:+ ":"
           +:+ pretty (BlockInfo_Line hotspot) +:+ ")"
      else BlockInfo_Name hotspot in
    [mkPerformanceIssue "Hot Function" severity location
       (BlockInfo_Duration hotspot) 0 EmptyString]
  else [].

Definition detectHotFunctions : result (list PerformanceIssue) :=
  let totalDuration := GetTotalDuration profile in
  match GetHotspots profile 10 with
  | Ok hotspots => Ok (flat_map (hotFunctionIssue totalDuration) hotspots)
  | Err e => Err e
  | Panic => Panic
  end.

End Issues.

(** The three severities that the detectors assign. *)
Definition known_severity (s : string) : Prop :=
  s = "high" \/ s = "medium" \/ s = "low".


(** The sum of the call counts of a list of buckets, and of the block
    counts of a list of thread statistics. *)
Definition call_counts (l : list BlockInfo) : Z :=
  foldr (fun info acc => BlockInfo_CallCount info + acc) 0 l.
Definition block_counts (l : list ThreadStats) : Z :=
  foldr (fun s acc => ThreadStats_BlockCount s + acc) 0 l.

(** The sum of the call counts of the buckets of a hotspot map. *)
Definition bucket_calls (m : gmap string BlockInfo) : Z :=
  call_counts (map snd (map_to_list m)).

(** ** Synthetic records *)

(** A string followed by its null terminator. *)
Definition cstring (s : string) : list byte := bytes_of_string s ++ [x00].

Definition encode_descriptor (d : BlockDescriptor) : list byte :=
  descriptor_bytes
    (16 + Z.of_nat (length (cstring (BlockDescriptor_Name d)))
     + Z.of_nat (length (cstring (BlockDescriptor_File d))))
    (BlockDescriptor_ID d) (BlockDescriptor_Line d) (BlockDescriptor_Color d)
    (BlockDescriptor_Type d) (BlockDescriptor_Status d)
    (cstring (BlockDescriptor_Name d)) (cstring (BlockDescriptor_File d)).

Definition descriptor_fits (d : BlockDescriptor) : Prop :=
  fits 32 (BlockDescriptor_ID d) /\
  - 2 ^ 31 <= BlockDescriptor_Line d < 2 ^ 31 /\
  fits 32 (BlockDescriptor_Color d) /\ fits 8 (BlockDescriptor_Type d) /\
  fits 8 (BlockDescriptor_Status d) /\
  16 + Z.of_nat (length (cstring (BlockDescriptor_Name d)))
  + Z.of_nat (length (cstring (BlockDescriptor_File d))) < 2 ^ 16.

Definition encode_block (b : Block) : list byte :=
  block_bytes (Block_Begin b) (Block_End b) (Block_ID b) (cstring (Block_Name b)).

(** A block that one record can hold: field values of the Go field types,
    a name that fits the 16-bit size, and no children. *)
Definition block_fits (b : Block) : Prop :=
  fits 64 (Block_Begin b) /\ fits 64 (Block_End b) /\ fits 32 (Block_ID b) /\
  20 + Z.of_nat (length (cstring (Block_Name b))) < 2 ^ 16 /\
  Block_Children b = [].

Definition context_switch_bytes (size threadID begin end_ : Z)
    (name : list byte) : list byte :=
  le_bytes 2 size ++ le_bytes 8 threadID ++ le_bytes 8 begin ++
  le_bytes 8 end_ ++ name.

Definition encode_context_switch (cs : ContextSwitch) : list byte :=
  context_switch_bytes
    (24 + Z.of_nat (length (cstring (ContextSwitch_Name cs))))
    (ContextSwitch_ThreadID cs) (ContextSwitch_Begin cs) (ContextSwitch_End cs)
    (cstring (ContextSwitch_Name cs)).

Definition context_switch_fits (cs : ContextSwitch) : Prop :=
  fits 64 (ContextSwitch_ThreadID cs) /\ fits 64 (ContextSwitch_Begin cs) /\
  fits 64 (ContextSwitch_End cs) /\
  24 + Z.of_nat (length (cstring (ContextSwitch_Name cs))) < 2 ^ 16.

Definition bookmark_bytes (size position color : Z) (text : list byte)
  : list byte :=
  le_bytes 2 size ++ le_bytes 8 position ++ le_bytes 4 color ++ text.

Definition encode_bookmark (b : Bookmark) : list byte :=
  bookmark_bytes (12 + Z.of_nat (length (cstring (Bookmark_Text b))))
    (Bookmark_Position b) (Bookmark_Color b) (cstring (Bookmark_Text b)).

Definition bookmark_fits (b : Bookmark) : Prop :=
  fits 64 (Bookmark_Position b) /\ fits 32 (Bookmark_Color b) /\
  12 + Z.of_nat (length (cstring (Bookmark_Text b))) < 2 ^ 16.

(** The record of a thread after its identifier. *)
Definition encode_thread_body (t : ThreadData) : list byte :=
  thread_bytes 0 0 (bytes_of_string (ThreadData_ThreadName t))
    (map encode_context_switch (ThreadData_ContextSwitches t))
    (map encode_block (ThreadData_Blocks t)).

Definition thread_fits (t : ThreadData) : Prop :=
  Z.of_nat (length (bytes_of_string (ThreadData_ThreadName t))) < 2 ^ 16 /\
  Z.of_nat (length (ThreadData_ContextSwitches t)) < 2 ^ 32 /\
  Z.of_nat (length (ThreadData_Blocks t)) < 2 ^ 32 /\
  Forall context_switch_fits (ThreadData_ContextSwitches t) /\
  Forall block_fits (ThreadData_Blocks t).

(** What [readThread] keeps of a thread under the options: the context
    switches are dropped when they are skipped. *)
Definition thread_as_read (options : ReadOptions) (t : ThreadData) : ThreadData :=
  mkThreadData (ThreadData_ThreadID t) (ThreadData_ThreadName t)
    (if SkipContextSwitches options then [] else ThreadData_ContextSwitches t)
    (ThreadData_Blocks t).

(** An error that is a short read, possibly wrapped in contexts. *)
Fixpoint is_short_read (e : error) : bool :=
  match e with
  | EOF | ErrUnexpectedEOF => true
  | ErrWrap _ e' => is_short_read e'
  | ErrFormat _ _ => false
  end.

(** A decoding step that never panics and fails only with a (wrapped)
    short read. *)
Definition fails_only_short {A} (m : Reader A) : Prop :=
  forall s, match m s with
            | Ok _ => True
            | Err e => is_short_read e = true
            | Panic => False
            end.

(** Every value that a decoding step returns satisfies [P]. *)
Definition yields {A} (P : A -> Prop) (m : Reader A) : Prop :=
  forall s a s', m s = Ok (a, s') -> P a.

(** A decoding step that never panics. *)
Definition never_panics {A} (m : Reader A) : Prop := forall s, m s <> Panic.

(** What every thread returned by [readThread] satisfies. *)
Definition thread_decoded (options : ReadOptions) (threadID : Z) (t : ThreadData)
  : Prop :=
  ThreadData_ThreadID t = threadID
  /\ Forall (fun b => Block_Children b = []) (ThreadData_Blocks t)
  /\ (SkipContextSwitches options = true -> ThreadData_ContextSwitches t = []).

(** ** Synthetic captures *)

(** The width in bytes of a thread identifier, by version. *)
Definition thread_id_width (version : Z) : nat :=
  if version <? Version130 then 4%nat else 8%nat.

Definition encode_thread (idw : nat) (t : ThreadData) : list byte :=
  le_bytes idw (ThreadData_ThreadID t) ++ encode_thread_body t.

(** A thread that the thread list of a capture can hold: a well-formed
    record whose identifier fits the width [idw] and is not taken for the
    end sentinel (the low 32 bits of the identifier are compared with the
    signature only when [expectedThreads] is [0xFFFFFFFF]). *)
Definition thread_listed (idw : nat) (expectedThreads : Z) (t : ThreadData) : Prop :=
  thread_fits t /\ fits (8 * Z.of_nat idw) (ThreadData_ThreadID t)
  /\ (to_uint32 (ThreadData_ThreadID t) <> EasyProfilerSignature
      \/ expectedThreads <> 0xFFFFFFFF).

(** The tables that the decoder builds from the records in file order. *)
Definition descriptor_table (ds : list BlockDescriptor) : gmap Z BlockDescriptor :=
  foldl (fun m d => <[BlockDescriptor_ID d := d]> m) ∅ ds.

Definition thread_table (options : ReadOptions) (ts : list ThreadData)
  : gmap Z ThreadData :=
  foldl (fun m t => <[ThreadData_ThreadID t := thread_as_read options t]> m) ∅ ts.

(** A capture: the header in the layout of its version, the descriptor
    records, the thread records, and the bytes [ending] after them. *)
Definition capture_bytes (h : FileHeader) (ds : list BlockDescriptor)
    (ts : list ThreadData) (ending : list byte) : list byte :=
  header_bytes (family_of_version (Version h)) h
  ++ concat (map encode_descriptor ds)
  ++ concat (map (encode_thread (thread_id_width (Version h))) ts)
  ++ ending.

(** The model [two_calls_profile] with a header whose end time is its begin
    time: a capture of total duration zero that has blocks. *)
Definition zero_span_profile : ProfileData :=
  mkProfileData
    (mkFileHeader EasyProfilerSignature Version210 1234 0 5 5 0 0 2 0 1 0 0)
    (Descriptors two_calls_profile) (Threads two_calls_profile) [] 2 0.

(** Every bucket of a hotspot map has a total duration of the type
    [int64]. *)
Definition int64_durations (m : gmap string BlockInfo) : Prop :=
  map_Forall (fun _ info => - 2 ^ 63 <= BlockInfo_Duration info < 2 ^ 63) m.

(** * Properties *)

(** ** Little-endian integers *)

Lemma byte_to_Z_range b : 0 <= byte_to_Z b < 256.
Proof.
  unfold byte_to_Z. pose proof (Byte.to_N_bounded b). lia.
Qed.

Lemma byte_to_of_Z z : byte_to_Z (byte_of_Z z) = z mod 256.
Proof.
  unfold byte_of_Z, byte_to_Z.
  pose proof (Z.mod_pos_bound z 256 ltac:(lia)) as Hr.
  destruct (Byte.of_N (Z.to_N (z mod 256))) as [b|] eqn:E.
  - apply Byte.to_of_N in E. rewrite E. lia.
  - apply Byte.of_N_None_iff in E. lia.
Qed.

Lemma length_le_bytes n v : length (le_bytes n v) = n.
Proof. revert v. induction n as [|n IH]; intros v; simpl; [done|]. by rewrite IH. Qed.

Lemma le_uint_le_bytes n v :
  0 <= v < 256 ^ Z.of_nat n -> le_uint (le_bytes n v) = v.
Proof.
  revert v. induction n as [|n IH]; intros v Hv.
  - simpl in *. lia.
  - cbn [le_bytes le_uint]. rewrite byte_to_of_Z.
    rewrite IH.
    + pose proof (Z.div_mod v 256 ltac:(lia)). lia.
    + rewrite Nat2Z.inj_succ, Z.pow_succ_r in Hv by lia.
      split; [apply Z.div_pos; lia|].
      apply Z.div_lt_upper_bound; lia.
Qed.

Lemma le_uint_range bs : 0 <= le_uint bs < 256 ^ Z.of_nat (length bs).
Proof.
  induction bs as [|b bs IH]; [simpl; lia|].
  cbn [le_uint length]. rewrite Nat2Z.inj_succ, Z.pow_succ_r by lia.
  pose proof (byte_to_Z_range b). lia.
Qed.

(** ** The reader monad *)

Lemma bind_Ok {A B} (m : Reader A) (k : A -> Reader B) s a s' :
  m s = Ok (a, s') -> bind m k s = k a s'.
Proof. intros E. unfold bind. by rewrite E. Qed.

Lemma bind_Err {A B} (m : Reader A) (k : A -> Reader B) s e :
  m s = Err e -> bind m k s = Err e.
Proof. intros E. unfold bind. by rewrite E. Qed.

Lemma bind_Panic {A B} (m : Reader A) (k : A -> Reader B) s :
  m s = Panic -> bind m k s = Panic.
Proof. intros E. unfold bind. by rewrite E. Qed.

Lemma readFull_app bs rest :
  readFull (length bs) (bs ++ rest) = Ok (bs, rest).
Proof.
  unfold readFull. destruct (length bs) as [|n] eqn:En.
  - by apply nil_length_inv in En as ->.
  - destruct (bs ++ rest) as [|x s] eqn:Es.
    + apply (f_equal length) in Es. rewrite length_app in Es. simpl in Es. lia.
    + rewrite <- Es, <- En, take_app_length, drop_app_length.
      assert ((length (bs ++ rest) <? length bs)%nat = false) as ->; [|done].
      apply Nat.ltb_ge. rewrite length_app. lia.
Qed.

Lemma readUint_le_bytes w v rest :
  0 <= v < 256 ^ Z.of_nat w ->
  readUint w (le_bytes w v ++ rest) = Ok (v, rest).
Proof.
  intros Hv. unfold readUint.
  rewrite (bind_Ok _ _ _ (le_bytes w v) rest).
  - unfold ret. by rewrite le_uint_le_bytes.
  - rewrite <- (length_le_bytes w v) at 1. apply readFull_app.
Qed.

Lemma to_int64_to_uint64 v : - 2 ^ 63 <= v < 2 ^ 63 -> to_int64 (to_uint64 v) = v.
Proof.
  intros Hv. unfold to_int64, to_uint64.
  rewrite Zplus_mod_idemp_l.
  rewrite Z.mod_small; lia.
Qed.

Lemma readInt64_le_bytes v rest :
  - 2 ^ 63 <= v < 2 ^ 63 ->
  readInt64 (le_bytes 8 (to_uint64 v) ++ rest) = Ok (v, rest).
Proof.
  intros Hv. unfold readInt64.
  rewrite (bind_Ok _ _ _ (to_uint64 v) rest).
  - unfold ret. by rewrite to_int64_to_uint64.
  - apply readUint_le_bytes. unfold to_uint64.
    pose proof (Z.mod_pos_bound v (2 ^ 64) ltac:(lia)). simpl. lia.
Qed.

Lemma bind_readUint {B} w v rest (k : Z -> Reader B) :
  0 <= v < 256 ^ Z.of_nat w ->
  bind (readUint w) k (le_bytes w v ++ rest) = k v rest.
Proof. intros Hv. apply bind_Ok. by apply readUint_le_bytes. Qed.

Lemma bind_readInt64 {B} v rest (k : Z -> Reader B) :
  - 2 ^ 63 <= v < 2 ^ 63 ->
  bind readInt64 k (le_bytes 8 (to_uint64 v) ++ rest) = k v rest.
Proof. intros Hv. apply bind_Ok. by apply readInt64_le_bytes. Qed.

(** One field of a synthetic record is read back. *)
Ltac read_field :=
  unfold readUint8, readUint16, readUint32, readUint64;
  first [ rewrite bind_readUint by (unfold fits in *; simpl; lia)
        | rewrite bind_readInt64 by lia ].

(** ** C1: the four header layouts *)

(** C1. For each of the four header families (oldest, mid, newer, newest),
    a synthetic header that stores fixed field values in the layout of the
    family of its version is decoded by [readHeader] to the header with
    exactly those field values, and the cursor is left after the header. *)
Theorem readHeader_roundtrip (h : FileHeader) (rest : list byte) :
  header_fits (family_of_version (Version h)) h ->
  readHeader (header_bytes (family_of_version (Version h)) h ++ rest)
  = Ok (h, rest).
Proof.
  destruct h as [sig ver pid cpu bt et ms dms bc dc tc bkc pad].
  unfold header_fits, family_of_version, header_bytes; cbn [Signature Version PID
    CPUFrequency BeginTime EndTime MemorySize DescriptorsMemorySize BlocksCount
    DescriptorsCount ThreadsCount BookmarksCount Padding].
  intros H. unfold readHeader.
  rewrite <- !app_assoc.
  destruct (ver <? Version130) eqn:E130.
  - assert ((ver <? Version200) = true) as E200
      by (apply Z.ltb_lt; apply Z.ltb_lt in E130; unfold Version130, Version200 in *; lia).
    destruct H as (?&?&?&?&?&?&?&?&?&?&->&->&->).
    rewrite <- !app_assoc.
    do 2 read_field. rewrite E130. do 4 read_field. rewrite E200.
    do 4 read_field. done.
  - destruct (ver <? Version200) eqn:E200.
    + destruct H as (?&?&?&?&?&?&?&?&?&?&->&->&->).
      rewrite <- !app_assoc.
      do 2 read_field. rewrite E130. do 4 read_field. rewrite E200.
      do 4 read_field. done.
    + destruct (ver <? Version210) eqn:E210.
      * assert ((Version210 <=? ver) = false) as E210' by lia.
        destruct H as (?&?&?&?&?&?&?&?&?&?&->&->&->).
        rewrite <- !app_assoc.
        do 2 read_field. rewrite E130. do 4 read_field. rewrite E200.
        do 4 read_field. rewrite E210'. done.
      * assert ((Version210 <=? ver) = true) as E210' by lia.
        destruct H as (?&?&?&?&?&?&?&?&?&?&?&?&?).
        rewrite <- !app_assoc.
        do 2 read_field. rewrite E130. do 4 read_field. rewrite E200.
        do 4 read_field. rewrite E210'. do 3 read_field. done.
Qed.

Lemma readHeader_roundtrip_witness :
  let oldest := mkFileHeader EasyProfilerSignature Version100 1234 0 16 32
                  100 50 3 2 0 0 0 in
  let mid := mkFileHeader EasyProfilerSignature Version130 1234 0 16 32
               100 50 3 2 0 0 0 in
  let newer := mkFileHeader EasyProfilerSignature Version200 1234 0 16 32
                 100 50 3 2 0 0 0 in
  let newest := mkFileHeader EasyProfilerSignature Version210 1234 0 16 32
                  100 50 3 2 7 1 0 in
  readHeader (header_bytes Oldest oldest ++ []) = Ok (oldest, [])
  /\ readHeader (header_bytes Mid mid ++ []) = Ok (mid, [])
  /\ readHeader (header_bytes Newer newer ++ []) = Ok (newer, [])
  /\ readHeader (header_bytes Newest newest ++ []) = Ok (newest, []).
Proof.
  intros oldest mid newer newest. split; [|split; [|split]].
  - apply (readHeader_roundtrip oldest []). vm_compute; repeat split; easy.
  - apply (readHeader_roundtrip mid []). vm_compute; repeat split; easy.
  - apply (readHeader_roundtrip newer []). vm_compute; repeat split; easy.
  - apply (readHeader_roundtrip newest []). vm_compute; repeat split; easy.
Defined.

(** ** Descriptor records *)

Lemma to_int32_to_uint32 v : - 2 ^ 31 <= v < 2 ^ 31 -> to_int32 (to_uint32 v) = v.
Proof.
  intros Hv. unfold to_int32, to_uint32.
  rewrite Zplus_mod_idemp_l.
  rewrite Z.mod_small; lia.
Qed.

Lemma bind_readInt32 {B} v rest (k : Z -> Reader B) :
  - 2 ^ 31 <= v < 2 ^ 31 ->
  bind readInt32 k (le_bytes 4 (to_uint32 v) ++ rest) = k v rest.
Proof.
  intros Hv. apply bind_Ok. unfold readInt32.
  rewrite bind_readUint.
  - unfold ret. by rewrite to_int32_to_uint32.
  - unfold to_uint32. pose proof (Z.mod_pos_bound v (2 ^ 32) ltac:(lia)).
    simpl. lia.
Qed.

Lemma bind_readFull {B} bs rest n (k : list byte -> Reader B) :
  n = length bs ->
  bind (readFull n) k (bs ++ rest) = k bs rest.
Proof. intros ->. apply bind_Ok, readFull_app. Qed.

Lemma strip_terminator_nonempty (buf : list byte) :
  buf <> [] ->
  strip_terminator buf = Ok (string_of_bytes (take (length buf - 1) buf)).
Proof.
  intros Hne. unfold strip_terminator, slice_to.
  destruct buf as [|b buf]; [done|].
  change (length (b :: buf)) with (S (length buf)).
  assert ((Z.of_nat (S (length buf)) - 1 <? 0) = false) as ->
    by (apply Z.ltb_ge; lia).
  do 3 f_equal. lia.
Qed.

Lemma strip_terminator_empty : strip_terminator [] = Panic.
Proof. reflexivity. Qed.

Lemma strip_terminator_no_error (buf : list byte) e :
  strip_terminator buf <> Err e.
Proof.
  unfold strip_terminator, slice_to.
  by destruct (Z.of_nat (length buf) - 1 <? 0).
Qed.

(** [readDescriptor] on a synthetic record whose name is not empty: the
    bytes taken for the file path are counted modulo [2 ^ 16]. *)
Lemma readDescriptor_record size id line color type status name file rest :
  fits 16 size -> fits 32 id -> - 2 ^ 31 <= line < 2 ^ 31 -> fits 32 color ->
  fits 8 type -> fits 8 status ->
  name <> [] -> fits 16 (Z.of_nat (length name)) ->
  Z.of_nat (length file)
  = to_uint16 (size - to_uint16 (4 + 4 + 4 + 1 + 1 + 2 + Z.of_nat (length name))) ->
  readDescriptor (descriptor_bytes size id line color type status name file ++ rest)
  = Ok (mkBlockDescriptor id line color type status
          (string_of_bytes (take (length name - 1) name))
          (string_of_bytes (take (length file - 1) file)), rest).
Proof.
  intros Hsize Hid Hline Hcolor Htype Hstatus Hname Hlen Hfile.
  unfold descriptor_bytes, readDescriptor. rewrite <- !app_assoc.
  read_field. read_field. rewrite bind_readInt32 by done.
  do 4 read_field.
  rewrite bind_readFull by lia.
  rewrite strip_terminator_nonempty by done. cbn [lift bind].
  rewrite <- Hfile.
  destruct file as [|f file].
  - simpl. done.
  - assert ((0 <? Z.of_nat (length (f :: file))) = true) as ->
      by (change (length (f :: file)) with (S (length file));
          apply Z.ltb_lt; lia).
    rewrite bind_readFull by lia.
    rewrite strip_terminator_nonempty by done. done.
Qed.

Lemma only_short_reads_ret {A} (a : A) : only_short_reads (ret a).
Proof. by intros s. Qed.

Lemma only_short_reads_readFull n : only_short_reads (readFull n).
Proof.
  intros s. unfold readFull, short_read. destruct n as [|n]; [done|].
  destruct s as [|b s]; [simpl; by left|].
  destruct (length (b :: s) <? S n)%nat; [simpl; by right|done].
Qed.

Lemma only_short_reads_bind {A B} (m : Reader A) (k : A -> Reader B) :
  only_short_reads m -> (forall a, only_short_reads (k a)) ->
  only_short_reads (bind m k).
Proof.
  intros Hm Hk s. unfold bind. specialize (Hm s).
  destruct (m s) as [[a s']|e|]; [apply Hk|done|done].
Qed.

Lemma only_short_reads_readUint w : only_short_reads (readUint w).
Proof.
  apply only_short_reads_bind; [apply only_short_reads_readFull|].
  intros; apply only_short_reads_ret.
Qed.

Lemma only_short_reads_strip {B} buf (k : string -> Reader B) :
  (forall a, only_short_reads (k a)) ->
  only_short_reads (bind (lift (strip_terminator buf)) k).
Proof.
  intros Hk. apply only_short_reads_bind; [|done].
  intros s. unfold lift.
  pose proof (strip_terminator_no_error buf) as Hne.
  destruct (strip_terminator buf); [done| by destruct (Hne e) |done].
Qed.

Create HintDb short_reads.
#[local] Hint Resolve only_short_reads_ret only_short_reads_readFull
  only_short_reads_readUint : short_reads.

Lemma only_short_reads_readDescriptor : only_short_reads readDescriptor.
Proof.
  unfold readDescriptor, readUint8, readUint16, readUint32, readInt32.
  repeat first
    [ apply only_short_reads_strip; intros ?
    | apply only_short_reads_bind; [auto with short_reads|]; intros ?
    | case_match
    | apply only_short_reads_ret ].
Qed.

(** C9. A descriptor record whose 16-bit name length is zero makes
    [readDescriptor] slice the empty name buffer with the bound [-1]: the
    outcome is a panic, for every value of the sixteen bytes before the
    name length and whatever follows it; it is neither a descriptor with
    an empty name nor an error. *)
Theorem readDescriptor_zero_name_length_panics (fixed rest : list byte) :
  length fixed = 16%nat ->
  readDescriptor (fixed ++ le_bytes 2 0 ++ rest) = Panic.
Proof.
  intros Hlen.
  do 16 (destruct fixed as [|? fixed]; [discriminate Hlen|]).
  destruct fixed; [|discriminate Hlen].
  reflexivity.
Qed.

Lemma readDescriptor_zero_name_length_panics_witness :
  readDescriptor (descriptor_bytes 42 1 123 0xFF0000FF 1 0 [] []) = Panic.
Proof.
  apply (readDescriptor_zero_name_length_panics
           (le_bytes 2 42 ++ le_bytes 4 1 ++ le_bytes 4 123 ++
            le_bytes 4 0xFF0000FF ++ le_bytes 1 1 ++ le_bytes 1 0) []).
  reflexivity.
Defined.

(** C2 (the code departs from it). [readDescriptor] has no format error:
    whatever the input, an error it returns is a short read. On a record
    whose declared size is smaller than its fixed part and its name, the
    remaining size wraps around modulo [2 ^ 16]: with size 0 and name
    length 0 the decoder panics, and with size 16 and a name of 2 bytes it
    takes the 65534 bytes that follow as the file path and succeeds. *)
Theorem readDescriptor_inconsistent_size_not_rejected :
  only_short_reads readDescriptor
  /\ readDescriptor (descriptor_bytes 0 1 0 0 1 0 [] []) = Panic
  /\ readDescriptor
       (descriptor_bytes 16 1 0 0 1 0 [x41; x00] (repeat x00 (Z.to_nat 65534)))
     = Ok (mkBlockDescriptor 1 0 0 1 0 "A"
             (string_of_bytes (take (Z.to_nat 65533) (repeat x00 (Z.to_nat 65534)))), []).
Proof.
  split; [apply only_short_reads_readDescriptor|]. split; [reflexivity|].
  transitivity
    (readDescriptor
       (descriptor_bytes 16 1 0 0 1 0 [x41; x00] (repeat x00 (Z.to_nat 65534))
        ++ [])).
  { apply (f_equal readDescriptor). symmetry. apply app_nil_r. }
  rewrite readDescriptor_record.
  - rewrite repeat_length. reflexivity.
  - unfold fits; lia.
  - unfold fits; lia.
  - lia.
  - unfold fits; lia.
  - unfold fits; lia.
  - unfold fits; lia.
  - done.
  - unfold fits; simpl; lia.
  - rewrite repeat_length. reflexivity.
Qed.

(** ** The thread list *)

Lemma readEndSignature_eof threadsRead expectedThreads threads :
  threadsRead <> expectedThreads ->
  readEndSignature threadsRead expectedThreads threads []
  = Err (ErrWrap "failed to read end signature" EOF).
Proof.
  intros Hne. unfold readEndSignature. simpl.
  by apply Z.eqb_neq in Hne as ->.
Qed.

Lemma readThreadID_eof version : readThreadID version [] = Err EOF.
Proof. unfold readThreadID. by destruct (version <? Version130). Qed.

(** [k] successful iterations of the loop, one per step of [threads_read]. *)
Lemma readThreadsLoop_threads_read options version expectedThreads
    k threads s threads' s' :
  threads_read options version k threads s threads' s' ->
  forall n threadsRead,
    readThreadsLoop options version expectedThreads (k + n) threadsRead threads s
    = readThreadsLoop options version expectedThreads n
        (threadsRead + Z.of_nat k) threads' s'.
Proof.
  induction 1 as [threads s|k threads s threadID s1 thread s2 threads' s'
                    Hid Hsig Hthread _ IH]; intros n threadsRead.
  - by rewrite Z.add_0_r.
  - cbn [Nat.add readThreadsLoop]. rewrite Hid.
    apply Z.eqb_neq in Hsig as ->. cbn [andb].
    unfold wrap. rewrite Hthread. rewrite IH. f_equal. lia.
Qed.

(** End of input where a thread identifier is expected, before the
    expected number of threads has been read. *)
Lemma readThreadsLoop_eof options version expectedThreads k threads input threads' :
  threads_read options version k threads input threads' [] ->
  (k < Z.to_nat expectedThreads)%nat ->
  readThreadsLoop options version expectedThreads (Z.to_nat expectedThreads)
    0 threads input
  = Err (ErrWrap "failed to read end signature" EOF).
Proof.
  intros Hread Hk.
  replace (Z.to_nat expectedThreads)
    with (k + S (Z.to_nat expectedThreads - k - 1))%nat at 1 by lia.
  rewrite (readThreadsLoop_threads_read _ _ _ _ _ _ _ _ Hread).
  cbn [readThreadsLoop]. rewrite readThreadID_eof.
  apply readEndSignature_eof. lia.
Qed.

(** The end sentinel where a thread identifier is expected. *)
Lemma readThreadsLoop_sentinel options version expectedThreads k threads input
    threads' rest threadID rest' :
  threads_read options version k threads input threads' rest ->
  (k < Z.to_nat expectedThreads)%nat ->
  expectedThreads = 0xFFFFFFFF ->
  readThreadID version rest = Ok (threadID, rest') ->
  to_uint32 threadID = EasyProfilerSignature ->
  readThreadsLoop options version expectedThreads (Z.to_nat expectedThreads)
    0 threads input
  = Ok (threads', rest').
Proof.
  intros Hread Hk Hexp Hid Hsig.
  replace (Z.to_nat expectedThreads)
    with (k + S (Z.to_nat expectedThreads - k - 1))%nat at 1 by lia.
  rewrite (readThreadsLoop_threads_read _ _ _ _ _ _ _ _ Hread).
  cbn [readThreadsLoop]. rewrite Hid, Hsig.
  apply Z.eqb_eq in Hexp as ->. by rewrite Z.eqb_refl.
Qed.

Lemma expectedThreads_old header :
  Version header < Version210 ->
  (if Version header <? Version210 then 0xFFFFFFFF else ThreadsCount header)
  = 0xFFFFFFFF.
Proof. intros H. by apply Z.ltb_lt in H as ->. Qed.

Lemma v100_thread_read rest :
  threads_read DefaultReadOptions Version100 1 ∅ (v100_thread ++ rest)
    {[ 7 := mkThreadData 7 EmptyString [] [mkBlock 0 10 1 EmptyString []] ]}
    rest.
Proof.
  eapply threads_read_step.
  - vm_compute. reflexivity.
  - vm_compute. discriminate.
  - vm_compute. reflexivity.
  - apply threads_read_done.
Qed.

(** The counted loop: after as many thread records as the header
    declares, end of input in place of the end signature is accepted. *)
Lemma readThreadsLoop_counted options version expectedThreads k threads input
    threads' :
  threads_read options version k threads input threads' [] ->
  expectedThreads = Z.of_nat k ->
  readThreadsLoop options version expectedThreads (Z.to_nat expectedThreads)
    0 threads input
  = Ok (threads', []).
Proof.
  intros Hread ->. rewrite Nat2Z.id.
  replace k with (k + 0)%nat at 2 by lia.
  rewrite (readThreadsLoop_threads_read _ _ _ _ _ _ _ _ Hread).
  cbn [readThreadsLoop]. unfold readEndSignature. simpl.
  by rewrite Z.eqb_refl.
Qed.

Lemma v210_thread_read :
  threads_read DefaultReadOptions Version210 1 ∅ v210_thread
    {[ 7 := mkThreadData 7 EmptyString [] [mkBlock 0 10 1 EmptyString []] ]}
    [].
Proof.
  eapply threads_read_step.
  - vm_compute. reflexivity.
  - vm_compute. discriminate.
  - vm_compute. reflexivity.
  - apply threads_read_done.
Qed.

(** C3. The code does not do what the claim says. For a capture of a
    family older than the newest, after any number of thread records, end
    of input where the next thread identifier is expected leaves the loop
    (the [break] of the source), and the decode of the thread list then
    fails with the error of the missing end signature: it never returns
    the threads read so far. The counted path of the newest family does
    accept end of input at the end of the thread list, once the declared
    number of threads has been read. *)
Theorem readThreads_eof_at_thread_id options header input k threads :
  threads_read options (Version header) k ∅ input threads [] ->
  (Version header < Version210 ->
   Z.of_nat k < 0xFFFFFFFF ->
   readThreads options header input
   = Err (ErrWrap "failed to read end signature" EOF))
  /\ (Version210 <= Version header ->
      ThreadsCount header = Z.of_nat k ->
      readThreads options header input = Ok (threads, [])).
Proof.
  intros Hread. unfold readThreads. split.
  - intros Hold Hk. rewrite expectedThreads_old by done.
    eapply readThreadsLoop_eof; [done | lia].
  - intros Hnew Hcount.
    assert ((Version header <? Version210) = false) as -> by lia.
    by eapply readThreadsLoop_counted.
Qed.

Lemma readThreads_eof_at_thread_id_witness :
  readThreads DefaultReadOptions v100_header (v100_thread ++ [])
  = Err (ErrWrap "failed to read end signature" EOF)
  /\ readThreads DefaultReadOptions v210_header v210_thread
     = Ok ({[ 7 := mkThreadData 7 EmptyString []
                     [mkBlock 0 10 1 EmptyString []] ]}, []).
Proof.
  split.
  - apply (proj1 (readThreads_eof_at_thread_id DefaultReadOptions v100_header
                    (v100_thread ++ []) 1 _ (v100_thread_read []))).
    + vm_compute. reflexivity.
    + vm_compute. reflexivity.
  - apply (proj2 (readThreads_eof_at_thread_id DefaultReadOptions v210_header
                    v210_thread 1 _ v210_thread_read)).
    + vm_compute. discriminate.
    + vm_compute. reflexivity.
Defined.

(** ** The read options *)

Lemma readThread_without_knobs options threadID :
  readThread options threadID = readThread (without_knobs options) threadID.
Proof. by destruct options. Qed.

Lemma readThreadsLoop_without_knobs options version expectedThreads n :
  forall threadsRead threads s,
    readThreadsLoop options version expectedThreads n threadsRead threads s
    = readThreadsLoop (without_knobs options) version expectedThreads n
        threadsRead threads s.
Proof.
  induction n as [|n IH]; intros threadsRead threads s; [done|].
  cbn [readThreadsLoop].
  destruct (readThreadID version s) as [[threadID s1]|e|]; [|done|done].
  destruct (_ && _); [done|].
  rewrite <- readThread_without_knobs.
  destruct (wrap _ _ s1) as [[thread s2]|e|]; [|done|done].
  apply IH.
Qed.

Lemma Parse_without_knobs options input :
  Parse options input = Parse (without_knobs options) input.
Proof.
  unfold Parse, bind.
  destruct (wrap _ readHeader input) as [[header s1]|e|]; [|done|done].
  destruct (negb _); [done|].
  destruct (Version header <? MinCompatibleVersion); [done|].
  destruct (wrap _ (readDescriptors _ _) s1) as [[descriptors s2]|e|];
    [|done|done].
  unfold wrap at 1 3, readThreads.
  rewrite <- readThreadsLoop_without_knobs.
  by destruct options.
Qed.

(** C4 (the code departs from it). The decoder never reads the three knobs:
    [Parse] gives the same outcome when [MaxBlockDepth], [SampleBlocks] and
    [MaxThreads] are reset to their defaults. On a capture with two threads
    of two top-level blocks each, decoded with [MaxThreads = 1] and
    [SampleBlocks = 2], both threads and all four blocks are in the model. *)
Theorem read_options_knobs_inert :
  (forall options input, Parse options input = Parse (without_knobs options) input)
  /\ exists data,
       Parse (mkReadOptions 1 2 false false 1) two_thread_capture = Ok data
       /\ size (Threads data) = 2%nat
       /\ map (fun kv => length (ThreadData_Blocks kv.2))
            (map_to_list (Threads data)) = [2%nat; 2%nat]
       /\ TotalBlocksCount data = 4.
Proof.
  split; [apply Parse_without_knobs|].
  eexists. split; [vm_compute; reflexivity|].
  repeat split; vm_compute; reflexivity.
Qed.

(** ** Event trees *)

Lemma Block_ind' (P : Block -> Prop) :
  (forall begin end_ id name children,
      Forall P children -> P (mkBlock begin end_ id name children)) ->
  forall b, P b.
Proof.
  intros IH. fix rec 1. intros [begin end_ id name children].
  apply IH. induction children as [|c cs IHcs]; constructor; [apply rec|done].
Qed.

Lemma countBlock_eq b :
  countBlock b = 1 + countBlocks (Block_Children b).
Proof.
  by destruct b as [begin end_ id name children].
Qed.

(** The equation of the source: [len(blocks)] plus the children. *)
Lemma countBlocks_eq blocks :
  countBlocks blocks
  = Z.of_nat (length blocks)
    + fold_right (fun b acc => countBlocks (Block_Children b) + acc) 0 blocks.
Proof.
  induction blocks as [|b bs IH]; [done|].
  change (countBlocks (b :: bs)) with (countBlock b + countBlocks bs).
  rewrite IH, countBlock_eq. cbn [length fold_right]. lia.
Qed.

Lemma analyzeBlock_eq p threadID threadName b :
  analyzeBlock p threadID threadName b
  = mkBlockInfo (resolveName (Block_Name b) (Descriptors p !! Block_ID b))
      (descriptorFile (Descriptors p !! Block_ID b))
      (descriptorLine (Descriptors p !! Block_ID b))
      (Block_Duration b) 1 threadID threadName 0
    :: analyzeBlocksRecursive p (Block_Children b) threadID threadName.
Proof.
  by destruct b as [begin end_ id name children].
Qed.

Lemma length_analyzeBlock p threadID threadName b :
  Z.of_nat (length (analyzeBlock p threadID threadName b)) = countBlock b.
Proof.
  induction b as [begin end_ id name children IH] using Block_ind'.
  rewrite analyzeBlock_eq, countBlock_eq. cbn [length Block_Children].
  rewrite Nat2Z.inj_succ. unfold analyzeBlocksRecursive, countBlocks.
  induction IH as [|c cs Hc _ IHcs]; [done|].
  cbn [flat_map fold_right]. rewrite length_app, Nat2Z.inj_add. lia.
Qed.

Lemma length_analyzeBlocksRecursive p blocks threadID threadName :
  Z.of_nat (length (analyzeBlocksRecursive p blocks threadID threadName))
  = countBlocks blocks.
Proof.
  unfold analyzeBlocksRecursive, countBlocks.
  induction blocks as [|b bs IH]; [done|].
  cbn [flat_map fold_right].
  rewrite length_app, Nat2Z.inj_add, length_analyzeBlock. lia.
Qed.

(** ** Sorting *)

Lemma Sorted_weaken {A} (R R' : relation A) l :
  (forall x y, R x y -> R' x y) -> Sorted R l -> Sorted R' l.
Proof.
  intros HR. induction 1 as [|x l _ IH Hhd]; constructor; [done|].
  destruct Hhd; constructor; auto.
Qed.

Lemma sort_slice_Permutation {A} (less : A -> A -> bool) l :
  sort_slice less l ≡ₚ l.
Proof. apply merge_sort_Permutation. Qed.

Lemma length_sort_slice {A} (less : A -> A -> bool) l :
  length (sort_slice less l) = length l.
Proof. by rewrite sort_slice_Permutation. Qed.

Lemma sort_slice_desc {A} (key : A -> Z) l :
  Sorted (desc_by key) (sort_slice (fun x y => key x >? key y) l).
Proof.
  unfold sort_slice.
  apply (Sorted_weaken (fun x y => (key y >? key x) = false)).
  - unfold desc_by. intros x y H. lia.
  - apply Sorted_merge_sort. intros x y. unfold Decision.
    destruct (Z.le_ge_cases (key x) (key y)); [right|left]; lia.
Qed.

#[local] Instance desc_by_transitive {A} (key : A -> Z) : Transitive (desc_by key).
Proof. unfold desc_by. intros x y z. lia. Qed.

Lemma Sorted_desc_take {A} (key : A -> Z) n l :
  Sorted (desc_by key) l -> Sorted (desc_by key) (take n l).
Proof.
  intros H. apply Sorted_StronglySorted in H; [|apply _].
  apply StronglySorted_Sorted.
  rewrite <- (take_drop n l) in H. by apply StronglySorted_app_1_l in H.
Qed.

Lemma clamp_limit_nonneg limit len :
  0 <= limit -> 0 <= len -> clamp_limit limit len = Z.min limit len.
Proof. intros. unfold clamp_limit. destruct (limit >? len) eqn:E; lia. Qed.

Lemma clamp_limit_negative limit len :
  limit < 0 -> 0 <= len -> clamp_limit limit len = limit.
Proof. intros. unfold clamp_limit. destruct (limit >? len) eqn:E; lia. Qed.

Lemma slice_to_nonneg {A} (l : list A) hi :
  0 <= hi -> slice_to l hi = Ok (take (Z.to_nat hi) l).
Proof. intros. unfold slice_to. by apply Z.ltb_ge in H as ->. Qed.

Lemma slice_to_negative {A} (l : list A) hi : hi < 0 -> slice_to l hi = Panic.
Proof. intros. unfold slice_to. by apply Z.ltb_lt in H as ->. Qed.

(** ** C5: the slowest events *)

Lemma length_allBlocks p (threads : list (Z * ThreadData)) :
  Z.of_nat (length (flat_map
     (fun kv => analyzeBlocksRecursive p (ThreadData_Blocks kv.2) kv.1
                  (ThreadData_ThreadName kv.2)) threads))
  = fold_right (fun kv acc => countBlocks (ThreadData_Blocks kv.2) + acc) 0 threads.
Proof.
  induction threads as [|kv kvs IH]; [done|].
  cbn [flat_map fold_right].
  rewrite length_app, Nat2Z.inj_add, length_analyzeBlocksRecursive. lia.
Qed.

(** C5, as stated for every limit, fails at a negative limit: the query
    does not return a list. *)
Lemma GetSlowestBlocks_negative_limit_counterexample :
  GetSlowestBlocks two_calls_profile (-1) = Panic.
Proof. reflexivity. Qed.

(** C5, amended. For every capture model and every limit [N >= 0], the
    slowest-events query returns a list that is sorted non-increasing by
    duration and whose length is the minimum of [N] and the number of
    events of all threads, nested children included. *)
Theorem GetSlowestBlocks_sorted_length (p : ProfileData) (limit : Z) :
  0 <= limit ->
  exists l,
    GetSlowestBlocks p limit = Ok l
    /\ Sorted (desc_by BlockInfo_Duration) l
    /\ Z.of_nat (length l) = Z.min limit (GetBlocksCount (Threads p)).
Proof.
  intros Hlimit. unfold GetSlowestBlocks.
  set (allBlocks := flat_map _ _).
  set (sorted := sort_slice _ allBlocks).
  assert (Z.of_nat (length sorted) = GetBlocksCount (Threads p)) as Hlen.
  { unfold sorted. rewrite length_sort_slice. apply length_allBlocks. }
  rewrite clamp_limit_nonneg by lia.
  rewrite slice_to_nonneg by lia.
  eexists. split; [done|]. split.
  - apply Sorted_desc_take, sort_slice_desc.
  - rewrite length_take. lia.
Qed.

Lemma GetSlowestBlocks_sorted_length_witness :
  exists l,
    GetSlowestBlocks two_calls_profile 1 = Ok l
    /\ Sorted (desc_by BlockInfo_Duration) l
    /\ Z.of_nat (length l)
       = Z.min 1 (GetBlocksCount (Threads two_calls_profile)).
Proof. apply (GetSlowestBlocks_sorted_length two_calls_profile 1). lia. Defined.

(** ** C10: a negative limit *)

(** C10. The two ranked queries clamp the limit from above only: for every
    capture model, with or without events, a negative limit reaches the
    slice expression as a negative bound, and the outcome is a panic
    instead of an empty list. *)
Theorem negative_limit_panics (p : ProfileData) (limit : Z) :
  limit < 0 ->
  GetSlowestBlocks p limit = Panic /\ GetHotspots p limit = Panic.
Proof.
  intros Hlimit. unfold GetSlowestBlocks, GetHotspots.
  rewrite !clamp_limit_negative by lia.
  by rewrite !slice_to_negative.
Qed.

Lemma negative_limit_panics_witness :
  GetSlowestBlocks two_calls_profile (-1) = Panic
  /\ GetHotspots two_calls_profile (-1) = Panic.
Proof. apply (negative_limit_panics two_calls_profile (-1)). lia. Defined.

(** ** C6: hotspots *)

Lemma aggregateBlock_eq p threadID threadName b blockMap :
  aggregateBlock p threadID threadName b blockMap
  = let descriptor := Descriptors p !! Block_ID b in
    let name := resolveName (Block_Name b) descriptor in
    let key := hotspotKey name descriptor in
    aggregateBlocks p (Block_Children b) threadID threadName
      match blockMap !! key with
      | Some existing =>
          <[key := mkBlockInfo (BlockInfo_Name existing) (BlockInfo_File existing)
                     (BlockInfo_Line existing)
                     (to_int64 (BlockInfo_Duration existing + Block_Duration b))
                     (BlockInfo_CallCount existing + 1)
                     (BlockInfo_ThreadID existing) (BlockInfo_ThreadName existing)
                     (BlockInfo_AvgDuration existing)]> blockMap
      | None =>
          <[key := mkBlockInfo name (descriptorFile descriptor)
                     (descriptorLine descriptor) (Block_Duration b) 1
                     threadID threadName 0]> blockMap
      end.
Proof. by destruct b as [begin end_ id name children]. Qed.

Lemma aggregateBlock_positive_counts p threadID threadName b :
  forall blockMap,
    positive_counts blockMap ->
    positive_counts (aggregateBlock p threadID threadName b blockMap).
Proof.
  induction b as [begin end_ id name children IH] using Block_ind'.
  intros blockMap Hm. rewrite aggregateBlock_eq. cbn zeta.
  set (key := hotspotKey _ _).
  match goal with |- positive_counts (aggregateBlocks _ _ _ _ ?m) =>
    set (m0 := m); assert (positive_counts m0) as Hm0 end.
  { subst m0. destruct (blockMap !! key) as [existing|] eqn:E.
    - apply map_Forall_insert_2; [|done].
      apply Hm in E. cbn [BlockInfo_CallCount]. lia.
    - apply map_Forall_insert_2; [|done]. cbn [BlockInfo_CallCount]. lia. }
  cbn [Block_Children]. unfold aggregateBlocks.
  clearbody m0. clear Hm. revert m0 Hm0.
  induction IH as [|c cs Hc _ IHcs]; intros m Hm; [done|].
  cbn [fold_left]. apply IHcs, Hc, Hm.
Qed.

Lemma aggregateBlocks_positive_counts p blocks threadID threadName :
  forall blockMap,
    positive_counts blockMap ->
    positive_counts (aggregateBlocks p blocks threadID threadName blockMap).
Proof.
  unfold aggregateBlocks.
  induction blocks as [|b bs IH]; intros m Hm; [done|].
  cbn [fold_left]. by apply IH, aggregateBlock_positive_counts.
Qed.

Lemma hotspotMap_positive_counts p : positive_counts (hotspotMap p).
Proof.
  unfold hotspotMap.
  assert (positive_counts ∅) as H by apply map_Forall_empty.
  revert H. generalize (∅ : gmap string BlockInfo).
  induction (map_to_list (Threads p)) as [|kv kvs IH]; intros m Hm; [done|].
  cbn [fold_left]. by apply IH, aggregateBlocks_positive_counts.
Qed.

Lemma withAverage_average_of_total info :
  1 <= BlockInfo_CallCount info -> average_of_total (withAverage info).
Proof.
  intros Hc. unfold withAverage.
  assert ((0 <? BlockInfo_CallCount info) = true) as -> by lia.
  unfold average_of_total; cbn [BlockInfo_CallCount BlockInfo_AvgDuration
                                 BlockInfo_Duration].
  pose proof (Z.quot_rem' (BlockInfo_Duration info) (BlockInfo_CallCount info)).
  pose proof (Z.rem_bound_abs (BlockInfo_Duration info)
                (BlockInfo_CallCount info) ltac:(lia)).
  lia.
Qed.

Lemma withAverage_Duration info :
  BlockInfo_Duration (withAverage info) = BlockInfo_Duration info.
Proof. unfold withAverage. by destruct (0 <? _). Qed.

(** C6, as stated, fails: two events of one bucket, of durations 1 and 2,
    give the total 3, the count 2 and the average 1, and [2 * 1 <> 3]. *)
Lemma GetHotspots_average_counterexample :
  exists info,
    GetHotspots two_calls_profile 10 = Ok [info]
    /\ BlockInfo_Duration info = 3
    /\ BlockInfo_CallCount info * BlockInfo_AvgDuration info
       <> BlockInfo_Duration info.
Proof.
  eexists. split; [vm_compute; reflexivity|]. by vm_compute.
Qed.

(** C6, amended. For every capture model and every limit [N >= 0], the
    hotspots query returns buckets whose total durations are sorted
    non-increasing, and in every returned bucket the average is the
    truncated quotient of the total by the count: count times average is
    the total minus the remainder of that division, whose magnitude is
    below the count. *)
Theorem GetHotspots_sorted_average (p : ProfileData) (limit : Z) :
  0 <= limit ->
  exists l,
    GetHotspots p limit = Ok l
    /\ Sorted (desc_by BlockInfo_Duration) l
    /\ Forall average_of_total l.
Proof.
  intros Hlimit. unfold GetHotspots.
  set (hotspots := map _ (map_to_list (hotspotMap p))).
  set (sorted := sort_slice _ hotspots).
  rewrite clamp_limit_nonneg by lia.
  rewrite slice_to_nonneg by lia.
  eexists. split; [done|]. split.
  - apply Sorted_desc_take, sort_slice_desc.
  - apply Forall_take. unfold sorted. rewrite sort_slice_Permutation.
    unfold hotspots. apply Forall_fmap.
    pose proof (hotspotMap_positive_counts p) as H.
    apply map_Forall_to_list in H.
    eapply Forall_impl; [exact H|].
    intros [key info] Hinfo. by apply withAverage_average_of_total.
Qed.

Lemma GetHotspots_sorted_average_witness :
  exists l,
    GetHotspots two_calls_profile 10 = Ok l
    /\ Sorted (desc_by BlockInfo_Duration) l
    /\ Forall average_of_total l.
Proof. apply (GetHotspots_sorted_average two_calls_profile 10). lia. Defined.

(** ** C8: the duration of a block *)

(** C8, as stated, fails: the decoder accepts a block whose end is before
    its begin, and the duration of that block is negative. *)
Lemma Block_Duration_negative_counterexample :
  readBlock (block_bytes 1 0 0 []) = Ok (mkBlock 1 0 0 EmptyString [], [])
  /\ Block_Duration (mkBlock 1 0 0 EmptyString []) = -1.
Proof. split; vm_compute; reflexivity. Qed.

(** C8, amended. For every timed event whose end is not before its begin
    and less than [2 ^ 63] nanoseconds after it, the duration is end minus
    begin, a non-negative value. *)
Theorem Block_Duration_nonneg (b : Block) :
  Block_Begin b <= Block_End b ->
  Block_End b - Block_Begin b < 2 ^ 63 ->
  Block_Duration b = Block_End b - Block_Begin b /\ 0 <= Block_Duration b.
Proof.
  intros Hle Hlt. unfold Block_Duration.
  rewrite to_int64_to_uint64 by lia. lia.
Qed.

Lemma Block_Duration_nonneg_witness :
  Block_Duration (mkBlock 4096 8192 1 "Test" []) = 8192 - 4096
  /\ 0 <= Block_Duration (mkBlock 4096 8192 1 "Test" []).
Proof.
  apply (Block_Duration_nonneg (mkBlock 4096 8192 1 "Test" []));
    vm_compute; congruence.
Defined.

(** ** binary64 arithmetic *)

Lemma digits2_pos_bounds p :
  2 ^ (Zpos (digits2_pos p) - 1) <= Zpos p < 2 ^ Zpos (digits2_pos p).
Proof.
  induction p as [p IH|p IH|]; cbn [digits2_pos]; [| |simpl; lia].
  - rewrite Pos2Z.inj_succ.
    replace (Z.succ (Zpos (digits2_pos p)) - 1) with (Z.succ (Zpos (digits2_pos p) - 1)) by lia.
    rewrite !Z.pow_succ_r by lia. lia.
  - rewrite Pos2Z.inj_succ.
    replace (Z.succ (Zpos (digits2_pos p)) - 1) with (Z.succ (Zpos (digits2_pos p) - 1)) by lia.
    rewrite !Z.pow_succ_r by lia. lia.
Qed.

Lemma digits2_pos_unique p k :
  2 ^ (k - 1) <= Zpos p < 2 ^ k -> Zpos (digits2_pos p) = k.
Proof.
  intros [Hlo Hhi]. pose proof (digits2_pos_bounds p) as [Hlo' Hhi'].
  assert (0 < k).
  { destruct (Z.le_gt_cases k 0) as [Hk|]; [|done].
    destruct (Z.eq_dec k 0) as [->|]; [simpl in Hhi; lia|].
    rewrite Z.pow_neg_r in Hhi by lia. lia. }
  assert (k - 1 < Zpos (digits2_pos p)).
  { apply (Z.pow_lt_mono_r_iff 2); lia. }
  assert (Zpos (digits2_pos p) - 1 < k).
  { apply (Z.pow_lt_mono_r_iff 2); lia. }
  lia.
Qed.

Lemma digits2_pos_mono p q :
  Zpos p <= Zpos q -> Zpos (digits2_pos p) <= Zpos (digits2_pos q).
Proof.
  intros Hle. pose proof (digits2_pos_bounds p). pose proof (digits2_pos_bounds q).
  assert (Zpos (digits2_pos p) - 1 < Zpos (digits2_pos q)); [|lia].
  apply (Z.pow_lt_mono_r_iff 2); lia.
Qed.

Lemma shr_m_shr_1 mrs :
  0 <= shr_m mrs -> shr_m (shr_1 mrs) = shr_m mrs / 2.
Proof.
  destruct mrs as [m r s]. cbn [shr_m]. intros Hm.
  destruct m as [|[p|p|]|p]; cbn [shr_1 shr_m]; [done| | |done|lia].
  - rewrite Pos2Z.inj_xI. apply (Z.div_unique _ _ _ 1); lia.
  - rewrite Pos2Z.inj_xO. apply (Z.div_unique _ _ _ 0); lia.
Qed.

Lemma shr_m_iter_shr_1 k :
  forall mrs,
    0 <= shr_m mrs ->
    shr_m (SpecFloat.iter_pos shr_1 k mrs) = shr_m mrs / 2 ^ Zpos k.
Proof.
  induction k as [k IH|k IH|]; intros mrs Hm; cbn [SpecFloat.iter_pos].
  - assert (0 <= shr_m (shr_1 mrs))
      by (rewrite shr_m_shr_1 by done; apply Z.div_pos; lia).
    assert (0 <= shr_m (SpecFloat.iter_pos shr_1 k (shr_1 mrs)))
      by (rewrite IH by done; apply Z.div_pos; lia).
    rewrite !IH, shr_m_shr_1 by done.
    replace (2 ^ Zpos k~1) with (2 * (2 ^ Zpos k * 2 ^ Zpos k))
      by (rewrite Pos2Z.inj_xI, Z.pow_add_r, Z.pow_twice_r by lia; lia).
    by rewrite !Z.div_div by lia.
  - assert (0 <= shr_m (SpecFloat.iter_pos shr_1 k mrs))
      by (rewrite IH by done; apply Z.div_pos; lia).
    rewrite !IH by done.
    replace (2 ^ Zpos k~0) with (2 ^ Zpos k * 2 ^ Zpos k)
      by (rewrite (Pos2Z.inj_xO k), Z.pow_twice_r; lia).
    by rewrite !Z.div_div by lia.
  - rewrite shr_m_shr_1 by done. done.
Qed.

(** The mantissa and the exponent after [shr] by [n >= 0] places. *)
Lemma shr_spec mrs e n :
  0 <= shr_m mrs -> 0 <= n ->
  shr_m (shr mrs e n).1 = shr_m mrs / 2 ^ n /\ (shr mrs e n).2 = e + n.
Proof.
  intros Hm Hn. unfold shr. destruct n as [|k|k]; [| |lia].
  - cbn [fst snd]. rewrite Z.div_1_r. lia.
  - cbn [fst snd]. by rewrite shr_m_iter_shr_1.
Qed.

Lemma shr_m_shr_record_of_loc m l : shr_m (shr_record_of_loc m l) = m.
Proof. by destruct l as [|[]]. Qed.

Lemma round_nearest_even_bounds m l :
  m <= round_nearest_even m l <= m + 1.
Proof.
  unfold round_nearest_even. destruct l as [|[]]; try lia.
  destruct (Z.even m); lia.
Qed.

Lemma fexp_normal e : -1074 <= e - 53 -> fexp 53 1024 e = e - 53.
Proof. intros H. unfold fexp, emin. lia. Qed.

(** Rounding a mantissa of at least 53 digits to binary64, away from the
    subnormal and the overflow ranges: the exponent is the one that leaves
    53 digits, or one more when the rounding carries to [2 ^ 53]. *)
Lemma binary_round_aux_normal s m e l :
  53 <= Zpos (digits2_pos m) ->
  -1074 <= Zpos (digits2_pos m) + e - 53 ->
  Zpos (digits2_pos m) + e - 52 <= 971 ->
  exists m3 e3,
    binary_round_aux 53 1024 s (Zpos m) e l = S754_finite s m3 e3
    /\ ((e3 = e + Zpos (digits2_pos m) - 53
         /\ Zpos m / 2 ^ (Zpos (digits2_pos m) - 53) <= Zpos m3
            <= Zpos m / 2 ^ (Zpos (digits2_pos m) - 53) + 1)
        \/ (Zpos m3 = 2 ^ 52 /\ e3 = e + Zpos (digits2_pos m) - 52))
    /\ 2 ^ 52 <= Zpos m3 < 2 ^ 53.
Proof.
  set (d := Zpos (digits2_pos m)). intros Hd Hlo Hhi.
  pose proof (digits2_pos_bounds m) as Hm. fold d in Hm.
  unfold binary_round_aux, shr_fexp.
  change (Zdigits2 (Zpos m)) with d.
  rewrite fexp_normal by lia.
  replace (d + e - 53 - e) with (d - 53) by lia.
  destruct (shr_spec (shr_record_of_loc (Zpos m) l) e (d - 53)) as [Hm1 He1];
    [rewrite shr_m_shr_record_of_loc; lia | lia |].
  destruct (shr (shr_record_of_loc (Zpos m) l) e (d - 53)) as [mrs1 e1].
  cbn [fst snd] in Hm1, He1. rewrite shr_m_shr_record_of_loc in Hm1.
  assert (2 ^ 52 <= shr_m mrs1 < 2 ^ 53) as Hm1b.
  { rewrite Hm1.
    assert (2 ^ (d - 1) = 2 ^ 52 * 2 ^ (d - 53)) as E1
      by (rewrite <- Z.pow_add_r by lia; f_equal; lia).
    assert (2 ^ d = 2 ^ 53 * 2 ^ (d - 53)) as E2
      by (rewrite <- Z.pow_add_r by lia; f_equal; lia).
    assert (0 < 2 ^ (d - 53)) by (apply Z.pow_pos_nonneg; lia).
    split.
    - apply Z.div_le_lower_bound; lia.
    - apply Z.div_lt_upper_bound; lia. }
  pose proof (round_nearest_even_bounds (shr_m mrs1) (loc_of_shr_record mrs1))
    as Hm2.
  destruct (round_nearest_even (shr_m mrs1) (loc_of_shr_record mrs1))
    as [|m2|m2] eqn:Em2; [lia| |lia].
  destruct (Z.eq_dec (Zpos m2) (2 ^ 53)) as [Hcarry|Hcarry].
  - assert (m2 = 9007199254740992%positive) as -> by lia.
    change (Zdigits2 (Zpos 9007199254740992)) with 54.
    rewrite fexp_normal by lia.
    replace (54 + e1 - 53 - e1) with 1 by lia.
    change (shr (shr_record_of_loc (Zpos 9007199254740992) loc_Exact) e1 1)
      with (Build_shr_record (Zpos 4503599627370496) false false, e1 + 1).
    cbn [shr_m].
    assert ((e1 + 1 <=? 1024 - 53) = true) as -> by lia.
    eexists _, _. split; [done|]. split; [right; split; [done|lia] | lia].
  - assert (Zpos (digits2_pos m2) = 53) as Hd2
      by (apply digits2_pos_unique; lia).
    cbn [Zdigits2]. rewrite Hd2.
    rewrite fexp_normal by lia.
    replace (53 + e1 - 53 - e1) with 0 by lia.
    cbn [shr_record_of_loc shr shr_m].
    assert ((e1 <=? 1024 - 53) = true) as -> by lia.
    eexists _, _. split; [done|]. split; [left; fold d; lia | lia].
Qed.

Lemma Pos_iter_xO p k : Zpos (Pos.iter xO p k) = Zpos p * 2 ^ Zpos k.
Proof.
  change (Pos.iter xO p k) with (shift_pos k p).
  rewrite shift_pos_correct, Z.pow_pos_fold. lia.
Qed.

(** [float64] of a nonzero integer of at most 64 bits: a normal number
    whose exponent is given by the number of binary digits. *)
Lemma binary_round_int s p :
  Zpos p < 2 ^ 64 ->
  exists m e,
    binary_round 53 1024 s p 0 = S754_finite s m e
    /\ (e = Zpos (digits2_pos p) - 53
        \/ (Zpos m = 2 ^ 52 /\ e = Zpos (digits2_pos p) - 52))
    /\ 2 ^ 52 <= Zpos m < 2 ^ 53.
Proof.
  intros Hp. set (d := Zpos (digits2_pos p)).
  pose proof (digits2_pos_bounds p) as Hd. fold d in Hd.
  assert (0 < d) by (unfold d; lia).
  assert (d <= 64).
  { assert (d - 1 < 64); [|lia]. apply (Z.pow_lt_mono_r_iff 2); lia. }
  unfold binary_round. fold d.
  rewrite fexp_normal by lia. unfold shl_align.
  destruct (d + 0 - 53 - 0) as [|k|k] eqn:Ek.
  - destruct (binary_round_aux_normal s p 0 loc_Exact) as (m&e&->&He&Hm);
      fold d; [lia..|].
    exists m, e. split; [done|]. split; [|done]. lia.
  - destruct (binary_round_aux_normal s p 0 loc_Exact) as (m&e&->&He&Hm);
      fold d; [lia..|].
    exists m, e. split; [done|]. split; [|done]. lia.
  - assert (Zpos (digits2_pos (Pos.iter xO p k)) = 53) as Hd'.
    { apply digits2_pos_unique. rewrite Pos_iter_xO.
      assert (Zpos k = 53 - d) as -> by lia.
      assert (2 ^ 52 = 2 ^ (d - 1) * 2 ^ (53 - d)) as E1
        by (rewrite <- Z.pow_add_r by lia; f_equal; lia).
      assert (2 ^ 53 = 2 ^ d * 2 ^ (53 - d)) as E2
        by (rewrite <- Z.pow_add_r by lia; f_equal; lia).
      assert (0 < 2 ^ (53 - d)) by (apply Z.pow_pos_nonneg; lia).
      change (53 - 1) with 52. rewrite E1, E2. nia. }
    destruct (binary_round_aux_normal s (Pos.iter xO p k) (d + 0 - 53) loc_Exact)
      as (m&e&->&He&Hm); rewrite ?Hd'; [lia..|].
    exists m, e. split; [done|]. split; [|done]. rewrite Hd' in He. lia.
Qed.

Lemma float64_of_int_nonzero z :
  z <> 0 -> Z.abs z < 2 ^ 64 ->
  exists m e,
    float64_of_int z = S754_finite (z <? 0) m e
    /\ (e = Zdigits2 z - 53 \/ (Zpos m = 2 ^ 52 /\ e = Zdigits2 z - 52))
    /\ 2 ^ 52 <= Zpos m < 2 ^ 53.
Proof.
  intros Hz Habs. unfold float64_of_int, binary_normalize.
  destruct z as [|p|p]; [done| |]; cbn [Zdigits2]; apply binary_round_int; lia.
Qed.

Lemma Z_div_eucl_div_mod a b : Z.div_eucl a b = (a / b, a mod b).
Proof. unfold Z.div, Z.modulo. by destruct (Z.div_eucl a b). Qed.

(** The quotient of two normal mantissas before rounding. *)
Lemma SFdiv_core_binary_normal mA eA mB eB :
  2 ^ 52 <= Zpos mA < 2 ^ 53 -> 2 ^ 52 <= Zpos mB < 2 ^ 53 ->
  -1000 <= eA - eB ->
  SFdiv_core_binary 53 1024 (Zpos mA) eA (Zpos mB) eB
  = (Zpos mA * 2 ^ 53 / Zpos mB, eA - eB - 53,
     new_location (Zpos mB) ((Zpos mA * 2 ^ 53) mod Zpos mB)).
Proof.
  intros HA HB He. unfold SFdiv_core_binary. cbn [Zdigits2].
  rewrite (digits2_pos_unique mA 53), (digits2_pos_unique mB 53) by lia.
  rewrite fexp_normal by lia.
  replace (Z.min (53 + eA - (53 + eB) - 53) (eA - eB)) with (eA - eB - 53) by lia.
  replace (eA - eB - (eA - eB - 53)) with 53 by lia.
  rewrite Z.shiftl_mul_pow2 by lia.
  by rewrite Z_div_eucl_div_mod.
Qed.

(** The quotient of two normal binary64 numbers does not exceed 2 when
    it is negative, or when the exponent of the dividend is at most that
    of the divisor, or one more with the least mantissa. *)
Lemma SFdiv_normal_le_two sA sB mA eA mB eB :
  2 ^ 52 <= Zpos mA < 2 ^ 53 -> 2 ^ 52 <= Zpos mB < 2 ^ 53 ->
  -52 <= eA <= 12 -> -52 <= eB <= 12 ->
  xorb sA sB = true \/ eA <= eB \/ (Zpos mA = 2 ^ 52 /\ eA = eB + 1) ->
  float64_gt (float64_div (S754_finite sA mA eA) (S754_finite sB mB eB))
    (float64_of_int 2) = false.
Proof.
  intros HA HB HeA HeB Hcase.
  unfold float64_gt, float64_div, SFdiv.
  rewrite SFdiv_core_binary_normal by lia.
  change (float64_of_int 2) with (S754_finite false 4503599627370496 (-51)).
  set (q := Zpos mA * 2 ^ 53 / Zpos mB).
  set (loc := new_location _ _).
  assert (2 ^ 52 <= q < 2 ^ 54) as Hq.
  { unfold q. split.
    - apply Z.div_le_lower_bound; lia.
    - apply Z.div_lt_upper_bound; lia. }
  destruct (Z.eq_dec q (2 ^ 53)) as [Hq53|Hq53].
  - (* the quotient is exactly [2 ^ 53] *)
    destruct (xorb sA sB) eqn:Es.
    + destruct (binary_round_aux_normal true 9007199254740992 (eA - eB - 53) loc)
        as (m3&e3&E&_&_); [simpl; lia..|].
      rewrite Hq53. change (2 ^ 53) with (Zpos 9007199254740992).
      by rewrite E.
    + destruct Hcase as [?|[Hle|[HmA Heq]]]; [done| |].
      * destruct (binary_round_aux_normal false 9007199254740992 (eA - eB - 53) loc)
          as (m3&e3&E&He3&Hm3); [simpl; lia..|].
        rewrite Hq53. change (2 ^ 53) with (Zpos 9007199254740992).
        rewrite E. unfold SFltb, SFcompare.
        change (Zpos (digits2_pos 9007199254740992)) with 54 in He3.
        destruct He3 as [[He3 _]|[Hm3' He3]].
        -- assert ((-51 ?= e3) = Gt) as -> by (apply Z.compare_gt_iff; lia).
           done.
        -- assert (m3 = 4503599627370496%positive) as -> by lia.
           destruct (Z.compare_spec (-51) e3) as [Hc|Hc|Hc]; [done|lia|done].
      * assert (Zpos mB = 2 ^ 52) as HmB.
        { assert (q * Zpos mB <= Zpos mA * 2 ^ 53); [|lia].
          unfold q. rewrite Z.mul_comm. apply Z.mul_div_le. lia. }
        subst q loc.
        assert (mA = 4503599627370496%positive) as -> by lia.
        assert (mB = 4503599627370496%positive) as -> by lia.
        replace (eA - eB - 53) with (-52) by lia.
        vm_compute. reflexivity.
  - (* the quotient is not [2 ^ 53] *)
    destruct q as [|pq|pq] eqn:Eq; [lia| |lia].
    assert (53 <= Zpos (digits2_pos pq) <= 54) as Hdq.
    { pose proof (digits2_pos_bounds pq) as Hb.
      assert (52 < Zpos (digits2_pos pq))
        by (apply (Z.pow_lt_mono_r_iff 2); lia).
      assert (Zpos (digits2_pos pq) - 1 < 54)
        by (apply (Z.pow_lt_mono_r_iff 2); lia).
      lia. }
    destruct (binary_round_aux_normal (xorb sA sB) pq (eA - eB - 53) loc)
      as (m3&e3&E&He3&Hm3); [lia..|].
    rewrite E. unfold SFltb, SFcompare.
    destruct (xorb sA sB) eqn:Es; [done|].
    destruct Hcase as [?|Hcase]; [done|].
    assert (e3 < -51 \/ (e3 = -51 /\ Zpos m3 = 2 ^ 52)) as [Hlt|[-> Hm3']].
    { destruct Hcase as [Hle|[HmA Heq]].
      - lia.
      - assert (Zpos pq < 2 ^ 53).
        { assert (Zpos pq <= 2 ^ 53); [|lia]. rewrite <- Eq. unfold q.
          rewrite HmA. apply Z.div_le_upper_bound; lia. }
        assert (Zpos (digits2_pos pq) = 53)
          by (apply digits2_pos_unique; lia).
        lia. }
    + assert ((-51 ?= e3) = Gt) as -> by (apply Z.compare_gt_iff; lia).
      done.
    + assert (m3 = 4503599627370496%positive) as -> by lia. done.
Qed.

Lemma Zdigits2_bounds z :
  z <> 0 -> Z.abs z < 2 ^ 64 -> 1 <= Zdigits2 z <= 64.
Proof.
  intros Hz Habs.
  assert (forall p, Zpos p < 2 ^ 64 -> 1 <= Zpos (digits2_pos p) <= 64) as H.
  { intros p Hp. pose proof (digits2_pos_bounds p).
    assert (Zpos (digits2_pos p) - 1 < 64); [|lia].
    apply (Z.pow_lt_mono_r_iff 2); lia. }
  destruct z as [|p|p]; [done| |]; cbn [Zdigits2]; apply H; lia.
Qed.

(** A negative minimum never gives a ratio above 2: the quotient is
    negative or zero when the maximum is not negative, and at most 1 when
    both are negative. *)
Lemma ratio_negative_min a b :
  - 2 ^ 63 <= b -> a < 2 ^ 63 -> b < 0 -> b <= a ->
  float64_gt (float64_div (float64_of_int a) (float64_of_int b))
    (float64_of_int 2) = false.
Proof.
  intros Hb Ha Hneg Hle.
  destruct (float64_of_int_nonzero b) as (mB&eB&EB&HeB&HmB); [lia..|].
  pose proof (Zdigits2_bounds b ltac:(lia) ltac:(lia)) as HdB.
  rewrite EB.
  destruct (Z.eq_dec a 0) as [->|Hnz].
  { by destruct (b <? 0). }
  destruct (float64_of_int_nonzero a) as (mA&eA&EA&HeA&HmA); [lia..|].
  pose proof (Zdigits2_bounds a ltac:(lia) ltac:(lia)) as HdA.
  rewrite EA.
  apply SFdiv_normal_le_two; [lia..|].
  assert ((b <? 0) = true) as -> by lia.
  destruct (Z.ltb_spec a 0) as [Ha0|Ha0]; [right|by left].
  assert (Zdigits2 a <= Zdigits2 b).
  { destruct a as [|pa|pa], b as [|pb|pb]; try lia.
    cbn [Zdigits2]. apply digits2_pos_mono. lia. }
  lia.
Qed.

(** ** Thread statistics *)

Lemma to_int64_range z : - 2 ^ 63 <= to_int64 z < 2 ^ 63.
Proof.
  unfold to_int64. pose proof (Z.mod_pos_bound (z + 2 ^ 63) (2 ^ 64)). lia.
Qed.

Lemma calculateThreadDuration_range blocks :
  - 2 ^ 63 <= calculateThreadDuration blocks < 2 ^ 63.
Proof.
  unfold calculateThreadDuration.
  assert (- 2 ^ 63 <= 0 < 2 ^ 63) as H by lia. revert H. generalize 0.
  induction blocks as [|b bs IH]; intros total Ht; [done|].
  cbn [fold_left]. apply IH, to_int64_range.
Qed.

Lemma max_of_spec x t :
  In (max_of (x :: t)) (x :: t) /\ Forall (fun y => y <= max_of (x :: t)) (x :: t).
Proof.
  cbn [max_of]. induction t as [|y t [IHin IHall]]; cbn [fold_right].
  - split; [by left|]. constructor; [lia|constructor].
  - split.
    + destruct (Z.max_spec y (fold_right Z.max x t)) as [[_ ->]|[_ ->]].
      * destruct IHin as [<-|Hin]; [by left|by right; right].
      * by right; left.
    + inversion IHall as [|? ? Hx Ht]; subst.
      constructor; [lia|]. constructor; [lia|].
      eapply Forall_impl; [exact Ht|]. cbn. intros; lia.
Qed.

Lemma min_of_spec x t :
  In (min_of (x :: t)) (x :: t) /\ Forall (fun y => min_of (x :: t) <= y) (x :: t).
Proof.
  cbn [min_of]. induction t as [|y t [IHin IHall]]; cbn [fold_right].
  - split; [by left|]. constructor; [lia|constructor].
  - split.
    + destruct (Z.min_spec y (fold_right Z.min x t)) as [[_ ->]|[_ ->]].
      * by right; left.
      * destruct IHin as [<-|Hin]; [by left|by right; right].
    + inversion IHall as [|? ? Hx Ht]; subst.
      constructor; [lia|]. constructor; [lia|].
      eapply Forall_impl; [exact Ht|]. cbn. intros; lia.
Qed.

Lemma last_cons_default {A} (x : A) t d d' :
  List.last (x :: t) d = List.last (x :: t) d'.
Proof.
  revert x. induction t as [|y t IH]; intros x; [done|].
  change (List.last (x :: y :: t) d) with (List.last (y :: t) d).
  change (List.last (x :: y :: t) d') with (List.last (y :: t) d').
  apply IH.
Qed.

(** In a list sorted non-increasing, the head is the maximum and the last
    element the minimum of every permutation of the list. *)
Lemma extremes_of_sorted (totals : list Z) x t :
  totals ≡ₚ x :: t ->
  StronglySorted (fun a b => b <= a) (x :: t) ->
  max_of totals = x /\ min_of totals = List.last (x :: t) x.
Proof.
  intros Hperm Hsorted.
  assert (In (List.last (x :: t) x) (x :: t)
          /\ Forall (fun y => List.last (x :: t) x <= y) (x :: t)) as [Hlin Hlall].
  { clear Hperm. revert x Hsorted. induction t as [|y t IH]; intros x Hsorted.
    - split; [by left|]. constructor; [cbn; lia|constructor].
    - apply StronglySorted_inv in Hsorted as [Hs Hx].
      destruct (IH y Hs) as [Hin Hall].
      change (List.last (x :: y :: t) x) with (List.last (y :: t) x).
      rewrite (last_cons_default y t x y).
      split; [by right|]. constructor; [|done].
      rewrite Forall_forall in Hx. apply Hx. by apply list_elem_of_In. }
  destruct totals as [|x0 t0].
  { by apply Permutation_nil_cons in Hperm. }
  destruct (max_of_spec x0 t0) as [Hmin Hmall].
  destruct (min_of_spec x0 t0) as [Hnin Hnall].
  apply StronglySorted_inv in Hsorted as [_ Hx].
  rewrite Forall_forall in Hmall, Hnall, Hx, Hlall.
  assert (forall y, In y (x0 :: t0) <-> In y (x :: t)) as Hiff.
  { intros y. rewrite <- !list_elem_of_In. by rewrite Hperm. }
  split.
  - assert (x <= max_of (x0 :: t0))
      by (apply Hmall, list_elem_of_In, Hiff; by left).
    assert (max_of (x0 :: t0) <= x); [|lia].
    apply Hiff in Hmin as [->|Hin]; [lia|].
    apply Hx. by apply list_elem_of_In.
  - assert (min_of (x0 :: t0) <= List.last (x :: t) x)
      by (apply Hnall, list_elem_of_In, Hiff, Hlin).
    assert (List.last (x :: t) x <= min_of (x0 :: t0)); [|lia].
    apply Hlall, list_elem_of_In, Hiff, Hnin.
Qed.

Lemma length_GetThreadStatistics p :
  length (GetThreadStatistics p) = size (Threads p).
Proof.
  unfold GetThreadStatistics.
  by rewrite length_sort_slice, List.length_map, length_map_to_list.
Qed.

Lemma last_map {A B} (f : A -> B) l d :
  List.last (map f l) (f d) = f (List.last l d).
Proof.
  induction l as [|x l IH]; [done|].
  destruct l as [|y l]; [done|]. exact IH.
Qed.

Lemma GetThreadStatistics_extremes p first rest :
  GetThreadStatistics p = first :: rest ->
  ThreadStats_TotalDuration first = max_of (thread_totals p)
  /\ ThreadStats_TotalDuration (List.last (first :: rest) first)
     = min_of (thread_totals p).
Proof.
  intros Hstats.
  destruct (extremes_of_sorted (thread_totals p)
              (ThreadStats_TotalDuration first)
              (map ThreadStats_TotalDuration rest)) as [Hmax Hmin].
  - change (ThreadStats_TotalDuration first :: map ThreadStats_TotalDuration rest)
      with (map ThreadStats_TotalDuration (first :: rest)).
    rewrite <- Hstats. unfold GetThreadStatistics, thread_totals.
    rewrite sort_slice_Permutation, List.map_map. done.
  - change (ThreadStats_TotalDuration first :: map ThreadStats_TotalDuration rest)
      with (ThreadStats_TotalDuration <$> (first :: rest)).
    rewrite <- Hstats.
    apply (StronglySorted_fmap _ (desc_by ThreadStats_TotalDuration)); [done|].
    apply Sorted_StronglySorted; [apply _|].
    apply sort_slice_desc.
  - split; [done|]. rewrite Hmin.
    change (ThreadStats_TotalDuration first :: map ThreadStats_TotalDuration rest)
      with (map ThreadStats_TotalDuration (first :: rest)).
    by rewrite last_map.
Qed.

Lemma thread_totals_range p :
  - 2 ^ 63 <= min_of (thread_totals p) < 2 ^ 63
  /\ - 2 ^ 63 <= max_of (thread_totals p) < 2 ^ 63
  /\ min_of (thread_totals p) <= max_of (thread_totals p).
Proof.
  assert (Forall (fun t => - 2 ^ 63 <= t < 2 ^ 63) (thread_totals p)) as Hall.
  { unfold thread_totals. apply Forall_forall. intros t Ht.
    apply list_elem_of_In, in_map_iff in Ht as (kv&<-&_).
    apply calculateThreadDuration_range. }
  destruct (thread_totals p) as [|x t]; [cbn; lia|].
  destruct (max_of_spec x t) as [Hmin Hmall].
  destruct (min_of_spec x t) as [Hnin Hnall].
  rewrite Forall_forall in Hall, Hmall.
  apply list_elem_of_In in Hmin, Hnin.
  pose proof (Hall _ Hmin). pose proof (Hall _ Hnin).
  pose proof (Hmall _ Hnin). lia.
Qed.

(** [detectThreadImbalance] in terms of the extremes of the totals. *)
Lemma detectThreadImbalance_eq p :
  detectThreadImbalance p
  = if (2 <=? Z.of_nat (size (Threads p)))
       && (0 <? min_of (thread_totals p))
       && float64_gt (imbalance_ratio p) (float64_of_int 2)
    then [mkPerformanceIssue "Thread Imbalance" "medium" "across all threads"
            (to_int64 (max_of (thread_totals p) - min_of (thread_totals p)))
            0 EmptyString]
    else [].
Proof.
  unfold detectThreadImbalance, imbalance_ratio.
  pose proof (length_GetThreadStatistics p) as Hlen.
  destruct (GetThreadStatistics p) as [|first [|second rest]] eqn:Hstats.
  - cbn [length] in Hlen. rewrite <- Hlen. done.
  - cbn [length] in Hlen. rewrite <- Hlen. done.
  - destruct (GetThreadStatistics_extremes p _ _ Hstats) as [-> ->].
    cbn [length] in Hlen. rewrite <- Hlen.
    assert ((2 <=? Z.of_nat (S (S (length rest)))) = true) as ->
      by (apply Z.leb_le; lia).
    done.
Qed.

(** *** The binary64 test against the exact one *)

Lemma binary_round_aux_exact s m e :
  Zpos (digits2_pos m) = 53 -> -1074 <= e <= 971 ->
  binary_round_aux 53 1024 s (Zpos m) e loc_Exact = S754_finite s m e.
Proof.
  intros Hd He. unfold binary_round_aux, shr_fexp.
  cbn [Zdigits2]. rewrite Hd, fexp_normal by lia.
  replace (53 + e - 53 - e) with 0 by lia.
  cbn [shr_record_of_loc shr shr_m loc_of_shr_record round_nearest_even Zdigits2].
  rewrite Hd, fexp_normal by lia.
  replace (53 + e - 53 - e) with 0 by lia.
  cbn [shr_record_of_loc shr shr_m].
  by assert ((e <=? 1024 - 53) = true) as -> by lia.
Qed.

(** An integer below [2 ^ 53] is a binary64 number: the conversion only
    normalizes the mantissa. *)
Lemma binary_round_int_exact s p :
  Zpos p < 2 ^ 53 ->
  exists m,
    binary_round 53 1024 s p 0 = S754_finite s m (Zpos (digits2_pos p) - 53)
    /\ Zpos m = Zpos p * 2 ^ (53 - Zpos (digits2_pos p))
    /\ 2 ^ 52 <= Zpos m < 2 ^ 53.
Proof.
  intros Hp. set (d := Zpos (digits2_pos p)).
  pose proof (digits2_pos_bounds p) as Hd. fold d in Hd.
  assert (0 < d) by (unfold d; lia).
  assert (d <= 53).
  { assert (d - 1 < 53); [|lia]. apply (Z.pow_lt_mono_r_iff 2); lia. }
  unfold binary_round. fold d.
  rewrite fexp_normal by lia. unfold shl_align.
  destruct (d + 0 - 53 - 0) as [|k|k] eqn:Ek; [|lia|].
  - assert (d = 53) as Hd53 by lia.
    rewrite binary_round_aux_exact by (fold d; lia).
    exists p. rewrite Hd53 in *. split; [done|]. cbn. lia.
  - assert (Zpos (Pos.iter xO p k) = Zpos p * 2 ^ (53 - d)) as Hm
      by (rewrite Pos_iter_xO; do 2 f_equal; lia).
    assert (2 ^ 52 <= Zpos (Pos.iter xO p k) < 2 ^ 53) as Hb.
    { rewrite Hm.
      assert (2 ^ 52 = 2 ^ (d - 1) * 2 ^ (53 - d)) as ->
        by (rewrite <- Z.pow_add_r by lia; f_equal; lia).
      assert (2 ^ 53 = 2 ^ d * 2 ^ (53 - d)) as ->
        by (rewrite <- Z.pow_add_r by lia; f_equal; lia).
      assert (0 < 2 ^ (53 - d)) by (apply Z.pow_pos_nonneg; lia).
      nia. }
    rewrite binary_round_aux_exact
      by (first [apply digits2_pos_unique; simpl; lia | lia]).
    exists (Pos.iter xO p k). split; [f_equal; lia|]. done.
Qed.

Lemma new_location_zero nb : new_location nb 0 = loc_Exact.
Proof. unfold new_location. by destruct (Z.even nb). Qed.

Lemma new_location_nonzero nb k :
  k <> 0 -> exists c, new_location nb k = loc_Inexact c.
Proof.
  intros Hk. apply Z.eqb_neq in Hk. unfold new_location.
  destruct (Z.even nb); unfold new_location_even, new_location_odd;
    rewrite Hk; eauto.
Qed.

Lemma new_location_above_half nb k :
  0 < k -> nb < 2 * k -> new_location nb k = loc_Inexact Gt.
Proof.
  intros Hk Hhalf. assert ((k =? 0) = false) as Hk0 by lia.
  unfold new_location.
  destruct (Z.even nb); unfold new_location_even, new_location_odd;
    rewrite Hk0.
  - by assert ((2 * k ?= nb) = Gt) as -> by (apply Z.compare_gt_iff; lia).
  - by assert ((2 * k + 1 ?= nb) = Gt) as -> by (apply Z.compare_gt_iff; lia).
Qed.

(** Comparison of a positive normal number with 2.0. *)
Lemma float64_gt_two_finite m e :
  float64_gt (S754_finite false m e) (float64_of_int 2)
  = (-51 <? e) || ((e =? -51) && (2 ^ 52 <? Zpos m)).
Proof.
  change (float64_of_int 2) with (S754_finite false 4503599627370496 (-51)).
  unfold float64_gt, SFltb, SFcompare.
  destruct (Z.compare_spec (-51) e) as [<-|Hlt|Hgt].
  - reflexivity.
  - assert ((-51 <? e) = true) as -> by lia. done.
  - assert ((-51 <? e) = false) as -> by lia.
    assert ((e =? -51) = false) as -> by lia. done.
Qed.

(** The quotient of two positive normal binary64 numbers exceeds 2.0
    exactly when the real quotient does. *)
Lemma SFdiv_normal_gt_two mA eA mB eB :
  2 ^ 52 <= Zpos mA < 2 ^ 53 -> 2 ^ 52 <= Zpos mB < 2 ^ 53 ->
  -52 <= eA <= 0 -> -52 <= eB <= 0 -> eB <= eA ->
  float64_gt (float64_div (S754_finite false mA eA) (S754_finite false mB eB))
    (float64_of_int 2)
  = (2 * Zpos mB <? Zpos mA * 2 ^ (eA - eB)).
Proof.
  intros HA HB HeA HeB Hle.
  destruct (Z.eq_dec eA eB) as [Heq|Hne].
  { (* equal exponents: the quotient is below 2 *)
    rewrite SFdiv_normal_le_two by lia.
    replace (eA - eB) with 0 by lia. symmetry. apply Z.ltb_ge. lia. }
  unfold float64_div, SFdiv. cbn [xorb].
  rewrite SFdiv_core_binary_normal by lia.
  set (X := Zpos mA * 2 ^ 53).
  set (q := X / Zpos mB). set (r := X mod Zpos mB).
  assert (X = Zpos mB * q + r /\ 0 <= r < Zpos mB) as [HX Hr].
  { unfold q, r. split; [apply Z.div_mod; lia|apply Z.mod_pos_bound; lia]. }
  assert (2 ^ 52 <= q < 2 ^ 54) as Hq.
  { unfold q, X. split.
    - apply Z.div_le_lower_bound; lia.
    - apply Z.div_lt_upper_bound; lia. }
  assert (X = Zpos mA * 2 ^ 53) as HXdef by done. clearbody X q r.
  destruct q as [|pq|pq] eqn:Eq; [lia| |lia].
  assert (53 <= Zpos (digits2_pos pq) <= 54) as Hdq.
  { pose proof (digits2_pos_bounds pq) as Hb.
    assert (52 < Zpos (digits2_pos pq))
      by (apply (Z.pow_lt_mono_r_iff 2); lia).
    assert (Zpos (digits2_pos pq) - 1 < 54)
      by (apply (Z.pow_lt_mono_r_iff 2); lia).
    lia. }
  assert (Zpos pq < 2 ^ 53 -> Zpos (digits2_pos pq) = 53) as Hd53
    by (intros; apply digits2_pos_unique; lia).
  assert (2 ^ 53 <= Zpos pq -> Zpos (digits2_pos pq) = 54) as Hd54
    by (intros; apply digits2_pos_unique; lia).
  destruct (binary_round_aux_normal false pq (eA - eB - 53)
              (new_location (Zpos mB) r)) as (m3&e3&E&He3&Hm3); [lia..|].
  destruct (Z.eq_dec (eA - eB) 1) as [H1|Hn1];
    [|destruct (Z.eq_dec (eA - eB) 2) as [H2|Hn2]].
  - (* exponents one apart: the real quotient is (2 mA) / mB *)
    rewrite H1 in *. change (2 ^ 1) with 2.
    destruct (Z.ltb_spec (2 * Zpos mB) (Zpos mA * 2)) as [Hgt|Hle2].
    + (* mA > mB *)
      assert (2 ^ 53 + 1 <= Zpos pq) by nia.
      destruct (Z.eq_dec (Zpos pq) (2 ^ 53 + 1)) as [Hq1|Hq1].
      * assert (r <> 0) as Hr0 by nia.
        destruct (new_location_nonzero (Zpos mB) r Hr0) as [c ->].
        assert (pq = 9007199254740993%positive) as -> by lia.
        by destruct c.
      * rewrite E, float64_gt_two_finite.
        rewrite (Hd54 ltac:(lia)) in He3. change (2 ^ (54 - 53)) with 2 in He3.
        assert (2 ^ 52 + 1 <= Zpos pq / 2)
          by (apply Z.div_le_lower_bound; lia).
        destruct He3 as [[-> Hb]|[Hm ->]].
        -- assert ((2 ^ 52 <? Zpos m3) = true) as -> by lia. done.
        -- done.
    + (* mA <= mB *)
      assert (Zpos pq <= 2 ^ 53) by nia.
      destruct (Z.eq_dec (Zpos pq) (2 ^ 53)) as [Hq1|Hq1].
      * assert (r = 0) as -> by nia. rewrite new_location_zero.
        assert (pq = 9007199254740992%positive) as -> by lia.
        done.
      * rewrite E, float64_gt_two_finite.
        rewrite (Hd53 ltac:(lia)) in He3. change (2 ^ (53 - 53)) with 1 in He3.
        destruct He3 as [[-> Hb]|[Hm ->]]; [done|].
        assert ((2 ^ 52 <? Zpos m3) = false) as -> by lia. done.
  - (* exponents two apart: the real quotient is (4 mA) / mB *)
    rewrite H2 in *. change (2 ^ 2) with 4.
    destruct (Z.ltb_spec (2 * Zpos mB) (Zpos mA * 4)) as [Hgt|Hle2].
    + (* 2 mA > mB *)
      destruct (Z.eq_dec (Zpos pq) (2 ^ 52)) as [Hq1|Hq1].
      * rewrite new_location_above_half by nia.
        assert (pq = 4503599627370496%positive) as -> by lia.
        done.
      * rewrite E, float64_gt_two_finite.
        destruct (Z.le_gt_cases (2 ^ 53) (Zpos pq)) as [Hbig|Hsmall].
        -- rewrite (Hd54 Hbig) in He3.
           destruct He3 as [[-> Hb]|[Hm ->]]; done.
        -- rewrite (Hd53 Hsmall) in He3. change (2 ^ (53 - 53)) with 1 in He3.
           rewrite Z.div_1_r in He3.
           destruct He3 as [[-> Hb]|[Hm ->]]; [|done].
           assert ((2 ^ 52 <? Zpos m3) = true) as -> by lia. done.
    + (* 2 mA <= mB *)
      assert (Zpos pq = 2 ^ 52) as Hq1 by nia.
      assert (r = 0) as -> by nia. rewrite new_location_zero.
      assert (pq = 4503599627370496%positive) as -> by lia.
      done.
  - (* exponents at least three apart: the quotient is at least 4 *)
    rewrite E, float64_gt_two_finite.
    assert (8 <= 2 ^ (eA - eB)).
    { change 8 with (2 ^ 3). apply Z.pow_le_mono_r; lia. }
    assert ((2 * Zpos mB <? Zpos mA * 2 ^ (eA - eB)) = true) as -> by nia.
    assert ((-51 <? e3) = true) as -> by lia. done.
Qed.

(** For totals below [2 ^ 53] nanoseconds the binary64 test of the rule is
    the exact comparison of the maximum with twice the minimum. *)
Lemma ratio_exceeds_two_exact a b :
  0 < b -> b <= a -> a < 2 ^ 53 ->
  float64_gt (float64_div (float64_of_int a) (float64_of_int b))
    (float64_of_int 2)
  = (2 * b <? a).
Proof.
  intros Hb Hle Ha.
  destruct a as [|pa|pa]; [lia| |lia]. destruct b as [|pb|pb]; [lia| |lia].
  unfold float64_of_int at 1 2, binary_normalize.
  destruct (binary_round_int_exact false pa) as (mA&->&HmA&HA); [lia|].
  destruct (binary_round_int_exact false pb) as (mB&->&HmB&HB); [lia|].
  pose proof (digits2_pos_mono pb pa Hle) as Hd.
  set (dA := Zpos (digits2_pos pa)) in *. set (dB := Zpos (digits2_pos pb)) in *.
  assert (1 <= dB /\ dA <= 53) as [HdB HdA].
  { split; [unfold dB; lia|].
    pose proof (digits2_pos_bounds pa) as Hb'. fold dA in Hb'.
    assert (dA - 1 < 53); [|lia]. apply (Z.pow_lt_mono_r_iff 2); lia. }
  rewrite SFdiv_normal_gt_two by lia.
  replace (dA - 53 - (dB - 53)) with (dA - dB) by lia.
  assert (Zpos mA * 2 ^ (dA - dB) = Zpos pa * 2 ^ (53 - dB)) as ->.
  { rewrite HmA, <- Z.mul_assoc, <- Z.pow_add_r by lia. do 2 f_equal. lia. }
  rewrite HmB.
  assert (0 < 2 ^ (53 - dB)) by (apply Z.pow_pos_nonneg; lia).
  destruct (Z.ltb_spec (2 * Zpos pb) (Zpos pa)); [apply Z.ltb_lt|apply Z.ltb_ge]; nia.
Qed.

(** Above [2 ^ 53] the conversion to binary64 rounds: a maximum just over
    twice the minimum can give the quotient 2.0 exactly. *)
Example ratio_rounds_to_two :
  float64_gt (float64_div (float64_of_int (2 ^ 54 + 1)) (float64_of_int (2 ^ 53)))
    (float64_of_int 2) = false.
Proof. reflexivity. Qed.
(** ** C7: thread imbalance *)

Lemma to_int64_small z : - 2 ^ 63 <= z < 2 ^ 63 -> to_int64 z = z.
Proof. intros H. unfold to_int64. rewrite Z.mod_small; lia. Qed.

Lemma to_int64_add_l x y : to_int64 (to_int64 x + y) = to_int64 (x + y).
Proof.
  unfold to_int64. f_equal.
  replace ((x + 2 ^ 63) mod 2 ^ 64 - 2 ^ 63 + y + 2 ^ 63)
    with ((x + 2 ^ 63) mod 2 ^ 64 + y) by lia.
  rewrite Zplus_mod_idemp_l. f_equal. lia.
Qed.

(** The total that the analyzer accumulates on [int64] is the sum of the
    durations of the top-level blocks, reduced to [int64]. *)
Lemma calculateThreadDuration_sum blocks :
  calculateThreadDuration blocks = to_int64 (top_level_total blocks).
Proof.
  unfold calculateThreadDuration. change 0 with (to_int64 0) at 1.
  change (top_level_total blocks) with (0 + top_level_total blocks).
  generalize 0.
  induction blocks as [|b bs IH]; intros total.
  - cbn [fold_left top_level_total foldr]. by rewrite Z.add_0_r.
  - cbn [fold_left top_level_total foldr].
    rewrite to_int64_add_l, IH. f_equal. unfold top_level_total. lia.
Qed.

Lemma thread_totals_exact p :
  Forall (fun t => - 2 ^ 53 < t < 2 ^ 53) (per_thread_totals p) ->
  thread_totals p = per_thread_totals p.
Proof.
  unfold thread_totals, per_thread_totals.
  induction (map_to_list (Threads p)) as [|kv kvs IH]; [done|].
  cbn [map]. intros H. apply Forall_cons in H as [Hkv Hkvs].
  rewrite IH by done. f_equal.
  rewrite calculateThreadDuration_sum. apply to_int64_small. lia.
Qed.

Lemma extremes_bounded (P : Z -> Prop) l :
  P 0 -> Forall P l -> P (max_of l) /\ P (min_of l).
Proof.
  intros H0 Hall. destruct l as [|x t]; [done|].
  destruct (max_of_spec x t) as [Hmax _].
  destruct (min_of_spec x t) as [Hmin _].
  rewrite Forall_forall in Hall.
  split; apply Hall; by apply list_elem_of_In.
Qed.

(** The ratio of two integers as a rational number, against 2. *)
Lemma ratio_exceeds_two hi lo :
  lo <= hi -> lo <> 0 ->
  (2 < inject_Z hi / inject_Z lo)%Q <-> 0 < lo /\ 2 * lo < hi.
Proof.
  intros Hle Hnz. unfold Qlt, Qdiv, Qmult, Qinv, inject_Z. cbn [Qnum Qden].
  destruct lo as [|q|q]; [done| |]; cbn [Qnum Qden]; lia.
Qed.

Lemma ratio_at_most_two hi lo :
  lo <= hi ->
  (inject_Z hi / inject_Z lo <= 2)%Q <-> lo <= 0 \/ hi <= 2 * lo.
Proof.
  intros Hle. unfold Qle, Qdiv, Qmult, Qinv, inject_Z. cbn [Qnum Qden].
  destruct lo as [|q|q]; cbn [Qnum Qden]; lia.
Qed.

(** C7, as stated, fails: two threads whose totals are [2 ^ 52] ns and
    [2 ^ 53 + 1] ns. The minimum is not zero and the ratio of the totals
    exceeds 2, but the conversion of the maximum to binary64 rounds it to
    [2 ^ 53], the quotient is 2.0 exactly, and the rule emits no issue. *)
Lemma detectThreadImbalance_rounding_counterexample :
  (2 <= size (Threads (two_thread_profile (2 ^ 52) (2 ^ 53 + 1))))%nat
  /\ min_of (per_thread_totals (two_thread_profile (2 ^ 52) (2 ^ 53 + 1))) <> 0
  /\ (2 < totals_ratio (two_thread_profile (2 ^ 52) (2 ^ 53 + 1)))%Q
  /\ detectThreadImbalance (two_thread_profile (2 ^ 52) (2 ^ 53 + 1)) = [].
Proof.
  split; [vm_compute; lia|]. split; [vm_compute; discriminate|].
  split; [vm_compute; reflexivity|]. vm_compute. reflexivity.
Qed.

(** C7, amended. The per-thread total is the sum of the durations of the
    top-level events of the thread. For every capture model whose
    per-thread totals are below [2 ^ 53] ns in magnitude: the rule emits
    exactly one issue, of severity medium, when the model has at least two
    threads, the minimum total is not zero and the ratio of the maximum to
    the minimum total exceeds 2; it emits no issue when the ratio is at
    most 2, and none when the minimum is zero. In particular, two threads
    with totals of 100 ms and 300 ms give exactly one Thread Imbalance
    issue, and totals of 100 ms and 150 ms (ratio 1.5) give none. *)
Theorem detectThreadImbalance_rule (p : ProfileData) :
  Forall (fun t => - 2 ^ 53 < t < 2 ^ 53) (per_thread_totals p) ->
  ((2 <= size (Threads p))%nat ->
   min_of (per_thread_totals p) <> 0 ->
   (2 < totals_ratio p)%Q ->
   detectThreadImbalance p
   = [mkPerformanceIssue "Thread Imbalance" "medium" "across all threads"
        (max_of (per_thread_totals p) - min_of (per_thread_totals p))
        0 EmptyString])
  /\ ((totals_ratio p <= 2)%Q -> detectThreadImbalance p = [])
  /\ (min_of (per_thread_totals p) = 0 -> detectThreadImbalance p = [])
  /\ (size (Threads p) = 2%nat ->
      max_of (per_thread_totals p) = 300000000 ->
      min_of (per_thread_totals p) = 100000000 ->
      exists issue,
        detectThreadImbalance p = [issue]
        /\ PerformanceIssue_Type issue = "Thread Imbalance"
        /\ PerformanceIssue_Severity issue = "medium")
  /\ (max_of (per_thread_totals p) = 150000000 ->
      min_of (per_thread_totals p) = 100000000 ->
      detectThreadImbalance p = []).
Proof.
  intros Hbound. rewrite detectThreadImbalance_eq.
  unfold imbalance_ratio, totals_ratio.
  pose proof (thread_totals_range p) as (_ & _ & Hle).
  rewrite (thread_totals_exact p Hbound) in *.
  assert (- 2 ^ 53 < max_of (per_thread_totals p) < 2 ^ 53
          /\ - 2 ^ 53 < min_of (per_thread_totals p) < 2 ^ 53) as [Hhi Hlo].
  { apply (extremes_bounded (fun t => - 2 ^ 53 < t < 2 ^ 53)); [lia|done]. }
  set (hi := max_of (per_thread_totals p)) in *.
  set (lo := min_of (per_thread_totals p)) in *.
  split; [|split; [|split; [|split]]].
  - intros Hsize Hnz Hratio.
    apply (proj1 (ratio_exceeds_two hi lo Hle Hnz)) in Hratio as [Hpos Hgt].
    assert ((2 <=? Z.of_nat (size (Threads p))) = true) as ->
      by (apply Z.leb_le; lia).
    assert ((0 <? lo) = true) as -> by lia.
    rewrite ratio_exceeds_two_exact by lia.
    assert ((2 * lo <? hi) = true) as -> by lia.
    cbn [andb]. by rewrite to_int64_small by lia.
  - intros Hratio.
    apply (proj1 (ratio_at_most_two hi lo Hle)) in Hratio as [Hneg|Hsmall].
    + assert ((0 <? lo) = false) as -> by lia. by rewrite andb_false_r.
    + destruct (Z.ltb_spec 0 lo) as [Hpos|_]; [|by rewrite andb_false_r].
      rewrite ratio_exceeds_two_exact by lia.
      assert ((2 * lo <? hi) = false) as -> by lia. by rewrite andb_false_r.
  - intros ->. by rewrite andb_false_r.
  - intros Hsize Hmax Hmin.
    change (hi = 300000000) in Hmax. change (lo = 100000000) in Hmin.
    rewrite Hsize, ratio_exceeds_two_exact by lia.
    assert ((0 <? lo) = true) as -> by lia.
    assert ((2 * lo <? hi) = true) as -> by lia.
    eexists. split; [reflexivity|]. done.
  - intros Hmax Hmin.
    change (hi = 150000000) in Hmax. change (lo = 100000000) in Hmin.
    rewrite ratio_exceeds_two_exact by lia.
    assert ((2 * lo <? hi) = false) as -> by lia. by rewrite andb_false_r.
Qed.

Lemma detectThreadImbalance_rule_witness :
  detectThreadImbalance (two_thread_blocks_profile blocks_100ms blocks_300ms)
  = [mkPerformanceIssue "Thread Imbalance" "medium" "across all threads"
       200000000 0 EmptyString]
  /\ detectThreadImbalance (two_thread_blocks_profile blocks_100ms blocks_150ms)
     = [].
Proof.
  split.
  - apply (proj1 (detectThreadImbalance_rule
                    (two_thread_blocks_profile blocks_100ms blocks_300ms)
                    ltac:(repeat constructor; vm_compute; reflexivity))).
    + vm_compute. lia.
    + vm_compute. discriminate.
    + vm_compute. reflexivity.
  - apply (proj1 (proj2 (detectThreadImbalance_rule
                    (two_thread_blocks_profile blocks_100ms blocks_150ms)
                    ltac:(repeat constructor; vm_compute; reflexivity)))).
    vm_compute. discriminate.
Defined.

(** * Further properties of the decoder *)

(** ** Null-terminated strings *)

Lemma string_of_bytes_of_string s : string_of_bytes (bytes_of_string s) = s.
Proof. apply string_of_list_byte_of_string. Qed.

Lemma cstring_nonempty s : cstring s <> [].
Proof. unfold cstring. by destruct (bytes_of_string s). Qed.

Lemma length_cstring s :
  length (cstring s) = S (length (bytes_of_string s)).
Proof. unfold cstring. rewrite length_app. simpl. lia. Qed.

Lemma take_cstring s :
  take (length (cstring s) - 1) (cstring s) = bytes_of_string s.
Proof.
  rewrite length_cstring. unfold cstring.
  replace (S (length (bytes_of_string s)) - 1)%nat
    with (length (bytes_of_string s)) by lia.
  apply take_app_length.
Qed.

Lemma last_is_zero_cstring s : last_is_zero (cstring s) = true.
Proof. unfold last_is_zero, cstring. by rewrite last_snoc. Qed.

Lemma strip_terminator_cstring s : strip_terminator (cstring s) = Ok s.
Proof.
  rewrite strip_terminator_nonempty by apply cstring_nonempty.
  by rewrite take_cstring, string_of_bytes_of_string.
Qed.

Lemma to_uint16_small z : 0 <= z < 2 ^ 16 -> to_uint16 z = z.
Proof. intros. unfold to_uint16. by apply Z.mod_small. Qed.

(** ** Block records *)

(** [readBlock] on a synthetic record whose declared size counts the fixed
    part and the name bytes. *)
Lemma readBlock_record begin end_ id name rest :
  fits 64 begin -> fits 64 end_ -> fits 32 id ->
  20 + Z.of_nat (length name) < 2 ^ 16 ->
  readBlock (block_bytes begin end_ id name ++ rest)
  = Ok (mkBlock begin end_ id
          (string_of_bytes
             (if last_is_zero name then take (length name - 1) name else name))
          [], rest).
Proof.
  intros Hb He Hid Hlen. unfold block_bytes, readBlock. rewrite <- !app_assoc.
  do 4 read_field.
  replace (20 + Z.of_nat (length name) - 20) with (Z.of_nat (length name)) by lia.
  rewrite to_uint16_small by lia.
  destruct name as [|c name].
  - reflexivity.
  - assert ((0 <? Z.of_nat (length (c :: name))) = true) as ->
      by (change (length (c :: name)) with (S (length name));
          apply Z.ltb_lt; lia).
    rewrite bind_readFull by lia. cbn [andb].
    destruct (last_is_zero (c :: name)); [|done].
    by rewrite strip_terminator_nonempty.
Qed.

Lemma readBlock_encode_block b rest :
  block_fits b -> readBlock (encode_block b ++ rest) = Ok (b, rest).
Proof.
  destruct b as [begin end_ id name children].
  unfold block_fits, encode_block; cbn [Block_Begin Block_End Block_ID
    Block_Name Block_Children].
  intros (Hb & He & Hid & Hlen & ->).
  rewrite readBlock_record by done.
  by rewrite last_is_zero_cstring, take_cstring, string_of_bytes_of_string.
Qed.

(** X1. A block record that stores the fields of a childless block in
    the layout of the format, its name null-terminated, is decoded by
    [readBlock] to exactly that block, and the cursor is left after the
    record. *)
Theorem readBlock_roundtrip (b : Block) (rest : list byte) :
  block_fits b -> readBlock (encode_block b ++ rest) = Ok (b, rest).
Proof. apply readBlock_encode_block. Qed.

Lemma readBlock_roundtrip_witness :
  readBlock (encode_block (mkBlock 4096 8192 7 "Render" []) ++ [x01; x02])
  = Ok (mkBlock 4096 8192 7 "Render" [], [x01; x02]).
Proof.
  apply (readBlock_roundtrip (mkBlock 4096 8192 7 "Render" []) [x01; x02]).
  unfold block_fits, fits. vm_compute. repeat split; congruence.
Defined.

(** X2. The name of a block record loses its last byte only when that
    byte is the null terminator: a name whose last byte is not zero is
    kept whole, and an absent name (declared size 20) is the empty
    string. *)
Theorem readBlock_unterminated_name (begin end_ id : Z) (name rest : list byte) :
  fits 64 begin -> fits 64 end_ -> fits 32 id ->
  20 + Z.of_nat (length name) < 2 ^ 16 ->
  last_is_zero name = false ->
  readBlock (block_bytes begin end_ id name ++ rest)
  = Ok (mkBlock begin end_ id (string_of_bytes name) [], rest).
Proof.
  intros Hb He Hid Hlen Hlast.
  rewrite readBlock_record by done. by rewrite Hlast.
Qed.

Lemma readBlock_unterminated_name_witness :
  readBlock (block_bytes 0 10 1 [x41; x42] ++ [])
  = Ok (mkBlock 0 10 1 "AB" [], [])
  /\ readBlock (block_bytes 0 10 1 [] ++ [])
     = Ok (mkBlock 0 10 1 EmptyString [], []).
Proof.
  split.
  - apply (readBlock_unterminated_name 0 10 1 [x41; x42] []);
      unfold fits; vm_compute; (done || (split; congruence)).
  - apply (readBlock_unterminated_name 0 10 1 [] []);
      unfold fits; vm_compute; (done || (split; congruence)).
Defined.

(** ** Context switch, bookmark and descriptor records *)

Lemma readContextSwitch_encode cs rest :
  context_switch_fits cs ->
  readContextSwitch (encode_context_switch cs ++ rest) = Ok (cs, rest).
Proof.
  destruct cs as [begin end_ threadID name].
  unfold context_switch_fits, encode_context_switch, context_switch_bytes;
    cbn [ContextSwitch_Begin ContextSwitch_End ContextSwitch_ThreadID
         ContextSwitch_Name].
  intros (Hid & Hb & He & Hlen). unfold readContextSwitch.
  rewrite <- !app_assoc. do 4 read_field.
  replace (24 + Z.of_nat (length (cstring name)) - 24)
    with (Z.of_nat (length (cstring name))) by lia.
  rewrite to_uint16_small by lia.
  assert ((0 <? Z.of_nat (length (cstring name))) = true) as ->
    by (rewrite length_cstring; apply Z.ltb_lt; lia).
  rewrite bind_readFull by lia.
  by rewrite strip_terminator_cstring.
Qed.

(** X3. A context switch record in the layout of the format (size,
    thread identifier, begin, end, null-terminated name) is decoded by
    [readContextSwitch] to exactly the context switch it stores. *)
Theorem readContextSwitch_roundtrip (cs : ContextSwitch) (rest : list byte) :
  context_switch_fits cs ->
  readContextSwitch (encode_context_switch cs ++ rest) = Ok (cs, rest).
Proof. apply readContextSwitch_encode. Qed.

Lemma readContextSwitch_roundtrip_witness :
  readContextSwitch
    (encode_context_switch (mkContextSwitch 100 250 42 "kernel") ++ [xff])
  = Ok (mkContextSwitch 100 250 42 "kernel", [xff]).
Proof.
  apply (readContextSwitch_roundtrip (mkContextSwitch 100 250 42 "kernel") [xff]).
  unfold context_switch_fits, fits. vm_compute. repeat split; congruence.
Defined.

Lemma readBookmark_encode b rest :
  bookmark_fits b -> readBookmark (encode_bookmark b ++ rest) = Ok (b, rest).
Proof.
  destruct b as [position color text].
  unfold bookmark_fits, encode_bookmark, bookmark_bytes;
    cbn [Bookmark_Position Bookmark_Color Bookmark_Text].
  intros (Hp & Hc & Hlen). unfold readBookmark.
  rewrite <- !app_assoc. do 3 read_field.
  replace (12 + Z.of_nat (length (cstring text)) - 12)
    with (Z.of_nat (length (cstring text))) by lia.
  rewrite to_uint16_small by lia.
  assert ((0 <? Z.of_nat (length (cstring text))) = true) as ->
    by (rewrite length_cstring; apply Z.ltb_lt; lia).
  rewrite bind_readFull by lia.
  by rewrite strip_terminator_cstring.
Qed.

Lemma readDescriptor_encode d rest :
  descriptor_fits d -> readDescriptor (encode_descriptor d ++ rest) = Ok (d, rest).
Proof.
  destruct d as [id line color type status name file].
  unfold descriptor_fits, encode_descriptor;
    cbn [BlockDescriptor_ID BlockDescriptor_Line BlockDescriptor_Color
         BlockDescriptor_Type BlockDescriptor_Status BlockDescriptor_Name
         BlockDescriptor_File].
  intros (Hid & Hline & Hcolor & Htype & Hstatus & Hlen).
  rewrite readDescriptor_record.
  - by rewrite !take_cstring, !string_of_bytes_of_string.
  - unfold fits; lia.
  - done.
  - done.
  - done.
  - done.
  - done.
  - apply cstring_nonempty.
  - unfold fits; lia.
  - rewrite (to_uint16_small (4 + 4 + 4 + 1 + 1 + 2 + _)) by lia.
    rewrite to_uint16_small by lia. lia.
Qed.

(** X4. A descriptor record in the layout of the format, with the name
    and the file path null-terminated and the declared size counting the
    fixed part and both strings, is decoded by [readDescriptor] to exactly
    the descriptor it stores. *)
Theorem readDescriptor_roundtrip (d : BlockDescriptor) (rest : list byte) :
  descriptor_fits d ->
  readDescriptor (encode_descriptor d ++ rest) = Ok (d, rest).
Proof. apply readDescriptor_encode. Qed.

Lemma readDescriptor_roundtrip_witness :
  readDescriptor
    (encode_descriptor (mkBlockDescriptor 1 (-5) 0xFF0000FF 1 0 "Update" "game.cpp")
     ++ [x07])
  = Ok (mkBlockDescriptor 1 (-5) 0xFF0000FF 1 0 "Update" "game.cpp", [x07]).
Proof.
  apply (readDescriptor_roundtrip
           (mkBlockDescriptor 1 (-5) 0xFF0000FF 1 0 "Update" "game.cpp") [x07]).
  unfold descriptor_fits, fits. vm_compute. repeat split; congruence.
Defined.

(** ** Counted loops over records *)

Lemma readN_concat {A} (m : Reader A) (enc : A -> list byte) (P : A -> Prop) :
  (forall x rest, P x -> m (enc x ++ rest) = Ok (x, rest)) ->
  forall xs rest,
    Forall P xs ->
    readN (length xs) m (concat (map enc xs) ++ rest) = Ok (xs, rest).
Proof.
  intros Hm xs rest HP. induction HP as [|x xs Hx _ IH]; [done|].
  cbn [length map concat readN]. rewrite <- app_assoc.
  rewrite (bind_Ok _ _ _ x (concat (map enc xs) ++ rest)) by by apply Hm.
  by rewrite (bind_Ok _ _ _ xs rest).
Qed.

Lemma wrap_Ok {A} ctx (m : Reader A) s r : m s = Ok r -> wrap ctx m s = Ok r.
Proof. intros E. unfold wrap. by rewrite E. Qed.

(** The skip branch moves over a whole well-formed record. *)
Lemma skipContextSwitch_encode cs rest :
  context_switch_fits cs ->
  skipContextSwitch (encode_context_switch cs ++ rest) = Ok (tt, rest).
Proof.
  destruct cs as [begin end_ threadID name].
  unfold context_switch_fits, encode_context_switch, context_switch_bytes;
    cbn [ContextSwitch_Begin ContextSwitch_End ContextSwitch_ThreadID
         ContextSwitch_Name].
  intros (Hid & Hb & He & Hlen). unfold skipContextSwitch.
  rewrite <- !app_assoc. read_field. unfold seekCurrent. do 2 f_equal.
  rewrite !app_assoc. apply drop_app_length'.
  rewrite !length_app, !length_le_bytes. lia.
Qed.

Lemma readN_skip (xs : list ContextSwitch) rest :
  Forall context_switch_fits xs ->
  readN (length xs) skipContextSwitch
    (concat (map encode_context_switch xs) ++ rest)
  = Ok (map (fun _ => tt) xs, rest).
Proof.
  intros HP. induction HP as [|x xs Hx _ IH]; [done|].
  cbn [length map concat readN]. rewrite <- app_assoc.
  rewrite (bind_Ok _ _ _ tt (concat (map encode_context_switch xs) ++ rest))
    by by apply skipContextSwitch_encode.
  by rewrite (bind_Ok _ _ _ (map (fun _ => tt) xs) rest).
Qed.

(** ** Thread records *)

Lemma readThread_encode options threadID t rest :
  thread_fits t ->
  ThreadData_ThreadID t = threadID ->
  readThread options threadID (encode_thread_body t ++ rest)
  = Ok (thread_as_read options t, rest).
Proof.
  destruct t as [tid name css blocks].
  unfold thread_fits, encode_thread_body, thread_bytes, thread_as_read;
    cbn [ThreadData_ThreadID ThreadData_ThreadName ThreadData_ContextSwitches
         ThreadData_Blocks].
  intros (Hname & Hcs & Hblocks & Hcss & Hbs) ->.
  unfold readThread. rewrite !length_map.
  change (le_bytes 0 0) with (@nil byte). cbn [app]. rewrite <- !app_assoc.
  read_field.
  assert (bind (if 0 <? Z.of_nat (length (bytes_of_string name))
                then nameBytes <- readFull (Z.to_nat (Z.of_nat (length (bytes_of_string name)))) ;;
                     ret (string_of_bytes nameBytes)
                else ret EmptyString)
          = fun k s => bind (nameBytes <- readFull (length (bytes_of_string name)) ;;
                             ret (string_of_bytes nameBytes)) k s) as ->.
  { rewrite Nat2Z.id. destruct (bytes_of_string name) eqn:E; [|done].
    reflexivity. }
  unfold bind at 1. rewrite bind_readFull by done. unfold ret at 1.
  rewrite string_of_bytes_of_string.
  read_field. rewrite Nat2Z.id.
  destruct (SkipContextSwitches options).
  - unfold bind at 1. unfold bind at 1.
    rewrite readN_skip by done. unfold ret at 1.
    read_field. rewrite Nat2Z.id.
    unfold bind at 1.
    rewrite (readN_concat _ encode_block block_fits) by
      (try done; intros; by apply wrap_Ok, readBlock_encode_block).
    done.
  - unfold bind at 1.
    rewrite (readN_concat _ encode_context_switch context_switch_fits) by
      (try done; intros; by apply wrap_Ok, readContextSwitch_encode).
    read_field. rewrite Nat2Z.id.
    unfold bind at 1.
    rewrite (readN_concat _ encode_block block_fits) by
      (try done; intros; by apply wrap_Ok, readBlock_encode_block).
    done.
Qed.

(** X5. A thread record in the layout of the format (name, context
    switch records, block records) is decoded by [readThread] to the thread
    it stores; with [SkipContextSwitches] the decoded thread differs only
    in having no context switches, and the cursor is left at the same
    place. *)
Theorem readThread_roundtrip (options : ReadOptions) (t : ThreadData)
    (rest : list byte) :
  thread_fits t ->
  readThread options (ThreadData_ThreadID t) (encode_thread_body t ++ rest)
  = Ok (thread_as_read options t, rest).
Proof. intros H. by apply readThread_encode. Qed.

Lemma readThread_roundtrip_witness :
  let t := mkThreadData 7 "worker" [mkContextSwitch 1 2 7 "idle"]
             [mkBlock 0 10 1 "a" []; mkBlock 10 30 2 EmptyString []] in
  readThread DefaultReadOptions 7 (encode_thread_body t ++ [x09]) = Ok (t, [x09])
  /\ readThread FastReadOptions 7 (encode_thread_body t ++ [x09])
     = Ok (mkThreadData 7 "worker" [] (ThreadData_Blocks t), [x09]).
Proof.
  intros t.
  assert (thread_fits t) as Hfit.
  { unfold thread_fits, t, context_switch_fits, block_fits, fits.
    cbn [ThreadData_ThreadName ThreadData_ContextSwitches ThreadData_Blocks].
    split; [vm_compute; reflexivity|]. split; [vm_compute; reflexivity|].
    split; [vm_compute; reflexivity|]. split.
    - repeat constructor; vm_compute; congruence.
    - repeat constructor; vm_compute; congruence. }
  split.
  - apply (readThread_roundtrip DefaultReadOptions t [x09] Hfit).
  - apply (readThread_roundtrip FastReadOptions t [x09] Hfit).
Defined.

(** ** The descriptor table *)

Lemma readDescriptors_encode ds :
  forall descs rest,
    Forall descriptor_fits ds ->
    readDescriptors (length ds) descs (concat (map encode_descriptor ds) ++ rest)
    = Ok (foldl (fun m d => <[BlockDescriptor_ID d := d]> m) descs ds, rest).
Proof.
  induction ds as [|d ds IH]; intros descs rest Hfit; [done|].
  apply Forall_cons in Hfit as [Hd Hds].
  cbn [length map concat readDescriptors foldl]. rewrite <- app_assoc.
  rewrite (bind_Ok _ _ _ d (concat (map encode_descriptor ds) ++ rest))
    by by apply wrap_Ok, readDescriptor_encode.
  by apply IH.
Qed.

Lemma last_cons_filter {A} (x : A) l :
  last (x :: l) = match last l with Some y => Some y | None => Some x end.
Proof. destruct l as [|y l]; [done|]. rewrite last_cons. by destruct (last (y :: l)). Qed.

Lemma lookup_foldl_insert (ds : list BlockDescriptor) :
  forall (descs : gmap Z BlockDescriptor) k,
    foldl (fun m d => <[BlockDescriptor_ID d := d]> m) descs ds !! k
    = match last (filter (fun d => BlockDescriptor_ID d = k) ds) with
      | Some d => Some d
      | None => descs !! k
      end.
Proof.
  induction ds as [|d ds IH]; intros descs k; [done|].
  cbn [foldl]. rewrite IH. rewrite filter_cons.
  destruct (decide (BlockDescriptor_ID d = k)) as [<-|Hne].
  - rewrite last_cons_filter.
    destruct (last (filter _ ds)); [done|]. by rewrite lookup_insert_eq.
  - destruct (last (filter _ ds)); [done|]. by rewrite lookup_insert_ne.
Qed.

(** X6. A descriptor table of well-formed records is decoded whole, and
    the table maps every identifier to the last record of the input that
    carries it: a later record replaces an earlier one with the same
    identifier, and an identifier that no record carries is absent. *)
Theorem readDescriptors_last_wins (ds : list BlockDescriptor) (rest : list byte) :
  Forall descriptor_fits ds ->
  exists table,
    readDescriptors (length ds) ∅ (concat (map encode_descriptor ds) ++ rest)
    = Ok (table, rest)
    /\ forall k, table !! k
                 = last (filter (fun d => BlockDescriptor_ID d = k) ds).
Proof.
  intros Hfit. eexists. split; [by apply readDescriptors_encode|].
  intros k. rewrite lookup_foldl_insert.
  destruct (last _); [done|]. apply lookup_empty.
Qed.

Lemma readDescriptors_last_wins_witness :
  let d1 := mkBlockDescriptor 1 10 0 1 0 "old" "a.cpp" in
  let d2 := mkBlockDescriptor 2 20 0 1 0 "other" "b.cpp" in
  let d3 := mkBlockDescriptor 1 30 0 1 0 "new" "c.cpp" in
  exists table,
    readDescriptors 3 ∅ (concat (map encode_descriptor [d1; d2; d3]) ++ [])
    = Ok (table, [])
    /\ forall k, table !! k
                 = last (filter (fun d => BlockDescriptor_ID d = k) [d1; d2; d3]).
Proof.
  intros d1 d2 d3.
  apply (readDescriptors_last_wins [d1; d2; d3] []).
  repeat constructor; unfold fits; vm_compute; congruence.
Defined.

(** ** Bookmarks *)

Lemma readBookmarks_records header bs rest :
  BookmarksCount header = Z.of_nat (length bs) ->
  Forall bookmark_fits bs ->
  readBookmarks header (concat (map encode_bookmark bs) ++ rest)
  = (signature <- readUint32 ;;
     if signature =? EasyProfilerSignature then ret bs
     else fail (ErrFormat "invalid bookmarks end signature" signature)) rest.
Proof.
  intros Hcount Hfit. unfold readBookmarks. rewrite Hcount, Nat2Z.id.
  rewrite (bind_Ok _ _ _ bs rest); [done|].
  apply (readN_concat _ encode_bookmark bookmark_fits); [|done].
  intros; by apply wrap_Ok, readBookmark_encode.
Qed.

(** X7. The bookmark section: as many well-formed bookmark records as
    the header counts, followed by the signature, are decoded to exactly
    the bookmarks stored. The end signature is required: any other 32-bit
    value after the records is the error of an invalid bookmarks end
    signature, and end of input there is an end-of-file error. *)
Theorem readBookmarks_roundtrip (header : FileHeader) (bs : list Bookmark)
    (rest : list byte) :
  BookmarksCount header = Z.of_nat (length bs) ->
  Forall bookmark_fits bs ->
  readBookmarks header
    (concat (map encode_bookmark bs) ++ le_bytes 4 EasyProfilerSignature ++ rest)
  = Ok (bs, rest)
  /\ (forall v, fits 32 v -> v <> EasyProfilerSignature ->
        readBookmarks header (concat (map encode_bookmark bs) ++ le_bytes 4 v ++ rest)
        = Err (ErrFormat "invalid bookmarks end signature" v))
  /\ readBookmarks header (concat (map encode_bookmark bs) ++ []) = Err EOF.
Proof.
  intros Hcount Hfit. split; [|split].
  - rewrite readBookmarks_records by done.
    unfold readUint32. rewrite bind_readUint by (vm_compute; split; congruence).
    reflexivity.
  - intros v Hv Hne. rewrite readBookmarks_records by done.
    unfold readUint32. rewrite bind_readUint by (unfold fits in Hv; simpl; lia).
    by apply Z.eqb_neq in Hne as ->.
  - rewrite readBookmarks_records by done. reflexivity.
Qed.

Lemma readBookmarks_roundtrip_witness :
  let header := mkFileHeader EasyProfilerSignature Version210 1 0 0 10 0 0 0 0 0 2 0 in
  let bs := [mkBookmark 5 0xFF00FF00 "start"; mkBookmark 9 0 EmptyString] in
  readBookmarks header
    (concat (map encode_bookmark bs) ++ le_bytes 4 EasyProfilerSignature ++ [])
  = Ok (bs, [])
  /\ readBookmarks header (concat (map encode_bookmark bs) ++ le_bytes 4 7 ++ [])
     = Err (ErrFormat "invalid bookmarks end signature" 7)
  /\ readBookmarks header (concat (map encode_bookmark bs) ++ []) = Err EOF.
Proof.
  intros header bs.
  assert (BookmarksCount header = Z.of_nat (length bs)) as Hcount by reflexivity.
  assert (Forall bookmark_fits bs) as Hfit
    by (repeat constructor; unfold fits; vm_compute; congruence).
  destruct (readBookmarks_roundtrip header bs [] Hcount Hfit) as (H1 & H2 & H3).
  split; [exact H1|]. split; [|exact H3].
  apply H2; [unfold fits; lia | vm_compute; congruence].
Defined.

(** ** What the record decoders never do *)

Lemma bind_Ok_inv {A B} (m : Reader A) (k : A -> Reader B) s r :
  bind m k s = Ok r -> exists a s1, m s = Ok (a, s1) /\ k a s1 = Ok r.
Proof.
  unfold bind. destruct (m s) as [[a s1]|e|]; [|done|done]. by exists a, s1.
Qed.

Lemma wrap_Ok_inv {A} ctx (m : Reader A) s r : wrap ctx m s = Ok r -> m s = Ok r.
Proof. unfold wrap. by destruct (m s). Qed.

Lemma fails_only_short_ret {A} (a : A) : fails_only_short (ret a).
Proof. by intros s. Qed.

Lemma fails_only_short_bind {A B} (m : Reader A) (k : A -> Reader B) :
  fails_only_short m -> (forall a, fails_only_short (k a)) ->
  fails_only_short (bind m k).
Proof.
  intros Hm Hk s. unfold bind. specialize (Hm s).
  destruct (m s) as [[a s']|e|]; [apply Hk|done|done].
Qed.

Lemma fails_only_short_wrap {A} ctx (m : Reader A) :
  fails_only_short m -> fails_only_short (wrap ctx m).
Proof.
  intros Hm s. unfold wrap. specialize (Hm s). by destruct (m s).
Qed.

Lemma fails_only_short_readFull n : fails_only_short (readFull n).
Proof.
  intros s. unfold readFull. destruct n as [|n]; [done|].
  destruct s as [|b s]; [done|].
  by destruct (length (b :: s) <? S n)%nat.
Qed.

Lemma fails_only_short_readUint w : fails_only_short (readUint w).
Proof.
  apply fails_only_short_bind; [apply fails_only_short_readFull|].
  intros; apply fails_only_short_ret.
Qed.

Lemma fails_only_short_readN {A} n (m : Reader A) :
  fails_only_short m -> fails_only_short (readN n m).
Proof.
  intros Hm. induction n as [|n IH]; [apply fails_only_short_ret|].
  cbn [readN]. apply fails_only_short_bind; [done|]. intros x.
  apply fails_only_short_bind; [done|]. intros xs. apply fails_only_short_ret.
Qed.

Lemma readFull_Ok_length n s bs s' :
  readFull n s = Ok (bs, s') -> length bs = n /\ s = bs ++ s'.
Proof.
  unfold readFull. destruct n as [|n].
  - by intros [= <- <-].
  - destruct s as [|b s]; [done|].
    destruct (length (b :: s) <? S n)%nat eqn:E; [done|].
    intros [= <- <-]. apply Nat.ltb_ge in E. simpl in E. split.
    + cbn [length]. rewrite length_take. lia.
    + cbn [app]. by rewrite take_drop.
Qed.

(** A name buffer of positive length is stripped without a panic. *)
Lemma fails_only_short_readName {B} n (k : string -> Reader B) :
  (0 < n)%nat ->
  (forall a, fails_only_short (k a)) ->
  fails_only_short (bs <- readFull n ;; name <- lift (strip_terminator bs) ;; k name).
Proof.
  intros Hn Hk s. unfold bind at 1.
  pose proof (fails_only_short_readFull n s) as Hr.
  destruct (readFull n s) as [[bs s1]|e|] eqn:E; [|done|done].
  apply readFull_Ok_length in E as [Hlen _].
  rewrite strip_terminator_nonempty by (intros ->; simpl in Hlen; lia).
  apply Hk.
Qed.

Lemma Z_to_nat_pos z : (0 <? z) = true -> (0 < Z.to_nat z)%nat.
Proof. intros H. apply Z.ltb_lt in H. lia. Qed.

Lemma fails_only_short_readBlock : fails_only_short readBlock.
Proof.
  unfold readBlock, readUint16, readUint32, readUint64.
  do 4 (apply fails_only_short_bind; [apply fails_only_short_readUint|]; intros ?).
  destruct (0 <? _) eqn:E; [|apply fails_only_short_ret].
  intros s. unfold bind at 1.
  pose proof (fails_only_short_readFull (Z.to_nat (to_uint16 (a - 20))) s) as Hr.
  destruct (readFull _ s) as [[bs s1]|e|] eqn:Eb; [|done|done].
  apply readFull_Ok_length in Eb as [Hlen _].
  destruct (_ && _); [|done].
  apply Z_to_nat_pos in E.
  unfold bind. rewrite strip_terminator_nonempty by (intros ->; simpl in Hlen; lia).
  done.
Qed.

Lemma fails_only_short_readContextSwitch : fails_only_short readContextSwitch.
Proof.
  unfold readContextSwitch, readUint16, readUint64.
  do 4 (apply fails_only_short_bind; [apply fails_only_short_readUint|]; intros ?).
  destruct (0 <? _) eqn:E; [|apply fails_only_short_ret].
  apply fails_only_short_readName; [by apply Z_to_nat_pos|].
  intros; apply fails_only_short_ret.
Qed.

Lemma fails_only_short_readBookmark : fails_only_short readBookmark.
Proof.
  unfold readBookmark, readUint16, readUint32, readUint64.
  do 3 (apply fails_only_short_bind; [apply fails_only_short_readUint|]; intros ?).
  destruct (0 <? _) eqn:E; [|apply fails_only_short_ret].
  apply fails_only_short_readName; [by apply Z_to_nat_pos|].
  intros; apply fails_only_short_ret.
Qed.

Lemma fails_only_short_skipContextSwitch : fails_only_short skipContextSwitch.
Proof.
  unfold skipContextSwitch, readUint16.
  apply fails_only_short_bind; [apply fails_only_short_readUint|].
  by intros size s.
Qed.

Lemma fails_only_short_readThread options threadID :
  fails_only_short (readThread options threadID).
Proof.
  unfold readThread, readUint16, readUint32.
  apply fails_only_short_bind; [apply fails_only_short_readUint|]; intros nameSize.
  apply fails_only_short_bind.
  { destruct (0 <? nameSize); [|apply fails_only_short_ret].
    apply fails_only_short_bind; [apply fails_only_short_readFull|].
    intros; apply fails_only_short_ret. }
  intros threadName.
  apply fails_only_short_bind; [apply fails_only_short_readUint|]; intros csCount.
  apply fails_only_short_bind.
  { destruct (SkipContextSwitches options).
    - apply fails_only_short_bind; [|intros; apply fails_only_short_ret].
      apply fails_only_short_readN, fails_only_short_skipContextSwitch.
    - apply fails_only_short_readN, fails_only_short_wrap,
        fails_only_short_readContextSwitch. }
  intros contextSwitches.
  apply fails_only_short_bind; [apply fails_only_short_readUint|]; intros blocksCount.
  apply fails_only_short_bind; [|intros; apply fails_only_short_ret].
  apply fails_only_short_readN, fails_only_short_wrap, fails_only_short_readBlock.
Qed.

(** X8. The thread record decoder validates nothing: on every input,
    with either setting of the options, [readThread] returns a thread or
    fails with a short read (end of file, possibly wrapped in the context
    of the context switch or block being read); it never panics and never
    reports a format error. *)
Theorem readThread_fails_only_on_short_input (options : ReadOptions)
    (threadID : Z) :
  fails_only_short (readThread options threadID).
Proof. apply fails_only_short_readThread. Qed.

(** ** Panics of the descriptor decoder *)

Lemma readUint_Ok_inv w s v s' :
  readUint w s = Ok (v, s') ->
  (w <= length s)%nat /\ v = le_uint (take w s) /\ s' = drop w s.
Proof.
  unfold readUint. intros H. apply bind_Ok_inv in H as (bs & s1 & Hr & Hret).
  injection Hret as <- <-. apply readFull_Ok_length in Hr as [Hlen ->].
  rewrite length_app. split; [lia|].
  rewrite <- Hlen. by rewrite take_app_length, drop_app_length.
Qed.

Lemma readUint_Panic w s : readUint w s <> Panic.
Proof.
  pose proof (fails_only_short_readUint w s) as H. by destruct (readUint w s).
Qed.

Lemma readUint_enough w s :
  (w <= length s)%nat -> readUint w s = Ok (le_uint (take w s), drop w s).
Proof.
  intros Hlen. rewrite <- (take_drop w s) at 1.
  unfold readUint.
  rewrite (bind_Ok _ _ _ (take w s) (drop w s)); [done|].
  rewrite <- (length_take_le s w) at 1 by done. apply readFull_app.
Qed.

Lemma readUint_short w s : (length s < w)%nat -> exists e, readUint w s = Err e.
Proof.
  intros Hlen. unfold readUint, bind, readFull.
  destruct w as [|w]; [lia|]. destruct s as [|b s]; [by eexists|].
  assert ((length (b :: s) <? S w)%nat = true) as -> by (apply Nat.ltb_lt; lia).
  by eexists.
Qed.

(** The seven fixed fields of a descriptor record take 18 bytes; the
    name length is the last of them. *)
Lemma readDescriptor_fixed (s : list byte) :
  (18 <= length s)%nat ->
  readDescriptor s
  = (let size := le_uint (take 2 s) in
     let id := le_uint (take 4 (drop 2 s)) in
     let line := to_int32 (le_uint (take 4 (drop 6 s))) in
     let color := le_uint (take 4 (drop 10 s)) in
     let type := le_uint (take 1 (drop 14 s)) in
     let status := le_uint (take 1 (drop 15 s)) in
     let nameLength := le_uint (take 2 (drop 16 s)) in
     nameBytes <- readFull (Z.to_nat nameLength) ;;
     name <- lift (strip_terminator nameBytes) ;;
     let remainingSize :=
       to_uint16 (size - to_uint16 (4 + 4 + 4 + 1 + 1 + 2 + nameLength)) in
     if 0 <? remainingSize then
       fileBytes <- readFull (Z.to_nat remainingSize) ;;
       file <- lift (strip_terminator fileBytes) ;;
       ret (mkBlockDescriptor id line color type status name file)
     else
       ret (mkBlockDescriptor id line color type status name EmptyString))
      (drop 18 s).
Proof.
  intros Hlen. unfold readDescriptor, readUint8, readUint16, readUint32, readInt32.
  rewrite (bind_Ok _ _ _ _ _ (readUint_enough 2 s ltac:(lia))).
  rewrite (bind_Ok _ _ _ _ _ (readUint_enough 4 (drop 2 s)
             ltac:(rewrite length_drop; lia))).
  rewrite drop_drop.
  rewrite (bind_Ok (v <- readUint 4 ;; ret (to_int32 v)) _ _
             (to_int32 (le_uint (take 4 (drop 6 s)))) (drop 10 s)).
  2:{ rewrite (bind_Ok _ _ _ _ _ (readUint_enough 4 (drop (2 + 4) s)
                 ltac:(rewrite length_drop; lia))).
      by rewrite drop_drop. }
  rewrite (bind_Ok _ _ _ _ _ (readUint_enough 4 (drop 10 s)
             ltac:(rewrite length_drop; lia))).
  rewrite drop_drop.
  rewrite (bind_Ok _ _ _ _ _ (readUint_enough 1 (drop (10 + 4) s)
             ltac:(rewrite length_drop; lia))).
  rewrite drop_drop.
  rewrite (bind_Ok _ _ _ _ _ (readUint_enough 1 (drop (10 + 4 + 1) s)
             ltac:(rewrite length_drop; lia))).
  rewrite drop_drop.
  rewrite (bind_Ok _ _ _ _ _ (readUint_enough 2 (drop (10 + 4 + 1 + 1) s)
             ltac:(rewrite length_drop; lia))).
  rewrite drop_drop. reflexivity.
Qed.

Lemma readDescriptor_short (s : list byte) :
  (length s < 18)%nat -> exists e, readDescriptor s = Err e.
Proof.
  intros Hlen.
  pose proof (only_short_reads_readDescriptor s) as Hs.
  destruct (readDescriptor s) as [[d s']|e|] eqn:E; [|by eexists|].
  - exfalso.
    unfold readDescriptor, readUint8, readUint16, readUint32, readInt32 in E.
    apply bind_Ok_inv in E as (? & s1 & H1 & E). apply readUint_Ok_inv in H1 as (?&_&->).
    apply bind_Ok_inv in E as (? & s2 & H2 & E). apply readUint_Ok_inv in H2 as (?&_&->).
    apply bind_Ok_inv in E as (? & s3 & H3 & E).
    apply bind_Ok_inv in H3 as (? & s3' & H3 & H3'). injection H3' as _ <-.
    apply readUint_Ok_inv in H3 as (?&_&->).
    apply bind_Ok_inv in E as (? & s4 & H4 & E). apply readUint_Ok_inv in H4 as (?&_&->).
    apply bind_Ok_inv in E as (? & s5 & H5 & E). apply readUint_Ok_inv in H5 as (?&_&->).
    apply bind_Ok_inv in E as (? & s6 & H6 & E). apply readUint_Ok_inv in H6 as (?&_&->).
    apply bind_Ok_inv in E as (? & s7 & H7 & E). apply readUint_Ok_inv in H7 as (?&_&->).
    rewrite !length_drop in *. lia.
  - exfalso.
    unfold readDescriptor, readUint8, readUint16, readUint32, readInt32 in E.
    unfold bind at 1 in E.
    destruct (readUint 2 s) as [[? s1]|?|] eqn:H1; [|done|by apply readUint_Panic in H1].
    apply readUint_Ok_inv in H1 as (?&_&->).
    unfold bind at 1 in E.
    destruct (readUint 4 _) as [[? s2]|?|] eqn:H2; [|done|by apply readUint_Panic in H2].
    apply readUint_Ok_inv in H2 as (?&_&->).
    unfold bind at 1 in E. unfold bind at 1 in E.
    destruct (readUint 4 _) as [[? s3]|?|] eqn:H3; [|done|by apply readUint_Panic in H3].
    apply readUint_Ok_inv in H3 as (?&_&->). unfold ret at 1 in E.
    unfold bind at 1 in E.
    destruct (readUint 4 _) as [[? s4]|?|] eqn:H4; [|done|by apply readUint_Panic in H4].
    apply readUint_Ok_inv in H4 as (?&_&->).
    unfold bind at 1 in E.
    destruct (readUint 1 _) as [[? s5]|?|] eqn:H5; [|done|by apply readUint_Panic in H5].
    apply readUint_Ok_inv in H5 as (?&_&->).
    unfold bind at 1 in E.
    destruct (readUint 1 _) as [[? s6]|?|] eqn:H6; [|done|by apply readUint_Panic in H6].
    apply readUint_Ok_inv in H6 as (?&_&->).
    unfold bind at 1 in E.
    destruct (readUint 2 _) as [[? s7]|?|] eqn:H7; [|done|by apply readUint_Panic in H7].
    apply readUint_Ok_inv in H7 as (?&_&->).
    rewrite !length_drop in *. lia.
Qed.

(** X9. [readDescriptor] panics exactly on the records whose 16-bit name
    length (the bytes at offsets 16 and 17) is zero and whose eighteen
    fixed bytes are all present: no other input makes it panic. *)
Theorem readDescriptor_panics_iff_zero_name_length (s : list byte) :
  readDescriptor s = Panic
  <-> (18 <= length s)%nat /\ le_uint (take 2 (drop 16 s)) = 0.
Proof.
  destruct (le_lt_dec 18 (length s)) as [Hlen|Hlen].
  - rewrite readDescriptor_fixed by done. cbn zeta.
    set (nameLength := le_uint (take 2 (drop 16 s))).
    split.
    + intros H. split; [done|].
      destruct (Z.eq_dec nameLength 0) as [|Hne]; [done|exfalso].
      pose proof (le_uint_range (take 2 (drop 16 s))) as Hr. fold nameLength in Hr.
      revert H.
      assert (0 < Z.to_nat nameLength)%nat as Hpos by lia.
      match goal with |- ?m (drop 18 s) = Panic -> False =>
        assert (fails_only_short m) as Hf end.
      { apply fails_only_short_readName; [done|]. intros name.
        destruct (0 <? _) eqn:E; [|apply fails_only_short_ret].
        apply fails_only_short_readName; [by apply Z_to_nat_pos|].
        intros; apply fails_only_short_ret. }
      intros H. specialize (Hf (drop 18 s)). by rewrite H in Hf.
    + intros [_ ->]. reflexivity.
  - split.
    + intros H. destruct (readDescriptor_short s Hlen) as [e He]. congruence.
    + lia.
Qed.

(** ** Invariants of a successful decode *)

Lemma yields_ret {A} (P : A -> Prop) a : P a -> yields P (ret a).
Proof. intros H s a' s' [= <- _]. done. Qed.

Lemma yields_bind {A B} (P : B -> Prop) (m : Reader A) (k : A -> Reader B) :
  (forall a, yields P (k a)) -> yields P (bind m k).
Proof.
  intros Hk s b s' H. apply bind_Ok_inv in H as (a & s1 & _ & H).
  by apply (Hk a s1 b s').
Qed.

Lemma yields_wrap {A} (P : A -> Prop) ctx (m : Reader A) :
  yields P m -> yields P (wrap ctx m).
Proof. intros Hm s a s' H. apply wrap_Ok_inv in H. by apply (Hm s a s'). Qed.

Lemma yields_readN {A} (P : A -> Prop) n (m : Reader A) :
  yields P m -> yields (fun xs => Forall P xs /\ length xs = n) (readN n m).
Proof.
  intros Hm. induction n as [|n IH]; [by apply yields_ret|].
  cbn [readN]. intros s xs s' H.
  apply bind_Ok_inv in H as (x & s1 & Hx & H).
  apply bind_Ok_inv in H as (xs' & s2 & Hxs & H).
  injection H as <- <-. apply Hm in Hx. apply IH in Hxs as [Hall Hlen].
  split; [by constructor|]. simpl. by rewrite Hlen.
Qed.

Lemma yields_readBlock : yields (fun b => Block_Children b = []) readBlock.
Proof.
  unfold readBlock.
  do 4 (apply yields_bind; intros ?).
  destruct (0 <? _); [|by apply yields_ret].
  apply yields_bind; intros nameBytes.
  destruct (_ && _); [|by apply yields_ret].
  apply yields_bind; intros name. by apply yields_ret.
Qed.

Lemma yields_readThread options threadID :
  yields (thread_decoded options threadID) (readThread options threadID).
Proof.
  unfold readThread. intros s t s' H.
  apply bind_Ok_inv in H as (nameSize & s1 & _ & H).
  apply bind_Ok_inv in H as (threadName & s2 & _ & H).
  apply bind_Ok_inv in H as (csCount & s3 & _ & H).
  apply bind_Ok_inv in H as (contextSwitches & s4 & Hcs & H).
  apply bind_Ok_inv in H as (blocksCount & s5 & _ & H).
  apply bind_Ok_inv in H as (blocks & s6 & Hblocks & H).
  injection H as <- <-.
  apply (yields_readN _ _ _ (yields_wrap _ _ _ yields_readBlock)) in Hblocks
    as [Hflat _].
  split; [done|]. split; [done|].
  cbn [ThreadData_ContextSwitches]. intros Hskip. rewrite Hskip in Hcs.
  apply bind_Ok_inv in Hcs as (? & ? & _ & Hcs). by injection Hcs as <- _.
Qed.

Lemma readEndSignature_Ok_inv threadsRead expectedThreads threads s threads' s' :
  readEndSignature threadsRead expectedThreads threads s = Ok (threads', s') ->
  threads' = threads.
Proof.
  unfold readEndSignature. destruct (readUint32 s) as [[signature s1]|e|]; [| |done].
  - destruct (signature =? _); [|done]. by intros [= <- _].
  - destruct (_ && _); [|done]. by intros [= <- _].
Qed.

Lemma readThreadsLoop_invariant options version expectedThreads
    (Q : Z -> ThreadData -> Prop) :
  (forall threadID, yields (Q threadID) (readThread options threadID)) ->
  forall n threadsRead threads s threads' s',
    map_Forall Q threads ->
    readThreadsLoop options version expectedThreads n threadsRead threads s
    = Ok (threads', s') ->
    map_Forall Q threads'.
Proof.
  intros HQ. induction n as [|n IH]; intros threadsRead threads s threads' s' Hm H.
  - cbn [readThreadsLoop] in H. by apply readEndSignature_Ok_inv in H as ->.
  - cbn [readThreadsLoop] in H.
    destruct (readThreadID version s) as [[threadID s1]|e|]; [| |done].
    + destruct (_ && _); [by injection H as <- _|].
      destruct (wrap _ _ s1) as [[thread s2]|e|] eqn:Et; [|done|done].
      apply wrap_Ok_inv in Et. apply HQ in Et.
      apply IH in H; [done|]. by apply map_Forall_insert_2.
    + destruct e; try done. by apply readEndSignature_Ok_inv in H as ->.
Qed.

Lemma readDescriptors_invariant n :
  forall descs s descs' s',
    map_Forall (fun k d => BlockDescriptor_ID d = k) descs ->
    readDescriptors n descs s = Ok (descs', s') ->
    map_Forall (fun k d => BlockDescriptor_ID d = k) descs'.
Proof.
  induction n as [|n IH]; intros descs s descs' s' Hm H.
  - by injection H as <- _.
  - cbn [readDescriptors] in H. apply bind_Ok_inv in H as (d & s1 & _ & H).
    apply IH in H; [done|]. by apply map_Forall_insert_2.
Qed.

(** The steps of a successful [Parse]. *)
Lemma Parse_Ok_inv options input data :
  Parse options input = Ok data ->
  exists header s1 descriptors s2 threads s3 bookmarks,
    readHeader input = Ok (header, s1)
    /\ Signature header = EasyProfilerSignature
    /\ MinCompatibleVersion <= Version header
    /\ readDescriptors (Z.to_nat (DescriptorsCount header)) ∅ s1
       = Ok (descriptors, s2)
    /\ readThreads options header s2 = Ok (threads, s3)
    /\ (if negb (SkipBookmarks options) && (Version210 <=? Version header)
           && (0 <? BookmarksCount header)
        then exists s4, readBookmarks header s3 = Ok (bookmarks, s4)
        else bookmarks = [])
    /\ data = mkProfileData header descriptors threads bookmarks
                (GetBlocksCount threads) (to_int64 (MemorySize header)).
Proof.
  unfold Parse. intros H.
  destruct (bind _ _ input) as [[data' s']|e|] eqn:E; [|done|done].
  injection H as ->.
  apply bind_Ok_inv in E as (header & s1 & Hh & E). apply wrap_Ok_inv in Hh.
  destruct (negb (Signature header =? _)) eqn:Esig; [done|].
  destruct (Version header <? _) eqn:Ever; [done|].
  apply bind_Ok_inv in E as (descriptors & s2 & Hd & E). apply wrap_Ok_inv in Hd.
  apply bind_Ok_inv in E as (threads & s3 & Ht & E). apply wrap_Ok_inv in Ht.
  apply bind_Ok_inv in E as (bookmarks & s4 & Hb & E).
  injection E as <- <-.
  exists header, s1, descriptors, s2, threads, s3, bookmarks.
  split; [done|]. split; [apply negb_false_iff in Esig; lia|].
  split; [lia|]. split; [done|]. split; [done|]. split; [|done].
  destruct (_ && _ && _).
  - apply wrap_Ok_inv in Hb. by exists s4.
  - by injection Hb as <- _.
Qed.

(** X10. A profile that [Parse] returns has passed the header checks and
    carries the derived fields: its header is the decoded header, with the
    signature of the format and a version not below the minimum; the total
    block count is the number of blocks of its threads, and the memory
    figure is the header's memory size reinterpreted as [int64]. *)
Theorem Parse_header_validated (options : ReadOptions) (input : list byte)
    (data : ProfileData) :
  Parse options input = Ok data ->
  (exists rest, readHeader input = Ok (Header data, rest))
  /\ Signature (Header data) = EasyProfilerSignature
  /\ MinCompatibleVersion <= Version (Header data)
  /\ TotalBlocksCount data = GetBlocksCount (Threads data)
  /\ MemoryUsedBytes data = to_int64 (MemorySize (Header data)).
Proof.
  intros H. apply Parse_Ok_inv in H
    as (header & s1 & descriptors & s2 & threads & s3 & bookmarks
        & Hh & Hsig & Hver & _ & _ & _ & ->).
  cbn [Header Threads TotalBlocksCount MemoryUsedBytes].
  split; [by exists s1|]. done.
Qed.

Lemma Parse_header_validated_witness :
  exists data,
    Parse DefaultReadOptions two_thread_capture = Ok data
    /\ (exists rest, readHeader two_thread_capture = Ok (Header data, rest))
    /\ Signature (Header data) = EasyProfilerSignature
    /\ MinCompatibleVersion <= Version (Header data)
    /\ TotalBlocksCount data = GetBlocksCount (Threads data)
    /\ MemoryUsedBytes data = to_int64 (MemorySize (Header data)).
Proof.
  eexists. split; [vm_compute; reflexivity|].
  apply (Parse_header_validated DefaultReadOptions two_thread_capture).
  vm_compute. reflexivity.
Defined.

(** X11. In a profile that [Parse] returns, both tables are keyed by the
    identifiers of their entries: a descriptor is found under its own ID,
    a thread under its own thread identifier. *)
Theorem Parse_tables_keyed_by_id (options : ReadOptions) (input : list byte)
    (data : ProfileData) :
  Parse options input = Ok data ->
  map_Forall (fun k d => BlockDescriptor_ID d = k) (Descriptors data)
  /\ map_Forall (fun k t => ThreadData_ThreadID t = k) (Threads data).
Proof.
  intros H. apply Parse_Ok_inv in H
    as (header & s1 & descriptors & s2 & threads & s3 & bookmarks
        & _ & _ & _ & Hd & Ht & _ & ->).
  cbn [Descriptors Threads]. split.
  - eapply readDescriptors_invariant; [|exact Hd]. apply map_Forall_empty.
  - unfold readThreads in Ht.
    eapply (readThreadsLoop_invariant options _ _
              (fun k t => ThreadData_ThreadID t = k)); [| |exact Ht].
    + intros threadID s t s' Hr. by apply yields_readThread in Hr as [? _].
    + apply map_Forall_empty.
Qed.

Lemma Parse_tables_keyed_by_id_witness :
  exists data,
    Parse DefaultReadOptions two_thread_capture = Ok data
    /\ map_Forall (fun k d => BlockDescriptor_ID d = k) (Descriptors data)
    /\ map_Forall (fun k t => ThreadData_ThreadID t = k) (Threads data).
Proof.
  eexists. split; [vm_compute; reflexivity|].
  apply (Parse_tables_keyed_by_id DefaultReadOptions two_thread_capture).
  vm_compute. reflexivity.
Defined.

(** ** Decoded event trees are flat *)

Lemma countBlocks_flat blocks :
  Forall (fun b => Block_Children b = []) blocks ->
  countBlocks blocks = Z.of_nat (length blocks).
Proof.
  intros H. rewrite countBlocks_eq.
  induction H as [|b bs Hb _ IH]; [done|].
  cbn [length fold_right]. rewrite Hb.
  change (countBlocks []) with 0. lia.
Qed.

Lemma flattenBlock_eq b :
  flattenBlock b = b :: flattenBlocks (Block_Children b).
Proof. by destruct b as [begin end_ id name children]. Qed.

Lemma flattenBlocks_flat blocks :
  Forall (fun b => Block_Children b = []) blocks ->
  flattenBlocks blocks = blocks.
Proof.
  intros H. unfold flattenBlocks.
  induction H as [|b bs Hb _ IH]; [done|].
  cbn [flat_map]. by rewrite flattenBlock_eq, Hb, IH.
Qed.

(** X12. [readBlock] never fills the children of a block, so every
    profile that [Parse] returns is flat: no block of any thread has a
    child, the list of all blocks is the concatenation of the threads'
    top-level blocks, and the total block count is the number of
    top-level blocks. *)
Theorem Parse_blocks_are_flat (options : ReadOptions) (input : list byte)
    (data : ProfileData) :
  Parse options input = Ok data ->
  map_Forall (fun _ t => Forall (fun b => Block_Children b = [])
                           (ThreadData_Blocks t)) (Threads data)
  /\ GetAllBlocks data
     = flat_map (fun kv => ThreadData_Blocks kv.2) (map_to_list (Threads data))
  /\ TotalBlocksCount data
     = fold_right (fun kv acc => Z.of_nat (length (ThreadData_Blocks kv.2)) + acc)
         0 (map_to_list (Threads data)).
Proof.
  intros H. apply Parse_Ok_inv in H
    as (header & s1 & descriptors & s2 & threads & s3 & bookmarks
        & _ & _ & _ & _ & Ht & _ & ->).
  cbn [Threads TotalBlocksCount].
  assert (map_Forall (fun _ t => Forall (fun b => Block_Children b = [])
                                   (ThreadData_Blocks t)) threads) as Hflat.
  { unfold readThreads in Ht.
    eapply (readThreadsLoop_invariant options _ _
              (fun _ t => Forall (fun b => Block_Children b = [])
                            (ThreadData_Blocks t))); [| |exact Ht].
    - intros threadID s t s' Hr. by apply yields_readThread in Hr as (_ & ? & _).
    - apply map_Forall_empty. }
  split; [done|].
  apply map_Forall_to_list in Hflat.
  unfold GetAllBlocks, GetBlocksCount. cbn [Threads].
  induction Hflat as [|[k t] kvs Ht' _ [IH1 IH2]]; [done|].
  cbn [flat_map fold_right]. cbn [snd] in *.
  rewrite flattenBlocks_flat, countBlocks_flat by done.
  by rewrite IH1, IH2.
Qed.

Lemma Parse_blocks_are_flat_witness :
  exists data,
    Parse DefaultReadOptions two_thread_capture = Ok data
    /\ map_Forall (fun _ t => Forall (fun b => Block_Children b = [])
                                (ThreadData_Blocks t)) (Threads data)
    /\ GetAllBlocks data
       = flat_map (fun kv => ThreadData_Blocks kv.2) (map_to_list (Threads data))
    /\ TotalBlocksCount data
       = fold_right (fun kv acc => Z.of_nat (length (ThreadData_Blocks kv.2)) + acc)
           0 (map_to_list (Threads data)).
Proof.
  eexists. split; [vm_compute; reflexivity|].
  apply (Parse_blocks_are_flat DefaultReadOptions two_thread_capture).
  vm_compute. reflexivity.
Defined.

(** ** The skip flags *)




(** ** Where [Parse] can panic *)

Lemma fails_only_short_never_panics {A} (m : Reader A) :
  fails_only_short m -> never_panics m.
Proof. intros H s E. specialize (H s). by rewrite E in H. Qed.

Lemma fails_only_short_readHeader : fails_only_short readHeader.
Proof.
  unfold readHeader, readUint16, readUint32, readUint64, readInt64.
  repeat first
    [ apply fails_only_short_ret
    | apply fails_only_short_readUint
    | apply fails_only_short_bind; [|intros ?]
    | case_match ].
Qed.

Lemma never_panics_readEndSignature threadsRead expectedThreads threads :
  never_panics (readEndSignature threadsRead expectedThreads threads).
Proof.
  intros s. unfold readEndSignature, readUint32.
  pose proof (readUint_Panic 4 s).
  destruct (readUint 4 s) as [[signature s1]|e|]; [| |done].
  - by destruct (signature =? _).
  - by destruct (_ && _).
Qed.

Lemma never_panics_readThreadsLoop options version expectedThreads n :
  forall threadsRead threads,
    never_panics (readThreadsLoop options version expectedThreads n
                    threadsRead threads).
Proof.
  induction n as [|n IH]; intros threadsRead threads s.
  - apply never_panics_readEndSignature.
  - cbn [readThreadsLoop].
    assert (readThreadID version s <> Panic) as Hid.
    { unfold readThreadID, readUint32, readUint64.
      destruct (version <? _); apply readUint_Panic. }
    destruct (readThreadID version s) as [[threadID s1]|e|]; [| |done].
    + destruct (_ && _); [done|].
      pose proof (fails_only_short_wrap "failed to read thread" _
                    (fails_only_short_readThread options threadID) s1) as Ht.
      destruct (wrap _ _ s1) as [[thread s2]|e|]; [|done|done]. apply IH.
    + destruct e; try done. apply never_panics_readEndSignature.
Qed.

Lemma never_panics_readBookmarks header : never_panics (readBookmarks header).
Proof.
  intros s. unfold readBookmarks, bind.
  pose proof (fails_only_short_readN (Z.to_nat (BookmarksCount header)) _
                (fails_only_short_wrap "failed to read bookmark" _
                   fails_only_short_readBookmark) s) as Hn.
  destruct (readN _ _ s) as [[bookmarks s1]|e|]; [|done|done].
  pose proof (readUint_Panic 4 s1) as Hu. unfold readUint32.
  destruct (readUint 4 s1) as [[signature s2]|e|]; [|done|done].
  by destruct (signature =? _).
Qed.

Lemma wrap_Panic_inv {A} ctx (m : Reader A) s : wrap ctx m s = Panic -> m s = Panic.
Proof. unfold wrap. by destruct (m s). Qed.

(** X14. The only place where [Parse] can panic is the descriptor table:
    if [Parse] panics, the header has been decoded and has passed the
    signature and version checks, and it is [readDescriptors] that panics
    on the bytes after the header. The header, the threads and the
    bookmarks never make it panic. *)
Theorem Parse_panics_only_in_descriptors (options : ReadOptions)
    (input : list byte) :
  Parse options input = Panic ->
  exists header rest,
    readHeader input = Ok (header, rest)
    /\ Signature header = EasyProfilerSignature
    /\ MinCompatibleVersion <= Version header
    /\ readDescriptors (Z.to_nat (DescriptorsCount header)) ∅ rest = Panic.
Proof.
  unfold Parse. intros H.
  destruct (bind _ _ input) as [[data' s']|e|] eqn:E; [done|done|]. clear H.
  unfold bind at 1 in E.
  pose proof (fails_only_short_wrap "failed to read header" _
                fails_only_short_readHeader input) as Hh.
  destruct (wrap _ readHeader input) as [[header s1]|e|] eqn:Eh; [|done|done].
  apply wrap_Ok_inv in Eh.
  destruct (negb (Signature header =? _)) eqn:Esig; [done|].
  destruct (Version header <? _) eqn:Ever; [done|].
  exists header, s1. split; [done|].
  split; [apply negb_false_iff in Esig; lia|]. split; [lia|].
  unfold bind at 1 in E.
  destruct (wrap _ (readDescriptors _ _) s1) as [[descriptors s2]|e|] eqn:Ed;
    [|done|by apply wrap_Panic_inv in Ed].
  exfalso. unfold bind at 1 in E.
  destruct (wrap _ (readThreads options header) s2) as [[threads s3]|e|] eqn:Et;
    [|done|].
  - unfold bind at 1 in E.
    destruct (_ && _ && _); [|done].
    destruct (wrap _ (readBookmarks header) s3) as [[bookmarks s4]|e|] eqn:Eb;
      [done|done|].
    apply wrap_Panic_inv in Eb. by apply never_panics_readBookmarks in Eb.
  - apply wrap_Panic_inv in Et. unfold readThreads in Et.
    by apply never_panics_readThreadsLoop in Et.
Qed.

Lemma Parse_panics_only_in_descriptors_witness :
  let input :=
    header_bytes Newest
      (mkFileHeader EasyProfilerSignature Version210 1 0 0 10 0 0 0 1 0 0 0)
    ++ descriptor_bytes 16 1 0 0 1 0 [] [] in
  exists header rest,
    readHeader input = Ok (header, rest)
    /\ Signature header = EasyProfilerSignature
    /\ MinCompatibleVersion <= Version header
    /\ readDescriptors (Z.to_nat (DescriptorsCount header)) ∅ rest = Panic.
Proof.
  intros input.
  apply (Parse_panics_only_in_descriptors DefaultReadOptions input).
  vm_compute. reflexivity.
Defined.

(** ** The thread list of a synthetic capture *)

Lemma readThreadID_width version :
  readThreadID version = readUint (thread_id_width version).
Proof. unfold readThreadID, thread_id_width. by destruct (version <? _). Qed.

Lemma readThreadsLoop_encode options version expectedThreads ts :
  forall n threadsRead threads rest,
    Forall (thread_listed (thread_id_width version) expectedThreads) ts ->
    readThreadsLoop options version expectedThreads (length ts + n) threadsRead
      threads
      (concat (map (encode_thread (thread_id_width version)) ts) ++ rest)
    = readThreadsLoop options version expectedThreads n
        (threadsRead + Z.of_nat (length ts))
        (foldl (fun m t => <[ThreadData_ThreadID t := thread_as_read options t]> m)
           threads ts)
        rest.
Proof.
  induction ts as [|t ts IH]; intros n threadsRead threads rest Hts.
  - cbn [length map concat foldl app Nat.add]. f_equal. simpl. lia.
  - apply Forall_cons in Hts as [(Hfit & Hid & Hsent) Hts].
    cbn [length map concat foldl Nat.add readThreadsLoop].
    unfold encode_thread at 1. rewrite <- !app_assoc.
    rewrite readThreadID_width.
    rewrite readUint_le_bytes.
    2:{ unfold fits in Hid. replace (256 ^ Z.of_nat (thread_id_width version))
          with (2 ^ (8 * Z.of_nat (thread_id_width version))); [done|].
        rewrite Z.pow_mul_r by lia. reflexivity. }
    assert ((to_uint32 (ThreadData_ThreadID t) =? EasyProfilerSignature)
            && (expectedThreads =? 0xFFFFFFFF) = false) as ->.
    { apply andb_false_iff. destruct Hsent as [H|H]; [left|right];
        by apply Z.eqb_neq. }
    rewrite (wrap_Ok _ _ _ _ (readThread_encode options _ t _ Hfit eq_refl)).
    rewrite IH by done. f_equal.
    rewrite Nat2Z.inj_succ. lia.
Qed.

Lemma readEndSignature_signature threadsRead expectedThreads threads rest :
  readEndSignature threadsRead expectedThreads threads
    (le_bytes 4 EasyProfilerSignature ++ rest)
  = Ok (threads, rest).
Proof.
  unfold readEndSignature, readUint32.
  rewrite readUint_le_bytes by (vm_compute; split; congruence).
  by rewrite Z.eqb_refl.
Qed.

Lemma readEndSignature_other threadsRead expectedThreads threads v rest :
  fits 32 v -> v <> EasyProfilerSignature ->
  readEndSignature threadsRead expectedThreads threads (le_bytes 4 v ++ rest)
  = Err (ErrFormat "invalid end signature" v).
Proof.
  intros Hv Hne. unfold readEndSignature, readUint32.
  rewrite readUint_le_bytes by (unfold fits in Hv; simpl; lia).
  by apply Z.eqb_neq in Hne as ->.
Qed.

Lemma readEndSignature_eof_all threads expectedThreads :
  readEndSignature expectedThreads expectedThreads threads [] = Ok (threads, []).
Proof. unfold readEndSignature. simpl. by rewrite Z.eqb_refl. Qed.

Lemma readThreads_newest options header ts rest :
  Version210 <= Version header ->
  ThreadsCount header = Z.of_nat (length ts) ->
  Forall (thread_listed (thread_id_width (Version header)) (ThreadsCount header)) ts ->
  readThreads options header
    (concat (map (encode_thread (thread_id_width (Version header))) ts) ++ rest)
  = readEndSignature (ThreadsCount header) (ThreadsCount header)
      (thread_table options ts) rest.
Proof.
  intros Hver Hcount Hts. unfold readThreads.
  assert ((Version header <? Version210) = false) as -> by lia.
  rewrite Hcount at 2. rewrite Nat2Z.id.
  rewrite <- (Nat.add_0_r (length ts)) at 1.
  rewrite readThreadsLoop_encode by done.
  cbn [readThreadsLoop]. by rewrite Z.add_0_l, <- Hcount.
Qed.

(** X15. The thread list of the newest family (version 2.1.0 and later):
    when the input holds as many well-formed thread records as the header
    counts, the decoded table has every thread under its identifier, a
    later record replacing an earlier one with the same identifier. After
    the records the end signature is consumed, end of input is accepted
    in its place, and any other 32-bit value is the error of an invalid
    end signature. *)
Theorem readThreads_newest_family_end (options : ReadOptions)
    (header : FileHeader) (ts : list ThreadData) (rest : list byte) :
  Version210 <= Version header ->
  ThreadsCount header = Z.of_nat (length ts) ->
  Forall (thread_listed (thread_id_width (Version header)) (ThreadsCount header)) ts ->
  let threads := concat (map (encode_thread (thread_id_width (Version header))) ts) in
  readThreads options header (threads ++ le_bytes 4 EasyProfilerSignature ++ rest)
  = Ok (thread_table options ts, rest)
  /\ readThreads options header (threads ++ []) = Ok (thread_table options ts, [])
  /\ (forall v, fits 32 v -> v <> EasyProfilerSignature ->
        readThreads options header (threads ++ le_bytes 4 v ++ rest)
        = Err (ErrFormat "invalid end signature" v)).
Proof.
  intros Hver Hcount Hts threads. subst threads. split; [|split].
  - rewrite readThreads_newest by done. apply readEndSignature_signature.
  - rewrite readThreads_newest by done. apply readEndSignature_eof_all.
  - intros v Hv Hne. rewrite readThreads_newest by done.
    by apply readEndSignature_other.
Qed.

Lemma readThreads_newest_family_end_witness :
  let header := mkFileHeader EasyProfilerSignature Version210 1 0 0 10 0 0 2 0 2 0 0 in
  let t1 := mkThreadData 1 "main" [] [mkBlock 0 10 1 "a" []] in
  let t2 := mkThreadData 2 "worker" [mkContextSwitch 1 2 2 "idle"] [] in
  let threads := concat (map (encode_thread 8) [t1; t2]) in
  readThreads DefaultReadOptions header (threads ++ le_bytes 4 EasyProfilerSignature ++ [])
  = Ok (thread_table DefaultReadOptions [t1; t2], [])
  /\ readThreads DefaultReadOptions header (threads ++ [])
     = Ok (thread_table DefaultReadOptions [t1; t2], [])
  /\ readThreads DefaultReadOptions header (threads ++ le_bytes 4 7 ++ [])
     = Err (ErrFormat "invalid end signature" 7).
Proof.
  intros header t1 t2 threads.
  assert (Forall (thread_listed (thread_id_width (Version header))
                    (ThreadsCount header)) [t1; t2]) as Hts.
  { repeat constructor; unfold fits; vm_compute; congruence. }
  destruct (readThreads_newest_family_end DefaultReadOptions header [t1; t2] []
              ltac:(vm_compute; congruence) eq_refl Hts) as (H1 & H2 & H3).
  split; [exact H1|]. split; [exact H2|].
  apply H3; [unfold fits; lia | vm_compute; congruence].
Defined.

(** ** The thread list of the older families *)

Lemma readThreads_old options header ts expectedThreads sentinel rest :
  Version header < Version210 ->
  expectedThreads = 0xFFFFFFFF ->
  Z.of_nat (length ts) < expectedThreads ->
  Forall (thread_listed (thread_id_width (Version header)) expectedThreads) ts ->
  fits (8 * Z.of_nat (thread_id_width (Version header))) sentinel ->
  to_uint32 sentinel = EasyProfilerSignature ->
  readThreadsLoop options (Version header) expectedThreads
    (Z.to_nat expectedThreads) 0 ∅
    (concat (map (encode_thread (thread_id_width (Version header))) ts)
     ++ le_bytes (thread_id_width (Version header)) sentinel ++ rest)
  = Ok (thread_table options ts, rest).
Proof.
  intros Hver Hexp Hlen Hts Hfit Hsig.
  replace (Z.to_nat expectedThreads)
    with (length ts + S (Z.to_nat expectedThreads - length ts - 1))%nat by lia.
  rewrite readThreadsLoop_encode by done.
  cbn [readThreadsLoop]. rewrite readThreadID_width.
  rewrite readUint_le_bytes.
  2:{ unfold fits in Hfit.
      replace (256 ^ Z.of_nat (thread_id_width (Version header)))
        with (2 ^ (8 * Z.of_nat (thread_id_width (Version header)))); [done|].
      rewrite Z.pow_mul_r by lia. reflexivity. }
  rewrite Hsig, Z.eqb_refl.
  apply Z.eqb_eq in Hexp as ->. done.
Qed.

(** The 4-byte signature at the end of the input, where an 8-byte thread
    identifier is expected. *)
Lemma readThreads_old_short options header ts expectedThreads :
  Version130 <= Version header ->
  expectedThreads = 0xFFFFFFFF ->
  Z.of_nat (length ts) < expectedThreads ->
  Forall (thread_listed (thread_id_width (Version header)) expectedThreads) ts ->
  readThreadsLoop options (Version header) expectedThreads
    (Z.to_nat expectedThreads) 0 ∅
    (concat (map (encode_thread (thread_id_width (Version header))) ts)
     ++ le_bytes 4 EasyProfilerSignature)
  = Err (ErrWrap "failed to read thread ID" ErrUnexpectedEOF).
Proof.
  intros H130 Hexp Hlen Hts.
  replace (Z.to_nat expectedThreads)
    with (length ts + S (Z.to_nat expectedThreads - length ts - 1))%nat by lia.
  rewrite readThreadsLoop_encode by done.
  cbn [readThreadsLoop]. unfold readThreadID.
  assert ((Version header <? Version130) = false) as -> by lia.
  reflexivity.
Qed.

(** X16. The thread list of the families before version 2.1.0: after
    any number of well-formed thread records, an identifier whose low 32
    bits are the signature ends the list, with every thread in the table.
    The sentinel is read with the width of a thread identifier: from
    version 1.3.0 on it takes 8 bytes, so the 4-byte signature followed by
    end of input is not accepted there, while before 1.3.0 it is. *)
Theorem readThreads_old_family_sentinel (options : ReadOptions)
    (header : FileHeader) (ts : list ThreadData) (sentinel : Z)
    (rest : list byte) :
  Version header < Version210 ->
  Z.of_nat (length ts) < 0xFFFFFFFF ->
  Forall (thread_listed (thread_id_width (Version header)) 0xFFFFFFFF) ts ->
  fits (8 * Z.of_nat (thread_id_width (Version header))) sentinel ->
  to_uint32 sentinel = EasyProfilerSignature ->
  let threads := concat (map (encode_thread (thread_id_width (Version header))) ts) in
  readThreads options header
    (threads ++ le_bytes (thread_id_width (Version header)) sentinel ++ rest)
  = Ok (thread_table options ts, rest)
  /\ (Version130 <= Version header ->
      readThreads options header (threads ++ le_bytes 4 EasyProfilerSignature)
      = Err (ErrWrap "failed to read thread ID" ErrUnexpectedEOF)).
Proof.
  intros Hver Hlen Hts Hfit Hsig threads. subst threads. unfold readThreads.
  rewrite expectedThreads_old by exact Hver. split.
  - apply readThreads_old;
      [exact Hver | reflexivity | exact Hlen | exact Hts | exact Hfit | exact Hsig].
  - intros H130.
    apply readThreads_old_short;
      [exact H130 | reflexivity | exact Hlen | exact Hts].
Qed.

Lemma readThreads_old_family_sentinel_witness :
  let h100 := mkFileHeader EasyProfilerSignature Version100 1 0 0 10 0 0 1 0 0 0 0 in
  let h130 := mkFileHeader EasyProfilerSignature Version130 1 0 0 10 0 0 1 0 0 0 0 in
  let t := mkThreadData 7 "main" [] [mkBlock 0 10 1 "a" []] in
  readThreads DefaultReadOptions h100
    (concat (map (encode_thread 4) [t]) ++ le_bytes 4 EasyProfilerSignature ++ [])
  = Ok (thread_table DefaultReadOptions [t], [])
  /\ readThreads DefaultReadOptions h130
       (concat (map (encode_thread 8) [t]) ++ le_bytes 8 EasyProfilerSignature ++ [])
     = Ok (thread_table DefaultReadOptions [t], [])
  /\ readThreads DefaultReadOptions h130
       (concat (map (encode_thread 8) [t]) ++ le_bytes 4 EasyProfilerSignature)
     = Err (ErrWrap "failed to read thread ID" ErrUnexpectedEOF).
Proof.
  intros h100 h130 t.
  assert (forall h, Version h = Version100 \/ Version h = Version130 ->
            Forall (thread_listed (thread_id_width (Version h)) 0xFFFFFFFF) [t])
    as Hts.
  { intros h [E|E]; rewrite E; repeat constructor; unfold fits;
      vm_compute; congruence. }
  split; [|split].
  - apply (proj1 (readThreads_old_family_sentinel DefaultReadOptions h100 [t]
                    EasyProfilerSignature []
                    ltac:(vm_compute; reflexivity) ltac:(vm_compute; reflexivity)
                    (Hts h100 (or_introl eq_refl))
                    ltac:(unfold fits; vm_compute; split; congruence)
                    ltac:(vm_compute; reflexivity))).
  - apply (proj1 (readThreads_old_family_sentinel DefaultReadOptions h130 [t]
                    EasyProfilerSignature []
                    ltac:(vm_compute; reflexivity) ltac:(vm_compute; reflexivity)
                    (Hts h130 (or_intror eq_refl))
                    ltac:(unfold fits; vm_compute; split; congruence)
                    ltac:(vm_compute; reflexivity))).
  - apply (proj2 (readThreads_old_family_sentinel DefaultReadOptions h130 [t]
                    EasyProfilerSignature []
                    ltac:(vm_compute; reflexivity) ltac:(vm_compute; reflexivity)
                    (Hts h130 (or_intror eq_refl))
                    ltac:(unfold fits; vm_compute; split; congruence)
                    ltac:(vm_compute; reflexivity))).
    vm_compute. congruence.
Defined.

(** ** Whole captures *)

Lemma readHeader_header_bytes (h : FileHeader) (rest : list byte) :
  header_fits (family_of_version (Version h)) h ->
  readHeader (header_bytes (family_of_version (Version h)) h ++ rest)
  = Ok (h, rest).
Proof.
  destruct h as [sig ver pid cpu bt et ms dms bc dc tc bkc pad].
  unfold header_fits, family_of_version, header_bytes; cbn [Signature Version PID
    CPUFrequency BeginTime EndTime MemorySize DescriptorsMemorySize BlocksCount
    DescriptorsCount ThreadsCount BookmarksCount Padding].
  intros H. unfold readHeader.
  rewrite <- !app_assoc.
  destruct (ver <? Version130) eqn:E130.
  - assert ((ver <? Version200) = true) as E200
      by (apply Z.ltb_lt; apply Z.ltb_lt in E130; unfold Version130, Version200 in *; lia).
    destruct H as (?&?&?&?&?&?&?&?&?&?&->&->&->).
    rewrite <- !app_assoc.
    do 2 read_field. rewrite E130. do 4 read_field. rewrite E200.
    do 4 read_field. done.
  - destruct (ver <? Version200) eqn:E200.
    + destruct H as (?&?&?&?&?&?&?&?&?&?&->&->&->).
      rewrite <- !app_assoc.
      do 2 read_field. rewrite E130. do 4 read_field. rewrite E200.
      do 4 read_field. done.
    + destruct (ver <? Version210) eqn:E210.
      * assert ((Version210 <=? ver) = false) as E210' by lia.
        destruct H as (?&?&?&?&?&?&?&?&?&?&->&->&->).
        rewrite <- !app_assoc.
        do 2 read_field. rewrite E130. do 4 read_field. rewrite E200.
        do 4 read_field. rewrite E210'. done.
      * assert ((Version210 <=? ver) = true) as E210' by lia.
        destruct H as (?&?&?&?&?&?&?&?&?&?&?&?&?).
        rewrite <- !app_assoc.
        do 2 read_field. rewrite E130. do 4 read_field. rewrite E200.
        do 4 read_field. rewrite E210'. do 3 read_field. done.
Qed.

(** The steps of [Parse], composed. *)
Lemma Parse_Ok_intro options input header s1 descriptors s2 threads s3 bookmarks :
  readHeader input = Ok (header, s1) ->
  Signature header = EasyProfilerSignature ->
  MinCompatibleVersion <= Version header ->
  readDescriptors (Z.to_nat (DescriptorsCount header)) ∅ s1 = Ok (descriptors, s2) ->
  readThreads options header s2 = Ok (threads, s3) ->
  (if negb (SkipBookmarks options) && (Version210 <=? Version header)
      && (0 <? BookmarksCount header)
   then exists s4, readBookmarks header s3 = Ok (bookmarks, s4)
   else bookmarks = []) ->
  Parse options input
  = Ok (mkProfileData header descriptors threads bookmarks
          (GetBlocksCount threads) (to_int64 (MemorySize header))).
Proof.
  intros Hh Hsig Hver Hd Ht Hb. unfold Parse.
  rewrite (bind_Ok _ _ _ header s1) by by apply wrap_Ok.
  rewrite Hsig, Z.eqb_refl. cbn [negb].
  assert ((Version header <? MinCompatibleVersion) = false) as -> by lia.
  rewrite (bind_Ok _ _ _ descriptors s2) by by apply wrap_Ok.
  rewrite (bind_Ok _ _ _ threads s3) by by apply wrap_Ok.
  destruct (_ && _ && _).
  - destruct Hb as [s4 Hb].
    by rewrite (bind_Ok _ _ _ bookmarks s4) by by apply wrap_Ok.
  - by subst bookmarks.
Qed.

Lemma thread_id_width_newest version :
  Version210 <= version -> thread_id_width version = 8%nat.
Proof.
  intros H. unfold thread_id_width.
  assert ((version <? Version130) = false) as ->; [|done].
  unfold Version130, Version210 in *. lia.
Qed.

(** X17. A whole capture of the newest family is decoded to the model
    it stores: the header in its layout, as many descriptor, thread and
    bookmark records as the header counts, the end signature after the
    threads and after the bookmarks. The tables hold the last record of
    each identifier; with [SkipContextSwitches] the threads have no
    context switches, with [SkipBookmarks] the bookmarks are not read. *)
Theorem Parse_roundtrip_newest (options : ReadOptions) (h : FileHeader)
    (ds : list BlockDescriptor) (ts : list ThreadData) (bs : list Bookmark)
    (rest : list byte) :
  header_fits (family_of_version (Version h)) h ->
  Signature h = EasyProfilerSignature ->
  Version210 <= Version h ->
  DescriptorsCount h = Z.of_nat (length ds) ->
  ThreadsCount h = Z.of_nat (length ts) ->
  BookmarksCount h = Z.of_nat (length bs) ->
  Forall descriptor_fits ds ->
  Forall (thread_listed (thread_id_width (Version h)) (ThreadsCount h)) ts ->
  Forall bookmark_fits bs ->
  Parse options
    (capture_bytes h ds ts
       (le_bytes 4 EasyProfilerSignature ++ concat (map encode_bookmark bs)
        ++ le_bytes 4 EasyProfilerSignature ++ rest))
  = Ok (mkProfileData h (descriptor_table ds) (thread_table options ts)
          (if SkipBookmarks options then [] else bs)
          (GetBlocksCount (thread_table options ts))
          (to_int64 (MemorySize h))).
Proof.
  intros Hfit Hsig Hver Hdc Htc Hbc Hds Hts Hbs. unfold capture_bytes.
  eapply Parse_Ok_intro.
  - by apply readHeader_header_bytes.
  - done.
  - unfold MinCompatibleVersion, Version210 in *. lia.
  - rewrite Hdc, Nat2Z.id. by apply readDescriptors_encode.
  - rewrite readThreads_newest by done. apply readEndSignature_signature.
  - assert ((Version210 <=? Version h) = true) as -> by lia.
    rewrite andb_true_r.
    destruct (SkipBookmarks options); cbn [negb andb]; [done|].
    destruct (0 <? BookmarksCount h) eqn:E.
    + exists rest. rewrite readBookmarks_records by done.
      unfold readUint32. rewrite bind_readUint by (vm_compute; split; congruence).
      reflexivity.
    + destruct bs; [done|]. simpl in Hbc. lia.
Qed.

Lemma Parse_roundtrip_newest_witness :
  let h := mkFileHeader EasyProfilerSignature Version210 1234 1000 0 100
             4096 64 3 2 2 1 0 in
  let ds := [mkBlockDescriptor 1 10 0 1 0 "Update" "game.cpp";
             mkBlockDescriptor 2 20 0 1 0 "Render" "draw.cpp"] in
  let ts := [mkThreadData 1 "main" [mkContextSwitch 1 2 1 "idle"]
               [mkBlock 0 10 1 EmptyString []; mkBlock 10 30 2 "frame" []];
             mkThreadData 2 "worker" [] [mkBlock 5 9 1 EmptyString []]] in
  let bs := [mkBookmark 5 0xFF00FF00 "start"] in
  Parse FastReadOptions
    (capture_bytes h ds ts
       (le_bytes 4 EasyProfilerSignature ++ concat (map encode_bookmark bs)
        ++ le_bytes 4 EasyProfilerSignature ++ []))
  = Ok (mkProfileData h (descriptor_table ds) (thread_table FastReadOptions ts)
          (if SkipBookmarks FastReadOptions then [] else bs)
          (GetBlocksCount (thread_table FastReadOptions ts))
          (to_int64 (MemorySize h))).
Proof.
  intros h ds ts bs.
  apply (Parse_roundtrip_newest FastReadOptions h ds ts bs []).
  - unfold header_fits, fits. vm_compute. repeat split; congruence.
  - reflexivity.
  - vm_compute. congruence.
  - reflexivity.
  - reflexivity.
  - reflexivity.
  - repeat constructor; unfold fits; vm_compute; congruence.
  - repeat constructor; unfold fits; vm_compute; congruence.
  - repeat constructor; unfold fits; vm_compute; congruence.
Defined.

Lemma readThreads_old_sentinel options header ts sentinel rest :
  Version header < Version210 ->
  Z.of_nat (length ts) < 0xFFFFFFFF ->
  Forall (thread_listed (thread_id_width (Version header)) 0xFFFFFFFF) ts ->
  fits (8 * Z.of_nat (thread_id_width (Version header))) sentinel ->
  to_uint32 sentinel = EasyProfilerSignature ->
  readThreads options header
    (concat (map (encode_thread (thread_id_width (Version header))) ts)
     ++ le_bytes (thread_id_width (Version header)) sentinel ++ rest)
  = Ok (thread_table options ts, rest).
Proof.
  intros Hver Hlen Hts Hfit Hsig. unfold readThreads.
  rewrite expectedThreads_old by exact Hver.
  apply readThreads_old;
    [exact Hver | reflexivity | exact Hlen | exact Hts | exact Hfit | exact Hsig].
Qed.

(** X18. A whole capture of a family before version 2.1.0 is decoded to
    the model it stores: the header in the layout of its version, as many
    descriptor records as it counts, any number of thread records with
    identifiers of the width of the version, and the end sentinel. There
    are no bookmarks. *)
Theorem Parse_roundtrip_old (options : ReadOptions) (h : FileHeader)
    (ds : list BlockDescriptor) (ts : list ThreadData) (sentinel : Z)
    (rest : list byte) :
  header_fits (family_of_version (Version h)) h ->
  Signature h = EasyProfilerSignature ->
  MinCompatibleVersion <= Version h < Version210 ->
  DescriptorsCount h = Z.of_nat (length ds) ->
  Z.of_nat (length ts) < 0xFFFFFFFF ->
  Forall descriptor_fits ds ->
  Forall (thread_listed (thread_id_width (Version h)) 0xFFFFFFFF) ts ->
  fits (8 * Z.of_nat (thread_id_width (Version h))) sentinel ->
  to_uint32 sentinel = EasyProfilerSignature ->
  Parse options
    (capture_bytes h ds ts
       (le_bytes (thread_id_width (Version h)) sentinel ++ rest))
  = Ok (mkProfileData h (descriptor_table ds) (thread_table options ts) []
          (GetBlocksCount (thread_table options ts))
          (to_int64 (MemorySize h))).
Proof.
  intros Hfit Hsig [Hmin Hver] Hdc Hlen Hds Hts Hsfit Hssig. unfold capture_bytes.
  eapply Parse_Ok_intro.
  - by apply readHeader_header_bytes.
  - done.
  - done.
  - rewrite Hdc, Nat2Z.id. by apply readDescriptors_encode.
  - by apply readThreads_old_sentinel.
  - assert ((Version210 <=? Version h) = false) as -> by lia.
    by rewrite andb_false_r.
Qed.

Lemma Parse_roundtrip_old_witness :
  let h := mkFileHeader EasyProfilerSignature Version100 1234 1000 0 100
             4096 64 2 1 0 0 0 in
  let ds := [mkBlockDescriptor 1 10 0 1 0 "Update" "game.cpp"] in
  let ts := [mkThreadData 7 "main" [mkContextSwitch 1 2 7 "idle"]
               [mkBlock 0 10 1 EmptyString []; mkBlock 10 30 1 "frame" []]] in
  Parse DefaultReadOptions
    (capture_bytes h ds ts (le_bytes 4 EasyProfilerSignature ++ []))
  = Ok (mkProfileData h (descriptor_table ds) (thread_table DefaultReadOptions ts) []
          (GetBlocksCount (thread_table DefaultReadOptions ts))
          (to_int64 (MemorySize h))).
Proof.
  intros h ds ts.
  apply (Parse_roundtrip_old DefaultReadOptions h ds ts EasyProfilerSignature []).
  - unfold header_fits, fits. vm_compute. repeat split; congruence.
  - reflexivity.
  - vm_compute. split; congruence.
  - reflexivity.
  - vm_compute. reflexivity.
  - repeat constructor; unfold fits; vm_compute; congruence.
  - repeat constructor; unfold fits; vm_compute; congruence.
  - unfold fits. vm_compute. split; congruence.
  - vm_compute. reflexivity.
Defined.

(** ** Inputs that are not captures *)

Lemma only_short_reads_readHeader : only_short_reads readHeader.
Proof.
  unfold readHeader, readUint16, readUint32, readUint64, readInt64.
  repeat first
    [ apply only_short_reads_ret
    | apply only_short_reads_readUint
    | apply only_short_reads_bind; [|intros ?]
    | case_match ].
Qed.

Lemma readHeader_Ok_signature s h s' :
  readHeader s = Ok (h, s') ->
  Signature h = le_uint (take 4 s) /\ Version h = le_uint (take 4 (drop 4 s)).
Proof.
  unfold readHeader, readUint32. intros H.
  apply bind_Ok_inv in H as (signature & s1 & H1 & H).
  apply readUint_Ok_inv in H1 as (_ & -> & ->).
  apply bind_Ok_inv in H as (version & s2 & H2 & H).
  apply readUint_Ok_inv in H2 as (_ & -> & ->).
  revert H. generalize (drop 4 (drop 4 s)). intros s2 H.
  eapply (yields_bind (fun h => Signature h = le_uint (take 4 s)
                                /\ Version h = le_uint (take 4 (drop 4 s))));
    [|exact H].
  intros pid.
  repeat first
    [ by apply yields_ret
    | apply yields_bind; intros ?
    | case_match ].
Qed.

(** X19. An input that does not begin with the signature of the format,
    or whose version field is below the minimum, is never decoded: on
    every such input, whatever follows the first bytes, [Parse] returns an
    error, never a profile and never a panic. The error is that of the
    header being cut short, of the invalid signature, or of the
    unsupported version, and the signature is checked before the version. *)
Theorem Parse_rejects_foreign_input (options : ReadOptions) (input : list byte) :
  le_uint (take 4 input) <> EasyProfilerSignature
  \/ le_uint (take 4 (drop 4 input)) < MinCompatibleVersion ->
  exists e,
    Parse options input = Err e
    /\ (e = ErrWrap "failed to read header" EOF
        \/ e = ErrWrap "failed to read header" ErrUnexpectedEOF
        \/ (e = ErrFormat "invalid file signature" (le_uint (take 4 input))
            /\ le_uint (take 4 input) <> EasyProfilerSignature)
        \/ (e = ErrFormat "unsupported version" (le_uint (take 4 (drop 4 input)))
            /\ le_uint (take 4 input) = EasyProfilerSignature)).
Proof.
  intros Hbad. unfold Parse, bind at 1, wrap at 1.
  pose proof (only_short_reads_readHeader input) as Hshort.
  pose proof (fails_only_short_readHeader input) as Hpanic.
  destruct (readHeader input) as [[header s1]|e|] eqn:Eh; [| |done].
  - apply readHeader_Ok_signature in Eh as [Hsig Hver]. rewrite Hsig, Hver.
    destruct (le_uint (take 4 input) =? EasyProfilerSignature) eqn:E; cbn [negb].
    + apply Z.eqb_eq in E.
      destruct Hbad as [Hbad|Hbad]; [done|].
      assert ((le_uint (take 4 (drop 4 input)) <? MinCompatibleVersion) = true)
        as -> by lia.
      eexists. split; [done|]. by do 3 right.
    + apply Z.eqb_neq in E. eexists. split; [done|]. right. right. by left.
  - eexists. split; [done|].
    destruct Hshort as [->| ->]; [by left | right; by left].
Qed.

Lemma Parse_rejects_foreign_input_witness :
  let riff := [x52; x49; x46; x46; x10; x00; x00; x00; x57; x41; x56; x45] in
  exists e,
    Parse DefaultReadOptions riff = Err e
    /\ (e = ErrWrap "failed to read header" EOF
        \/ e = ErrWrap "failed to read header" ErrUnexpectedEOF
        \/ (e = ErrFormat "invalid file signature" (le_uint (take 4 riff))
            /\ le_uint (take 4 riff) <> EasyProfilerSignature)
        \/ (e = ErrFormat "unsupported version" (le_uint (take 4 (drop 4 riff)))
            /\ le_uint (take 4 riff) = EasyProfilerSignature)).
Proof.
  intros riff.
  apply (Parse_rejects_foreign_input DefaultReadOptions riff).
  left. vm_compute. congruence.
Defined.

(** ** types.go: all blocks *)

Lemma length_flattenBlock b :
  Z.of_nat (length (flattenBlock b)) = countBlock b.
Proof.
  induction b as [begin end_ id name children IH] using Block_ind'.
  rewrite flattenBlock_eq, countBlock_eq. cbn [length Block_Children].
  rewrite Nat2Z.inj_succ. unfold flattenBlocks, countBlocks.
  induction IH as [|c cs Hc _ IHcs]; [done|].
  cbn [flat_map fold_right]. rewrite length_app, Nat2Z.inj_add. lia.
Qed.

Lemma length_flattenBlocks blocks :
  Z.of_nat (length (flattenBlocks blocks)) = countBlocks blocks.
Proof.
  unfold flattenBlocks, countBlocks.
  induction blocks as [|b bs IH]; [done|].
  cbn [flat_map fold_right].
  rewrite length_app, Nat2Z.inj_add, length_flattenBlock. lia.
Qed.

(** The analysed blocks of a list are the blocks of the flattened list,
    one entry each, in the same order. *)
Lemma analyzeBlock_flatten p threadID threadName b :
  map BlockInfo_Duration (analyzeBlock p threadID threadName b)
  = map Block_Duration (flattenBlock b).
Proof.
  induction b as [begin end_ id name children IH] using Block_ind'.
  rewrite analyzeBlock_eq, flattenBlock_eq.
  cbn [map BlockInfo_Duration Block_Children]. f_equal.
  unfold analyzeBlocksRecursive, flattenBlocks.
  induction IH as [|c cs Hc _ IHcs]; [done|].
  cbn [flat_map]. by rewrite !map_app, Hc, IHcs.
Qed.

Lemma analyzeBlocksRecursive_flatten p blocks threadID threadName :
  map BlockInfo_Duration (analyzeBlocksRecursive p blocks threadID threadName)
  = map Block_Duration (flattenBlocks blocks).
Proof.
  unfold analyzeBlocksRecursive, flattenBlocks.
  induction blocks as [|b bs IH]; [done|].
  cbn [flat_map]. by rewrite !map_app, analyzeBlock_flatten, IH.
Qed.

(** X20. The accessors of the model agree: the flat list of all blocks
    has as many elements as [GetBlocksCount] counts (nested children
    included), for every model, and the thread count is the number of
    entries of the thread table. *)
Theorem GetAllBlocks_length (p : ProfileData) :
  Z.of_nat (length (GetAllBlocks p)) = GetBlocksCount (Threads p)
  /\ GetThreadCount p = Z.of_nat (length (map_to_list (Threads p))).
Proof.
  split.
  - unfold GetAllBlocks, GetBlocksCount.
    induction (map_to_list (Threads p)) as [|kv kvs IH]; [done|].
    cbn [flat_map fold_right].
    rewrite length_app, Nat2Z.inj_add, length_flattenBlocks. lia.
  - unfold GetThreadCount. by rewrite length_map_to_list.
Qed.

(** ** analyzer.go: the slowest blocks are the slowest *)

Lemma allBlocks_durations p (threads : list (Z * ThreadData)) :
  map BlockInfo_Duration
    (flat_map (fun kv => analyzeBlocksRecursive p (ThreadData_Blocks kv.2) kv.1
                           (ThreadData_ThreadName kv.2)) threads)
  = map Block_Duration
      (flat_map (fun kv => flattenBlocks (ThreadData_Blocks kv.2)) threads).
Proof.
  induction threads as [|kv kvs IH]; [done|].
  cbn [flat_map]. by rewrite !map_app, analyzeBlocksRecursive_flatten, IH.
Qed.

Lemma Sorted_desc_split {A} (key : A -> Z) n l :
  Sorted (desc_by key) l ->
  Forall (fun x => Forall (fun y => key y <= key x) (drop n l)) (take n l).
Proof.
  intros H. apply Sorted_StronglySorted in H; [|apply _].
  rewrite <- (take_drop n l) in H.
  apply Forall_forall. intros x Hx. apply Forall_forall. intros y Hy.
  by apply (StronglySorted_app_1_elem_of (desc_by key) _ _ x y H).
Qed.

(** X21. The slowest-blocks query ranks every block of every thread,
    nested children included: for a limit [N >= 0] the durations it returns,
    together with the durations it leaves out, are a rearrangement of the
    durations of all blocks of the capture, and no block left out lasted
    longer than a block returned. *)
Theorem GetSlowestBlocks_are_the_slowest (p : ProfileData) (limit : Z) :
  0 <= limit ->
  exists l others,
    GetSlowestBlocks p limit = Ok l
    /\ map BlockInfo_Duration (l ++ others)
       ≡ₚ map Block_Duration (GetAllBlocks p)
    /\ Forall (fun x =>
         Forall (fun y => BlockInfo_Duration y <= BlockInfo_Duration x) others) l.
Proof.
  intros Hlimit. unfold GetSlowestBlocks.
  set (allBlocks := flat_map _ _).
  set (sorted := sort_slice _ allBlocks).
  rewrite clamp_limit_nonneg by lia.
  rewrite slice_to_nonneg by lia.
  set (n := Z.to_nat _).
  exists (take n sorted), (drop n sorted). split; [done|]. split.
  - rewrite take_drop. unfold sorted. rewrite sort_slice_Permutation.
    unfold allBlocks, GetAllBlocks. by rewrite allBlocks_durations.
  - apply Sorted_desc_split, sort_slice_desc.
Qed.

Lemma GetSlowestBlocks_are_the_slowest_witness :
  exists l others,
    GetSlowestBlocks two_calls_profile 1 = Ok l
    /\ map BlockInfo_Duration (l ++ others)
       ≡ₚ map Block_Duration (GetAllBlocks two_calls_profile)
    /\ Forall (fun x =>
         Forall (fun y => BlockInfo_Duration y <= BlockInfo_Duration x) others) l.
Proof. apply (GetSlowestBlocks_are_the_slowest two_calls_profile 1). lia. Defined.

(** ** analyzer.go: long blocks *)

Lemma findLongBlock_eq threshold b :
  findLongBlock threshold b
  = (if Block_Duration b >? threshold then [b] else [])
    ++ findLongBlocks (Block_Children b) threshold.
Proof. by destruct b as [begin end_ id name children]. Qed.

Lemma findLongBlock_flatten threshold b :
  findLongBlock threshold b
  = filter (fun x => threshold < Block_Duration x) (flattenBlock b).
Proof.
  induction b as [begin end_ id name children IH] using Block_ind'.
  rewrite findLongBlock_eq, flattenBlock_eq. cbn [Block_Children].
  rewrite filter_cons.
  assert (findLongBlocks children threshold
          = filter (fun x => threshold < Block_Duration x) (flattenBlocks children))
    as ->.
  { unfold findLongBlocks, flattenBlocks.
    induction IH as [|c cs Hc _ IHcs]; [done|].
    cbn [flat_map]. by rewrite filter_app, Hc, IHcs. }
  destruct (decide _) as [Hgt|Hle].
  - by assert ((Block_Duration (mkBlock begin end_ id name children) >? threshold)
               = true) as -> by lia.
  - by assert ((Block_Duration (mkBlock begin end_ id name children) >? threshold)
               = false) as -> by lia.
Qed.

Lemma findLongBlocks_flatten blocks threshold :
  findLongBlocks blocks threshold
  = filter (fun b => threshold < Block_Duration b) (flattenBlocks blocks).
Proof.
  unfold findLongBlocks, flattenBlocks.
  induction blocks as [|b bs IH]; [done|].
  cbn [flat_map]. by rewrite filter_app, findLongBlock_flatten, IH.
Qed.

(** X22. [findLongBlocks] returns exactly the blocks of the flattened
    tree (each block followed by its descendants) whose duration exceeds
    the threshold, in that order: a long block nested in a long block is
    returned as well, and a block of exactly the threshold is not. *)
Theorem findLongBlocks_filter (blocks : list Block) (threshold : Z) :
  findLongBlocks blocks threshold
  = filter (fun b => threshold < Block_Duration b) (flattenBlocks blocks).
Proof. apply findLongBlocks_flatten. Qed.

Lemma detectLongBlocks_durations p (threads : list (Z * ThreadData)) :
  map PerformanceIssue_Duration
    (flat_map (fun kv => map (longBlockIssue p kv.1 kv.2)
                           (findLongBlocks (ThreadData_Blocks kv.2)
                              (100 * Millisecond))) threads)
  = map Block_Duration
      (filter (fun b => 100 * Millisecond < Block_Duration b)
         (flat_map (fun kv => flattenBlocks (ThreadData_Blocks kv.2)) threads)).
Proof.
  induction threads as [|kv kvs IH]; [done|].
  cbn [flat_map]. rewrite filter_app, !map_app, IH. f_equal.
  rewrite map_map. cbn [longBlockIssue PerformanceIssue_Duration].
  by rewrite findLongBlocks_flatten.
Qed.

Lemma elem_of_detectLongBlocks p issue :
  issue ∈ detectLongBlocks p ->
  exists threadID thread block,
    Threads p !! threadID = Some thread
    /\ 100 * Millisecond < Block_Duration block
    /\ issue = longBlockIssue p threadID thread block.
Proof.
  unfold detectLongBlocks. intros Hi.
  apply list_elem_of_In, in_flat_map in Hi as ([threadID thread] & Hkv & Hi).
  apply in_map_iff in Hi as (block & <- & Hb).
  rewrite findLongBlocks_flatten in Hb.
  apply list_elem_of_In, list_elem_of_filter in Hb as [Hlong _].
  apply list_elem_of_In, elem_of_map_to_list in Hkv.
  by exists threadID, thread, block.
Qed.

(** X23. [detectLongBlocks] reports one issue for every block of the
    capture, nested blocks included, that lasted more than 100 ms, and
    nothing else. Every issue carries the duration of its block and the
    identifier and the name of a thread of the capture, and its severity is
    high when the block lasted more than 500 ms and medium otherwise. *)
Theorem detectLongBlocks_rule (p : ProfileData) :
  map PerformanceIssue_Duration (detectLongBlocks p)
  ≡ₚ map Block_Duration
       (filter (fun b => 100 * Millisecond < Block_Duration b) (GetAllBlocks p))
  /\ Forall (fun issue =>
       PerformanceIssue_Type issue = "Long Blocking Operation"
       /\ 100 * Millisecond < PerformanceIssue_Duration issue
       /\ PerformanceIssue_Severity issue
          = (if PerformanceIssue_Duration issue >? 500 * Millisecond
             then "high" else "medium")
       /\ exists thread,
            Threads p !! PerformanceIssue_ThreadID issue = Some thread
            /\ PerformanceIssue_ThreadName issue = ThreadData_ThreadName thread)
     (detectLongBlocks p).
Proof.
  split.
  - unfold detectLongBlocks, GetAllBlocks. cbn zeta.
    by rewrite detectLongBlocks_durations.
  - apply Forall_forall. intros issue Hi.
    apply elem_of_detectLongBlocks in Hi
      as (threadID & thread & block & Ht & Hlong & ->).
    cbn [longBlockIssue PerformanceIssue_Type PerformanceIssue_Duration
         PerformanceIssue_Severity PerformanceIssue_ThreadID
         PerformanceIssue_ThreadName].
    split; [done|]. split; [done|]. split; [done|]. by exists thread.
Qed.

(** ** analyzer.go: context switches *)






(** ** analyzer.go: hot functions and the issue report *)


Lemma GetHotspots_ten p :
  exists hotspots, GetHotspots p 10 = Ok hotspots /\ (length hotspots <= 10)%nat.
Proof.
  unfold GetHotspots.
  rewrite clamp_limit_nonneg by lia. rewrite slice_to_nonneg by lia.
  eexists. split; [done|]. rewrite length_take. lia.
Qed.

Lemma hotFunctionIssue_shape totalDuration hotspot :
  (length (hotFunctionIssue totalDuration hotspot) <= 1)%nat
  /\ Forall (fun issue =>
       PerformanceIssue_Type issue = "Hot Function"
       /\ known_severity (PerformanceIssue_Severity issue)
       /\ PerformanceIssue_Duration issue = BlockInfo_Duration hotspot
       /\ PerformanceIssue_ThreadID issue = 0)
     (hotFunctionIssue totalDuration hotspot).
Proof.
  unfold hotFunctionIssue, known_severity. cbn zeta.
  destruct (float64_gt _ float64_0_10); [|split; [cbn; lia|constructor]].
  split; [cbn; lia|]. constructor; [|constructor].
  cbn [PerformanceIssue_Type PerformanceIssue_Severity PerformanceIssue_Duration
       PerformanceIssue_ThreadID].
  split; [done|]. split; [|done].
  destruct (float64_gt _ float64_0_3); [by left|].
  destruct (float64_gt _ float64_0_2); [right; by left | right; by right].
Qed.

Lemma detectHotFunctions_shape p :
  exists hot,
    detectHotFunctions p = Ok hot
    /\ (length hot <= 10)%nat
    /\ Forall (fun issue =>
         PerformanceIssue_Type issue = "Hot Function"
         /\ known_severity (PerformanceIssue_Severity issue)
         /\ PerformanceIssue_ThreadID issue = 0) hot.
Proof.
  unfold detectHotFunctions. cbn zeta.
  destruct (GetHotspots_ten p) as (hotspots & -> & Hlen).
  eexists. split; [done|].
  generalize (GetTotalDuration p). intros totalDuration.
  assert ((length (flat_map (hotFunctionIssue totalDuration) hotspots)
           <= length hotspots)%nat
          /\ Forall (fun issue =>
               PerformanceIssue_Type issue = "Hot Function"
               /\ known_severity (PerformanceIssue_Severity issue)
               /\ PerformanceIssue_ThreadID issue = 0)
             (flat_map (hotFunctionIssue totalDuration) hotspots)) as [H1 H2].
  { clear Hlen. induction hotspots as [|h hs [IH1 IH2]]; [by split|].
    cbn [flat_map length].
    destruct (hotFunctionIssue_shape totalDuration h) as [Hone Hall].
    split.
    - rewrite length_app. lia.
    - apply Forall_app. split; [|done].
      eapply Forall_impl; [exact Hall|]. intros issue (?&?&?&?). done. }
  split; [lia|done].
Qed.

(** X26. [detectHotFunctions] looks at the ten hotspots of the largest
    total duration only: it always returns (the limit it passes is not
    negative), reports at most ten issues, each of type Hot Function with
    one of the severities high, medium and low, and attributes none to a
    thread. *)
Theorem detectHotFunctions_bounded (p : ProfileData) :
  exists hot,
    detectHotFunctions p = Ok hot
    /\ (length hot <= 10)%nat
    /\ Forall (fun issue =>
         PerformanceIssue_Type issue = "Hot Function"
         /\ known_severity (PerformanceIssue_Severity issue)
         /\ PerformanceIssue_ThreadID issue = 0) hot.
Proof. apply detectHotFunctions_shape. Qed.





(** ** analyzer.go: thread statistics *)

Lemma block_counts_Permutation l l' :
  l ≡ₚ l' -> block_counts l = block_counts l'.
Proof.
  unfold block_counts.
  induction 1 as [|x l l' _ IH|x y l|l l' l'' _ IH1 _ IH2]; cbn [foldr]; lia.
Qed.

Lemma block_counts_threadStats totalDuration (threads : list (Z * ThreadData)) :
  block_counts (map (threadStats totalDuration) threads)
  = fold_right (fun kv acc => countBlocks (ThreadData_Blocks kv.2) + acc) 0 threads.
Proof.
  induction threads as [|kv kvs IH]; [done|].
  cbn [map fold_right]. unfold block_counts in *. cbn [foldr]. rewrite IH.
  done.
Qed.

(** X28. The thread statistics have one entry for every thread of the
    capture, sorted by total duration, largest first. An entry carries the
    identifier and the name of its thread, the number of its context
    switches, the count of all its blocks, nested blocks included, and as
    total duration the sum of the durations of its top-level blocks only
    (on [int64]). The block counts of the entries add up to the number of
    blocks of the capture. *)
Theorem GetThreadStatistics_per_thread (p : ProfileData) :
  Sorted (desc_by ThreadStats_TotalDuration) (GetThreadStatistics p)
  /\ Z.of_nat (length (GetThreadStatistics p)) = GetThreadCount p
  /\ block_counts (GetThreadStatistics p) = GetBlocksCount (Threads p)
  /\ Forall (fun s =>
       exists thread,
         Threads p !! ThreadStats_ThreadID s = Some thread
         /\ ThreadStats_ThreadName s = ThreadData_ThreadName thread
         /\ ThreadStats_ContextSwitches s
            = Z.of_nat (length (ThreadData_ContextSwitches thread))
         /\ ThreadStats_BlockCount s = countBlocks (ThreadData_Blocks thread)
         /\ ThreadStats_TotalDuration s
            = to_int64 (top_level_total (ThreadData_Blocks thread)))
     (GetThreadStatistics p).
Proof.
  split; [apply sort_slice_desc|]. split; [|split].
  - unfold GetThreadCount. by rewrite length_GetThreadStatistics.
  - unfold GetThreadStatistics, GetBlocksCount.
    rewrite (block_counts_Permutation _ _ (sort_slice_Permutation _ _)).
    apply block_counts_threadStats.
  - unfold GetThreadStatistics. rewrite sort_slice_Permutation.
    apply Forall_forall. intros s Hs.
    apply list_elem_of_In, in_map_iff in Hs as ([threadID thread] & <- & Hkv).
    apply list_elem_of_In, elem_of_map_to_list in Hkv.
    exists thread. cbn [threadStats ThreadStats_ThreadID ThreadStats_ThreadName
      ThreadStats_ContextSwitches ThreadStats_BlockCount
      ThreadStats_TotalDuration fst snd].
    split; [done|]. split; [done|]. split; [done|]. split; [done|].
    apply calculateThreadDuration_sum.
Qed.

(** ** analyzer.go: hotspots count every block once *)

Lemma call_counts_Permutation l l' :
  l ≡ₚ l' -> call_counts l = call_counts l'.
Proof.
  unfold call_counts.
  induction 1 as [|x l l' _ IH|x y l|l l' l'' _ IH1 _ IH2]; cbn [foldr]; lia.
Qed.

Lemma bucket_calls_insert_fresh (m : gmap string BlockInfo) key info :
  m !! key = None ->
  bucket_calls (<[key := info]> m) = BlockInfo_CallCount info + bucket_calls m.
Proof.
  intros Hnone. unfold bucket_calls.
  rewrite (call_counts_Permutation _ (map snd ((key, info) :: map_to_list m))).
  - done.
  - apply Permutation_map. by apply map_to_list_insert.
Qed.

Lemma bucket_calls_delete (m : gmap string BlockInfo) key existing :
  m !! key = Some existing ->
  bucket_calls m = BlockInfo_CallCount existing + bucket_calls (delete key m).
Proof.
  intros Hsome. unfold bucket_calls.
  rewrite (call_counts_Permutation _
             (map snd ((key, existing) :: map_to_list (delete key m)))).
  - done.
  - apply Permutation_map. symmetry. by apply map_to_list_delete.
Qed.

Lemma bucket_calls_insert_existing (m : gmap string BlockInfo) key existing info :
  m !! key = Some existing ->
  bucket_calls (<[key := info]> m)
  = BlockInfo_CallCount info - BlockInfo_CallCount existing + bucket_calls m.
Proof.
  intros Hsome. rewrite <- insert_delete_eq.
  rewrite bucket_calls_insert_fresh by apply lookup_delete_eq.
  rewrite (bucket_calls_delete m key existing Hsome). lia.
Qed.

(** Aggregating a block adds one call for the block and one for each of
    its descendants, whatever buckets they fall into. *)
Lemma aggregateBlock_calls p threadID threadName b :
  forall blockMap,
    bucket_calls (aggregateBlock p threadID threadName b blockMap)
    = bucket_calls blockMap + countBlock b.
Proof.
  induction b as [begin end_ id name children IH] using Block_ind'.
  intros blockMap. rewrite aggregateBlock_eq, countBlock_eq. cbn zeta.
  set (key := hotspotKey _ _).
  match goal with |- bucket_calls (aggregateBlocks _ _ _ _ ?m) = _ =>
    set (m0 := m); assert (bucket_calls m0 = bucket_calls blockMap + 1) as Hm0 end.
  { subst m0. destruct (blockMap !! key) as [existing|] eqn:E.
    - rewrite (bucket_calls_insert_existing _ _ existing) by done.
      cbn [BlockInfo_CallCount]. lia.
    - rewrite bucket_calls_insert_fresh by done. cbn [BlockInfo_CallCount]. lia. }
  cbn [Block_Children]. rewrite Z.add_assoc, <- Hm0.
  unfold aggregateBlocks, countBlocks.
  clearbody m0. clear Hm0. revert m0.
  induction IH as [|c cs Hc _ IHcs]; intros m; cbn [fold_left fold_right]; [lia|].
  rewrite IHcs, Hc. lia.
Qed.

Lemma aggregateBlocks_calls p blocks threadID threadName :
  forall blockMap,
    bucket_calls (aggregateBlocks p blocks threadID threadName blockMap)
    = bucket_calls blockMap + countBlocks blocks.
Proof.
  unfold aggregateBlocks, countBlocks.
  induction blocks as [|b bs IH]; intros m; cbn [fold_left fold_right]; [lia|].
  rewrite IH, aggregateBlock_calls. lia.
Qed.

Lemma aggregateThreads_calls p (threads : list (Z * ThreadData)) :
  forall blockMap,
    bucket_calls
      (fold_left (fun m kv => aggregateBlocks p (ThreadData_Blocks kv.2) kv.1
                                (ThreadData_ThreadName kv.2) m) threads blockMap)
    = bucket_calls blockMap
      + fold_right (fun kv acc => countBlocks (ThreadData_Blocks kv.2) + acc)
          0 threads.
Proof.
  induction threads as [|kv kvs IH]; intros m; cbn [fold_left fold_right]; [lia|].
  rewrite IH, aggregateBlocks_calls. lia.
Qed.

Lemma hotspotMap_calls p : bucket_calls (hotspotMap p) = GetBlocksCount (Threads p).
Proof.
  unfold hotspotMap, GetBlocksCount. rewrite aggregateThreads_calls.
  unfold bucket_calls. by rewrite map_to_list_empty.
Qed.

Lemma withAverage_CallCount info :
  BlockInfo_CallCount (withAverage info) = BlockInfo_CallCount info.
Proof. unfold withAverage. by destruct (0 <? _). Qed.

Lemma call_counts_take n l :
  Forall (fun info => 0 <= BlockInfo_CallCount info) l ->
  call_counts (take n l) <= call_counts l.
Proof.
  intros Hall. revert n.
  induction Hall as [|x l Hx _ IH]; intros [|n]; cbn [take]; unfold call_counts in *;
    cbn [foldr]; [lia..| |].
  - assert (0 <= foldr (fun info acc => BlockInfo_CallCount info + acc) 0 l);
      [|lia].
    specialize (IH 0%nat). by rewrite take_0 in IH.
  - specialize (IH n). lia.
Qed.

(** X29. The hotspots count every block of the capture exactly once: the
    call counts of all buckets add up to the number of blocks of all
    threads, nested blocks included. A query with a limit [N >= 0] returns
    buckets whose call counts add up to at most that number, and to exactly
    that number when [N] is not below the number of buckets. *)
Theorem GetHotspots_call_counts (p : ProfileData) (limit : Z) :
  0 <= limit ->
  exists l,
    GetHotspots p limit = Ok l
    /\ call_counts l <= GetBlocksCount (Threads p)
    /\ (Z.of_nat (size (hotspotMap p)) <= limit ->
        call_counts l = GetBlocksCount (Threads p)).
Proof.
  intros Hlimit. unfold GetHotspots.
  set (hotspots := map _ (map_to_list (hotspotMap p))).
  set (sorted := sort_slice _ hotspots).
  assert (call_counts sorted = GetBlocksCount (Threads p)) as Hsum.
  { unfold sorted. rewrite (call_counts_Permutation _ _ (sort_slice_Permutation _ _)).
    rewrite <- hotspotMap_calls. unfold hotspots, bucket_calls.
    induction (map_to_list (hotspotMap p)) as [|kv kvs IH]; [done|].
    cbn [map]. unfold call_counts in *. cbn [foldr].
    rewrite IH, withAverage_CallCount. done. }
  assert (Forall (fun info => 0 <= BlockInfo_CallCount info) sorted) as Hpos.
  { unfold sorted. rewrite sort_slice_Permutation. unfold hotspots.
    apply Forall_fmap.
    pose proof (hotspotMap_positive_counts p) as H.
    apply map_Forall_to_list in H.
    eapply Forall_impl; [exact H|].
    intros [key info] Hinfo. cbn in *. rewrite withAverage_CallCount. lia. }
  assert (length sorted = size (hotspotMap p)) as Hlen.
  { unfold sorted, hotspots.
    by rewrite length_sort_slice, List.length_map, length_map_to_list. }
  rewrite clamp_limit_nonneg by lia.
  rewrite slice_to_nonneg by lia.
  eexists. split; [done|]. split.
  - rewrite <- Hsum. by apply call_counts_take.
  - intros Hall. rewrite take_ge by lia. done.
Qed.

Lemma GetHotspots_call_counts_witness :
  exists l,
    GetHotspots two_calls_profile 10 = Ok l
    /\ call_counts l <= GetBlocksCount (Threads two_calls_profile)
    /\ (Z.of_nat (size (hotspotMap two_calls_profile)) <= 10 ->
        call_counts l = GetBlocksCount (Threads two_calls_profile)).
Proof. apply (GetHotspots_call_counts two_calls_profile 10). lia. Defined.

(** ** analyzer.go: hot functions of a capture of total duration zero *)

Lemma aggregateBlock_int64_durations p threadID threadName b :
  forall blockMap,
    int64_durations blockMap ->
    int64_durations (aggregateBlock p threadID threadName b blockMap).
Proof.
  induction b as [begin end_ id name children IH] using Block_ind'.
  intros blockMap Hm. rewrite aggregateBlock_eq. cbn zeta.
  set (key := hotspotKey _ _).
  match goal with |- int64_durations (aggregateBlocks _ _ _ _ ?m) =>
    set (m0 := m); assert (int64_durations m0) as Hm0 end.
  { subst m0. destruct (blockMap !! key) as [existing|] eqn:E.
    - apply map_Forall_insert_2; [|done]. apply to_int64_range.
    - apply map_Forall_insert_2; [|done]. apply to_int64_range. }
  cbn [Block_Children]. unfold aggregateBlocks.
  clearbody m0. clear Hm. revert m0 Hm0.
  induction IH as [|c cs Hc _ IHcs]; intros m Hm; [done|].
  cbn [fold_left]. apply IHcs, Hc, Hm.
Qed.

Lemma hotspotMap_int64_durations p : int64_durations (hotspotMap p).
Proof.
  unfold hotspotMap.
  assert (int64_durations ∅) as H by apply map_Forall_empty.
  revert H. generalize (∅ : gmap string BlockInfo).
  induction (map_to_list (Threads p)) as [|kv kvs IH]; intros m Hm; [done|].
  cbn [fold_left]. apply IH. unfold aggregateBlocks.
  revert m Hm. induction (ThreadData_Blocks kv.2) as [|b bs IHb]; intros m Hm;
    [done|].
  cbn [fold_left]. by apply IHb, aggregateBlock_int64_durations.
Qed.

Lemma GetHotspots_int64_durations p limit hotspots :
  GetHotspots p limit = Ok hotspots ->
  Forall (fun h => - 2 ^ 63 <= BlockInfo_Duration h < 2 ^ 63) hotspots.
Proof.
  unfold GetHotspots, slice_to. destruct (_ <? 0); [done|].
  intros [= <-]. apply Forall_take. rewrite sort_slice_Permutation.
  apply Forall_fmap.
  pose proof (hotspotMap_int64_durations p) as H.
  apply map_Forall_to_list in H.
  eapply Forall_impl; [exact H|].
  intros [key info] Hinfo. cbn in *. by rewrite withAverage_Duration.
Qed.

(** With a total duration of zero the percentage is a division by zero
    in binary64: plus infinity for a positive duration, minus infinity for
    a negative one, and not a number for zero. *)
Lemma hotFunctionIssue_zero_total hotspot :
  - 2 ^ 63 <= BlockInfo_Duration hotspot < 2 ^ 63 ->
  map (fun issue => (PerformanceIssue_Severity issue, PerformanceIssue_Duration issue))
    (hotFunctionIssue 0 hotspot)
  = if 0 <? BlockInfo_Duration hotspot
    then [("high", BlockInfo_Duration hotspot)] else [].
Proof.
  intros Hrange. unfold hotFunctionIssue, hotPercent. cbn zeta.
  destruct (Z.eq_dec (BlockInfo_Duration hotspot) 0) as [->|Hnz]; [done|].
  destruct (float64_of_int_nonzero (BlockInfo_Duration hotspot)) as (m&e&->&_);
    [done|lia|].
  change (float64_of_int 0) with (S754_zero false).
  destruct (Z.ltb_spec (BlockInfo_Duration hotspot) 0) as [Hneg|Hpos].
  - assert ((0 <? BlockInfo_Duration hotspot) = false) as -> by lia. done.
  - assert ((0 <? BlockInfo_Duration hotspot) = true) as -> by lia. done.
Qed.

(** X30. The share of a hotspot is a binary64 division by the total
    duration of the capture, which the header gives and the blocks do not
    bound. When that total is zero, [detectHotFunctions] reports every one
    of the ten largest hotspots that has a positive duration, each with
    severity high, and no hotspot of zero or negative duration. *)
Theorem detectHotFunctions_zero_total (p : ProfileData) :
  GetTotalDuration p = 0 ->
  exists hotspots hot,
    GetHotspots p 10 = Ok hotspots
    /\ detectHotFunctions p = Ok hot
    /\ map PerformanceIssue_Duration hot
       = filter (fun d => 0 < d) (map BlockInfo_Duration hotspots)
    /\ Forall (fun issue => PerformanceIssue_Severity issue = "high") hot.
Proof.
  intros Hzero. unfold detectHotFunctions. cbn zeta. rewrite Hzero.
  destruct (GetHotspots_ten p) as (hotspots & Hhot & _).
  pose proof (GetHotspots_int64_durations p 10 hotspots Hhot) as Hrange.
  rewrite Hhot. exists hotspots. eexists.
  split; [done|]. split; [done|]. clear Hhot.
  induction Hrange as [|h hs Hh _ [IH1 IH2]]; [by split|].
  cbn [flat_map map]. rewrite map_app, filter_cons, IH1.
  pose proof (hotFunctionIssue_zero_total h Hh) as Hissue.
  destruct (hotFunctionIssue 0 h) as [|issue [|issue' rest]] eqn:E;
    destruct (Z.ltb_spec 0 (BlockInfo_Duration h)) as [Hpos|Hnonpos];
    cbn [map] in Hissue; try discriminate Hissue.
  - rewrite decide_False by lia. by split.
  - injection Hissue as Hsev Hdur.
    rewrite decide_True by lia. cbn [map app]. rewrite Hdur.
    split; [done|]. by constructor.
Qed.

Lemma detectHotFunctions_zero_total_witness :
  exists hotspots hot,
    GetHotspots zero_span_profile 10 = Ok hotspots
    /\ detectHotFunctions zero_span_profile = Ok hot
    /\ map PerformanceIssue_Duration hot
       = filter (fun d => 0 < d) (map BlockInfo_Duration hotspots)
    /\ Forall (fun issue => PerformanceIssue_Severity issue = "high") hot.
Proof. apply (detectHotFunctions_zero_total zero_span_profile). reflexivity. Defined.
